(** * Service-account provisioning scripts: retry primitive, ToS loop,
      pipeline, delegation URL and response classifiers.

    The development embeds [trial.py] (the gcloud driven pipeline) and the
    parts of [new.py] that the properties below talk about.

    Coroutines ([async def]) are embedded as finite programs over the
    effects the script performs (logging, printing, shell processes,
    sleeping, operator input, clock, key file, HTTP).  A program is run
    against a [World], which fixes what every external collaborator
    answers, and a [State], which records the processes started so far and
    the trace of everything the script did. *)

From Stdlib Require Import ZArith List Bool Ascii String DecimalString Lia Arith.
Import ListNotations.
Local Open Scope string_scope.
Local Open Scope Z_scope.

Set Implicit Arguments.
Set Warnings "-register-all".

(** ** Text *)

(** Captured output is a byte string.  A [str] is carried as its UTF-8
    encoding, so [bytes.decode()] leaves the bytes as they are, but it
    raises on bytes that are not well-formed UTF-8 ([decode] below).  What
    [str] does character by character goes through [Utf8.chars]. *)

Module Utf8.

Local Open Scope N_scope.

Definition in_range (lo hi n : N) : bool := ((lo <=? n) && (n <=? hi))%bool.

Definition continuation (b : N) : bool := in_range 128 191 b.

(** The second byte after the lead byte [a] of a three-byte sequence:
    no overlong form and no surrogate. *)
Definition second_of_three (a b : N) : bool :=
  if a =? 224 then in_range 160 191 b
  else if a =? 237 then in_range 128 159 b
  else continuation b.

(** The second byte after the lead byte [a] of a four-byte sequence:
    no overlong form and nothing above U+10FFFF. *)
Definition second_of_four (a b : N) : bool :=
  if a =? 240 then in_range 144 191 b
  else if a =? 244 then in_range 128 143 b
  else continuation b.

(** A character: its code point and the bytes that encode it. *)
Record Char : Type := mkChar { code : N; bytes : string }.

Definition push (c : N) (b : string) (rest : option (list Char))
  : option (list Char) :=
  option_map (cons (mkChar c b)) rest.

(** The characters of a byte string, [None] when it is not well-formed
    UTF-8 (where the strict decoder of [bytes.decode()] raises). *)
Fixpoint chars (s : string) : option (list Char) :=
  match s with
  | EmptyString => Some nil
  | String a t =>
      let x := N_of_ascii a in
      if x <? 128 then push x (String a EmptyString) (chars t)
      else if in_range 194 223 x then
        match t with
        | String b t' =>
            let y := N_of_ascii b in
            if continuation y
            then push ((x - 192) * 64 + (y - 128))
                      (String a (String b EmptyString)) (chars t')
            else None
        | EmptyString => None
        end
      else if in_range 224 239 x then
        match t with
        | String b (String c t') =>
            let y := N_of_ascii b in
            let z := N_of_ascii c in
            if (second_of_three x y && continuation z)%bool
            then push ((x - 224) * 4096 + (y - 128) * 64 + (z - 128))
                      (String a (String b (String c EmptyString))) (chars t')
            else None
        | _ => None
        end
      else if in_range 240 244 x then
        match t with
        | String b (String c (String d t')) =>
            let y := N_of_ascii b in
            let z := N_of_ascii c in
            let u := N_of_ascii d in
            if (second_of_four x y && continuation z && continuation u)%bool
            then push ((x - 240) * 262144 + (y - 128) * 4096
                       + (z - 128) * 64 + (u - 128))
                      (String a (String b (String c (String d EmptyString))))
                      (chars t')
            else None
        | _ => None
        end
      else None
  end.

Definition valid (s : string) : bool :=
  match chars s with Some _ => true | None => false end.

(** The characters [str.isspace()] accepts, which [str.rstrip()] strips. *)
Definition is_space (c : N) : bool :=
  (in_range 9 13 c || in_range 28 32 c || (c =? 133) || (c =? 160)
   || (c =? 5760) || in_range 8192 8202 c || in_range 8232 8233 c
   || (c =? 8239) || (c =? 8287) || (c =? 12288))%bool.

Fixpoint rstrip (l : list Char) : list Char :=
  match l with
  | nil => nil
  | c :: t =>
      match rstrip t with
      | nil => if is_space (code c) then nil else c :: nil
      | r => c :: r
      end
  end.

Fixpoint text (l : list Char) : string :=
  match l with
  | nil => EmptyString
  | c :: t => bytes c ++ text t
  end.

End Utf8.

Module Str.

(** The double-quote character, as a one-character string. *)
Definition dq : string := String (ascii_of_nat 34) EmptyString.

(** The check mark U+2705, in UTF-8. *)
Definition check : string :=
  String (ascii_of_nat 226)
    (String (ascii_of_nat 156) (String (ascii_of_nat 133) EmptyString)).

(** [str(n)] for an integer. *)
Definition of_Z (z : Z) : string := NilZero.string_of_int (Z.to_int z).

(** The newline character, as a one-character string. *)
Definition nl : string := String (ascii_of_nat 10) EmptyString.

Fixpoint is_prefix (p s : string) : bool :=
  match p, s with
  | EmptyString, _ => true
  | String a p', String b s' => Ascii.eqb a b && is_prefix p' s'
  | String _ _, EmptyString => false
  end.

(** Python's [needle in haystack] on strings. *)
Fixpoint contains (needle hay : string) : bool :=
  is_prefix needle hay ||
  match hay with
  | EmptyString => false
  | String _ hay' => contains needle hay'
  end.

Definition lower_char (c : ascii) : ascii :=
  let n := nat_of_ascii c in
  if (Nat.leb 65 n && Nat.leb n 90)%bool then ascii_of_nat (n + 32)%nat else c.

(** [str.lower()] on the ASCII range; other bytes are left alone. *)
Fixpoint lower (s : string) : string :=
  match s with
  | EmptyString => EmptyString
  | String c s' => String (lower_char c) (lower s')
  end.

(** Truthiness of a [str] / [bytes] value. *)
Definition nonempty (s : string) : bool :=
  match s with EmptyString => false | String _ _ => true end.

(** [sep.join(parts)]. *)
Fixpoint join (sep : string) (parts : list string) : string :=
  match parts with
  | [] => EmptyString
  | [p] => p
  | p :: rest => p ++ sep ++ join sep rest
  end.

(** [s.split(sep)] for a one-character separator. *)
Fixpoint split_on (sep : ascii) (s : string) : list string :=
  match s with
  | EmptyString => [EmptyString]
  | String c s' =>
      if Ascii.eqb c sep then EmptyString :: split_on sep s'
      else match split_on sep s' with
           | [] => [String c EmptyString]
           | h :: t => String c h :: t
           end
  end.

(** [s.rstrip()] of a [str]: the trailing whitespace characters are
    dropped.  (Bytes that are not well-formed are no [str]; they are left
    as they are.) *)
Definition rstrip (s : string) : string :=
  match Utf8.chars s with
  | Some l => Utf8.text (Utf8.rstrip l)
  | None => s
  end.

End Str.

(** ** Data model *)

(** The triple [(stdout, stderr, return_code)]. *)
Record CommandResult : Type := mkResult {
  stdout : string;
  stderr : string;
  return_code : Z
}.

(** Keyword arguments of [retryable_command]. *)
Record RetryPolicy : Type := mkPolicy {
  max_num_retries : Z;
  retry_delay : Z;
  suppress_errors : bool;
  require_output : bool
}.

Definition default_policy : RetryPolicy :=
  {| max_num_retries := 3; retry_delay := 5;
     suppress_errors := false; require_output := false |}.

(** JSON values as [json.loads] produces them. *)
Inductive JSON : Type :=
| JNull
| JBool (b : bool)
| JNum (n : Z)
| JFloat (mantissa exponent : Z)
| JStr (s : string)
| JArr (items : list JSON)
| JObj (fields : list (string * JSON)).

Inductive Level : Type := DEBUG | INFO | ERROR | CRITICAL.

(** Arguments handed to [logging.*] and [print]. *)
Inductive PyVal : Type :=
| VInt (n : Z)
| VStr (s : string)
| VJson (j : JSON)
| VDumps (j : JSON).      (* the str that [json.dumps(j)] returns *)

Inductive Exn : Type :=
| TypeError
| IndexError
| KeyError
| OSError
| ValueError
| HttpError
| ConnectionError
| UnicodeDecodeError
| DefaultCredentialsError.

(** How a run ends when it does not return. *)
Inductive Halt : Type :=
| Exited (code : Z)        (* sys.exit(code) *)
| Raised (e : Exn)         (* uncaught exception *)
| OutOfFuel.               (* the bound put on an unbounded loop was hit *)

Inductive Result (A : Type) : Type :=
| Done (a : A)
| Stopped (h : Halt).
Arguments Done {A} a.
Arguments Stopped {A} h.

(** Output-only effects. *)
Inductive Action : Type :=
| Log (lvl : Level) (fmt : string) (args : list PyVal)
| Print (args : list PyVal)
| Sleep (seconds : Z)
| System (command : string).

(** ** Programs *)

Inductive Prog (A : Type) : Type :=
| Ret (a : A)
| Stop (h : Halt)
| Act (a : Action) (k : Prog A)
| Shell (command : string) (k : CommandResult -> Prog A)
| Input (prompt : string) (k : string -> Prog A)
| TimeMs (k : Z -> Prog A)
| Now (k : string -> Prog A)
| LoadKey (path : string) (k : JSON -> Prog A)
| Post (url : string) (payload : PyVal) (k : Z -> Prog A).
Arguments Ret {A} a.
Arguments Stop {A} h.
Arguments Act {A} a k.
Arguments Shell {A} command k.
Arguments Input {A} prompt k.
Arguments TimeMs {A} k.
Arguments Now {A} k.
Arguments LoadKey {A} path k.
Arguments Post {A} url payload k.

Fixpoint bind {A B : Type} (p : Prog A) (f : A -> Prog B) : Prog B :=
  match p with
  | Ret a => f a
  | Stop h => Stop h
  | Act a k => Act a (bind k f)
  | Shell c k => Shell c (fun r => bind (k r) f)
  | Input q k => Input q (fun s => bind (k s) f)
  | TimeMs k => TimeMs (fun t => bind (k t) f)
  | Now k => Now (fun t => bind (k t) f)
  | LoadKey p k => LoadKey p (fun d => bind (k d) f)
  | Post u d k => Post u d (fun r => bind (k r) f)
  end.

Declare Scope prog_scope.
Delimit Scope prog_scope with prog.
Notation "x <- p ;; q" := (bind p (fun x => q))
  (at level 61, p at next level, right associativity) : prog_scope.
Notation "p ;; q" := (bind p (fun _ => q))
  (at level 61, right associativity) : prog_scope.
Local Open Scope prog_scope.

Definition log (lvl : Level) (fmt : string) (args : list PyVal) : Prog unit :=
  Act (Log lvl fmt args) (Ret tt).
Definition print (args : list PyVal) : Prog unit := Act (Print args) (Ret tt).
Definition sleep (d : Z) : Prog unit := Act (Sleep d) (Ret tt).
Definition sys_exit {A} (code : Z) : Prog A := Stop (Exited code).
Definition raise {A} (e : Exn) : Prog A := Stop (Raised e).
Definition shell (command : string) : Prog CommandResult := Shell command Ret.
Definition input (prompt : string) : Prog string := Input prompt Ret.

(** [b.decode()]: the text, or [UnicodeDecodeError]. *)
Definition decode (b : string) : Exn + string :=
  if Utf8.valid b then inr b else inl UnicodeDecodeError.

(** Go on with the decoded text, or raise. *)
Definition decoded {A : Type} (b : string) (k : string -> Prog A) : Prog A :=
  match decode b with
  | inr text => k text
  | inl e => raise e
  end.

Arguments decoded : simpl never.

(** Both streams of the result can be decoded. *)
Definition decodable (r : CommandResult) : bool :=
  (Utf8.valid (stdout r) && Utf8.valid (stderr r))%bool.

(** ** Running a program *)

(** What the outside world answers. *)
Record World : Type := mkWorld {
  shell_out : nat -> string -> CommandResult; (* process number, command *)
  operator : nat -> string;                   (* answer to the n-th prompt *)
  clock_ms : Z;                               (* int(time.time() * 1000) *)
  clock_str : string;                         (* strftime of now() *)
  key_file : string -> Exn + JSON;            (* open + json.loads + dict *)
  http_post : string -> PyVal -> Exn + Z      (* requests.post(url, json=...) *)
}.

Inductive Event : Type :=
| EvAct (a : Action)
| EvSpawn (pid : nat) (command : string)   (* create_subprocess_shell *)
| EvWait (pid : nat) (command : string) (r : CommandResult) (* communicate *)
| EvInput (prompt answer : string)
| EvLoadKey (path : string) (outcome : Exn + JSON)
| EvPost (url : string) (payload : PyVal) (outcome : Exn + Z).

Record State : Type := mkState {
  procs : nat;          (* processes started so far *)
  prompts : nat;        (* prompts answered so far *)
  trace : list Event
}.

Definition init : State := {| procs := 0; prompts := 0; trace := [] |}.

Definition emit (s : State) (evs : list Event) : State :=
  {| procs := procs s; prompts := prompts s; trace := trace s ++ evs |}.

Fixpoint run {A : Type} (p : Prog A) (w : World) (s : State)
  : Result A * State :=
  match p with
  | Ret a => (Done a, s)
  | Stop h => (Stopped h, s)
  | Act a k => run k w (emit s [EvAct a])
  | Shell c k =>
      let pid := procs s in
      let r := shell_out w pid c in
      run (k r) w {| procs := S pid; prompts := prompts s;
                     trace := trace s ++ [EvSpawn pid c; EvWait pid c r] |}
  | Input q k =>
      let a := operator w (prompts s) in
      run (k a) w {| procs := procs s; prompts := S (prompts s);
                     trace := trace s ++ [EvInput q a] |}
  | TimeMs k => run (k (clock_ms w)) w s
  | Now k => run (k (clock_str w)) w s
  | LoadKey path k =>
      match key_file w path with
      | inl e => (Stopped (Raised e), emit s [EvLoadKey path (inl e)])
      | inr d => run (k d) w (emit s [EvLoadKey path (inr d)])
      end
  | Post url payload k =>
      match http_post w url payload with
      | inl e => (Stopped (Raised e), emit s [EvPost url payload (inl e)])
      | inr st => run (k st) w (emit s [EvPost url payload (inr st)])
      end
  end.

(** Number of processes a trace starts. *)
Fixpoint spawns (tr : list Event) : nat :=
  match tr with
  | [] => 0
  | EvSpawn _ _ :: tr' => S (spawns tr')
  | _ :: tr' => spawns tr'
  end.

(** ** asyncio.gather *)

(** A coroutine scheduled as a task: either it can take its next step, or
    it has started a process and waits for it to end. *)
Inductive Task : Type :=
| Ready (p : Prog unit)
| Waiting (pid : nat) (command : string) (k : CommandResult -> Prog unit).

(** One scheduling step of a task.  Starting a process and collecting its
    result are two steps, so other tasks can run in between. *)
Definition step_task (t : Task) (w : World) (s : State) : Task * State :=
  match t with
  | Waiting pid c k =>
      let r := shell_out w pid c in
      (Ready (k r), emit s [EvWait pid c r])
  | Ready (Ret _) => (t, s)
  | Ready (Stop _) => (t, s)
  | Ready (Act a k) => (Ready k, emit s [EvAct a])
  | Ready (Shell c k) =>
      (Waiting (procs s) c k,
       {| procs := S (procs s); prompts := prompts s;
          trace := trace s ++ [EvSpawn (procs s) c] |})
  | Ready (Input q k) =>
      let a := operator w (prompts s) in
      (Ready (k a),
       {| procs := procs s; prompts := S (prompts s);
          trace := trace s ++ [EvInput q a] |})
  | Ready (TimeMs k) => (Ready (k (clock_ms w)), s)
  | Ready (Now k) => (Ready (k (clock_str w)), s)
  | Ready (LoadKey path k) =>
      match key_file w path with
      | inl e => (Ready (Stop (Raised e)), emit s [EvLoadKey path (inl e)])
      | inr d => (Ready (k d), emit s [EvLoadKey path (inr d)])
      end
  | Ready (Post url payload k) =>
      match http_post w url payload with
      | inl e => (Ready (Stop (Raised e)), emit s [EvPost url payload (inl e)])
      | inr st => (Ready (k st), emit s [EvPost url payload (inr st)])
      end
  end.

(** Run a task to its end without interruption. *)
Definition finish_task (t : Task) (w : World) (s : State)
  : Result unit * State :=
  match t with
  | Ready p => run p w s
  | Waiting pid c k =>
      let r := shell_out w pid c in
      run (k r) w (emit s [EvWait pid c r])
  end.

Definition halted (t : Task) : option Halt :=
  match t with
  | Ready (Stop h) => Some h
  | _ => None
  end.

Definition finished (t : Task) : Prop := t = Ready (Ret tt).

Fixpoint replace_nth {A : Type} (i : nat) (x : A) (l : list A) : list A :=
  match l, i with
  | [], _ => []
  | _ :: l', O => x :: l'
  | y :: l', S i' => y :: replace_nth i' x l'
  end.

(** The tasks that are left run one after the other. *)
Fixpoint drain (tasks : list Task) (w : World) (s : State)
  : Result unit * State :=
  match tasks with
  | [] => (Done tt, s)
  | t :: rest =>
      match finish_task t w s with
      | (Done _, s') => drain rest w s'
      | (Stopped h, s') => (Stopped h, s')
      end
  end.

(** Awaiting [asyncio.gather] of the tasks under the schedule [sched]: each entry
    names the task that takes the next step, and when the schedule is used
    up the tasks that are left are drained in order.  A task that calls
    [sys.exit] or raises ends the whole run.  Every interleaving of the
    tasks' steps is the run of some schedule. *)
Fixpoint gather (sched : list nat) (tasks : list Task) (w : World) (s : State)
  : Result unit * State :=
  match sched with
  | [] => drain tasks w s
  | i :: sched' =>
      match nth_error tasks i with
      | None => gather sched' tasks w s
      | Some t =>
          let (t', s') := step_task t w s in
          match halted t' with
          | Some h => (Stopped h, s')
          | None => gather sched' (replace_nth i t' tasks) w s'
          end
      end
  end.

(** Sequencing of runs. *)
Definition Run (A : Type) : Type := World -> State -> Result A * State.

Definition then_run {A B : Type} (m : Run A) (f : A -> Run B) : Run B :=
  fun w s =>
    match m w s with
    | (Done a, s') => f a w s'
    | (Stopped h, s') => (Stopped h, s')
    end.

(** Processes of a trace that were started and not yet collected. *)
Definition is_wait (pid : nat) (e : Event) : bool :=
  match e with
  | EvWait pid' _ _ => Nat.eqb pid' pid
  | _ => false
  end.

Fixpoint spawned_pids (tr : list Event) : list nat :=
  match tr with
  | [] => []
  | EvSpawn pid _ :: tr' => pid :: spawned_pids tr'
  | _ :: tr' => spawned_pids tr'
  end.

Definition outstanding (tr : list Event) : list nat :=
  filter (fun pid => negb (existsb (is_wait pid) tr)) (spawned_pids tr).

(** Every event the program can produce satisfies [P]. *)
Fixpoint Emits {A : Type} (P : Event -> Prop) (p : Prog A) : Prop :=
  match p with
  | Ret _ => True
  | Stop _ => True
  | Act a k => P (EvAct a) /\ Emits P k
  | Shell c k =>
      (forall pid, P (EvSpawn pid c)) /\ (forall pid r, P (EvWait pid c r))
      /\ forall r, Emits P (k r)
  | Input q k => (forall a, P (EvInput q a)) /\ forall a, Emits P (k a)
  | TimeMs k => forall t, Emits P (k t)
  | Now k => forall t, Emits P (k t)
  | LoadKey path k =>
      (forall o, P (EvLoadKey path o)) /\ forall d, Emits P (k d)
  | Post url payload k =>
      (forall o, P (EvPost url payload o)) /\ forall st, Emits P (k st)
  end.

(** The command [c] has ended with status zero in the trace. *)
Definition succeeded (c : string) (tr : list Event) : Prop :=
  exists pid r, In (EvWait pid c r) tr /\ return_code r = 0.

(** The program cannot return without [c] having ended with status
    zero on the way. *)
Fixpoint Ensures (c : string) (p : Prog unit) : Prop :=
  match p with
  | Ret _ => False
  | Stop _ => True
  | Act _ k => Ensures c k
  | Shell c' k => forall r, (c' = c /\ return_code r = 0) \/ Ensures c (k r)
  | Input _ k => forall a, Ensures c (k a)
  | TimeMs k => forall t, Ensures c (k t)
  | Now k => forall t, Ensures c (k t)
  | LoadKey _ k => forall d, Ensures c (k d)
  | Post _ _ k => forall st, Ensures c (k st)
  end.

Definition TaskEmits (P : Event -> Prop) (t : Task) : Prop :=
  match t with
  | Ready p => Emits P p
  | Waiting _ c k => (forall pid r, P (EvWait pid c r)) /\ forall r, Emits P (k r)
  end.

Definition TaskEnsures (c : string) (t : Task) : Prop :=
  match t with
  | Ready p => Ensures c p
  | Waiting _ c' k =>
      forall r, (c' = c /\ return_code r = 0) \/ Ensures c (k r)
  end.

(** Some task waits for process [pid]. *)
Definition holds (tasks : list Task) (pid : nat) : Prop :=
  exists c k, In (Waiting pid c k) tasks.

(** What stays true while tasks are gathered: [evs] are the events since
    the gathering began, all of them satisfy [P], every process started is
    collected or waited for by a task, and task number [i] either has seen
    command number [i] succeed or cannot return without it. *)
Definition GatherInv (P : Event -> Prop) (commands : list string)
           (tr0 : list Event) (tasks : list Task) (s : State) : Prop :=
  exists evs,
    trace s = (tr0 ++ evs)%list
    /\ Forall P evs
    /\ Forall (TaskEmits P) tasks
    /\ (forall pid, In pid (spawned_pids evs) ->
          existsb (is_wait pid) evs = true \/ holds tasks pid)
    /\ Forall2 (fun c t => succeeded c evs \/ TaskEnsures c t) commands tasks.


(** ** urllib.parse: quote and unquote *)

Module Url.

Definition in_range (lo hi n : nat) : bool := (Nat.leb lo n && Nat.leb n hi)%bool.

(** The characters [quote] never encodes: letters, digits and [_.-~]. *)
Definition always_safe (c : ascii) : bool :=
  let n := nat_of_ascii c in
  (in_range 65 90 n || in_range 97 122 n || in_range 48 57 n
   || Nat.eqb n 95 || Nat.eqb n 46 || Nat.eqb n 45 || Nat.eqb n 126)%bool.

Definition hex_digit (n : nat) : ascii :=
  if Nat.ltb n 10 then ascii_of_nat (48 + n)%nat else ascii_of_nat (55 + n)%nat.

Definition hex_value (c : ascii) : option nat :=
  let n := nat_of_ascii c in
  if in_range 48 57 n then Some (n - 48)%nat
  else if in_range 65 70 n then Some (n - 55)%nat
  else if in_range 97 102 n then Some (n - 87)%nat
  else None.

Definition percent : ascii := ascii_of_nat 37.

(** One byte under [quote(..., safe='')]. *)
Definition quote_byte (c : ascii) : string :=
  if always_safe c then String c EmptyString
  else
    let n := nat_of_ascii c in
    String percent
      (String (hex_digit (n / 16)%nat)
         (String (hex_digit (n mod 16)%nat) EmptyString)).

(** [urllib.parse.quote(s, safe='')]. *)
Fixpoint quote (s : string) : string :=
  match s with
  | EmptyString => EmptyString
  | String c s' => quote_byte c ++ quote s'
  end.

(** [urllib.parse.unquote]: a percent sign followed by two hex digits is
    one byte; any other percent sign stands for itself. *)
Fixpoint unquote (s : string) : string :=
  match s with
  | EmptyString => EmptyString
  | String c s' =>
      if Ascii.eqb c percent then
        match s' with
        | String h (String l s'') =>
            match hex_value h, hex_value l with
            | Some a, Some b =>
                String (ascii_of_nat (16 * a + b)%nat) (unquote s'')
            | _, _ => String c (unquote s')
            end
        | _ => String c (unquote s')
        end
      else String c (unquote s')
  end.

End Url.

(** ** trial.py: retryable_command *)

Module Trial.

(** What one pass through the loop body decides (lines 274-285). *)
Inductive Verdict : Type :=
| Success        (* line 276: return the triple *)
| Retry          (* lines 279-280: count up, sleep, go round again *)
| GiveUpReturn   (* line 282: suppress_errors, return the triple *)
| GiveUpExit.    (* lines 284-285: log and sys.exit(return_code) *)

Definition exhausted (pol : RetryPolicy) (num_tries : Z) : Verdict :=
  if num_tries <? max_num_retries pol then Retry
  else if suppress_errors pol then GiveUpReturn
  else GiveUpExit.

Definition verdict (pol : RetryPolicy) (num_tries : Z) (r : CommandResult)
  : Verdict :=
  if return_code r =? 0 then
    if (negb (require_output pol)
        || (require_output pol && Str.nonempty (stdout r)))%bool
    then Success
    else exhausted pol num_tries
  else exhausted pol num_tries.

Definition exec_fmt : string := "Executing command (attempt %d): %s".

(** The [while num_tries <= max_num_retries] loop.  [fuel] bounds the
    number of passes; [retryable_command] supplies enough of it. *)
Fixpoint retry_loop (command : string) (pol : RetryPolicy)
         (fuel : nat) (num_tries : Z) : Prog (option CommandResult) :=
  if num_tries <=? max_num_retries pol then
    match fuel with
    | O => Stop OutOfFuel
    | S fuel' =>
        Act (Log DEBUG exec_fmt [VInt num_tries; VStr command])
        (Shell command (fun r =>
        decoded (stdout r) (fun out =>
        Act (Log DEBUG "stdout: %s" [VStr out])
        (decoded (stderr r) (fun err =>
        Act (Log DEBUG "stderr: %s" [VStr err])
        (Act (Log DEBUG "Return code: %d" [VInt (return_code r)])
        match verdict pol num_tries r with
        | Success => Ret (Some r)
        | Retry =>
            Act (Sleep (retry_delay pol))
                (retry_loop command pol fuel' (num_tries + 1))
        | GiveUpReturn => Ret (Some r)
        | GiveUpExit =>
            decoded (stderr r) (fun err' =>
            Act (Log CRITICAL "Failed to execute command: `%s`"
                     [VStr err'])
                (Stop (Exited (return_code r))))
        end))))))
    end
  else Ret None.

Definition retryable_command (command : string) (pol : RetryPolicy)
  : Prog (option CommandResult) :=
  retry_loop command pol (Z.to_nat (max_num_retries pol)) 1.

(** [a, b, c = await retryable_command(...)]: unpacking [None] raises. *)
Definition unpack3 (r : option CommandResult) : Prog CommandResult :=
  match r with
  | Some t => Ret t
  | None => raise TypeError
  end.

(** [x, _, _ = await retryable_command(command, ...)]. *)
Definition unpacking_call (command : string) (pol : RetryPolicy)
  : Prog CommandResult :=
  r <- retryable_command command pol ;; unpack3 r.

Definition output_policy : RetryPolicy :=
  {| max_num_retries := 3; retry_delay := 5;
     suppress_errors := false; require_output := true |}.

Definition get_project_id : Prog string :=
  t <- unpacking_call "gcloud config get-value project" output_policy ;;
  decoded (stdout t) (fun text => Ret (Str.rstrip text)).

Definition get_service_account_id : Prog string :=
  t <- unpacking_call
         ("gcloud iam service-accounts list --format=" ++ Str.dq
          ++ "value(uniqueId)" ++ Str.dq)
         output_policy ;;
  decoded (stdout t) (fun text => Ret (Str.rstrip text)).

Definition get_service_account_email : Prog string :=
  t <- unpacking_call
         ("gcloud iam service-accounts list --format=" ++ Str.dq
          ++ "value(email)" ++ Str.dq)
         output_policy ;;
  decoded (stdout t) (fun text => Ret (Str.rstrip text)).

Definition get_admin_user_email : Prog string :=
  t <- unpacking_call ("gcloud auth list --format=" ++ Str.dq
                        ++ "value(account)" ++ Str.dq)
         output_policy ;;
  decoded (stdout t) (fun text => Ret (Str.rstrip text)).

(** The result of the [j]-th process started after state [s]. *)
Definition attempt_result (w : World) (s : State) (command : string)
           (j : nat) : CommandResult :=
  shell_out w (procs s + j) command.

(** *** Configuration constants *)

Definition TOOL_NAME : string := "Pawa-IT-Drive-Audit".
Definition TOOL_NAME_FRIENDLY : string := "Pawa IT Drive Audit Tool".

Definition APIS : list string :=
  [ "admin.googleapis.com";
    "contacts.googleapis.com";
    "gmail.googleapis.com";
    "drive.googleapis.com";
    "driveactivity.googleapis.com" ].

Definition SCOPES : list string :=
  [ "https://www.googleapis.com/auth/drive";
    "https://www.googleapis.com/auth/drive.activity.readonly";
    "https://www.googleapis.com/auth/admin.directory.user" ].

(** *** verify_tos_accepted *)

Definition probe_policy : RetryPolicy :=
  {| max_num_retries := 1; retry_delay := 5;
     suppress_errors := true; require_output := false |}.

Definition enable_command (api : string) : string :=
  "gcloud services enable " ++ api.

Definition tos_marker : string := "UREQ_TOS_NOT_ACCEPTED".

Definition universal_notice : string :=
  "You must first accept the Google APIs Terms of Service. You "
  ++ "can accept the terms of service by clicking "
  ++ "https://console.developers.google.com/terms/universal and "
  ++ "clicking 'Accept'." ++ Str.nl.

Definition appsadmin_notice : string :=
  "You must first accept the Google Apps Admin APIs Terms of "
  ++ "Service. You can accept the terms of service by clicking "
  ++ "https://console.developers.google.com/terms/appsadmin and "
  ++ "clicking 'Accept'." ++ Str.nl.

Definition tos_prompt : string :=
  "If you've accepted the terms of service, press Enter "
  ++ "to try again or 'n' to cancel:".

(** Lines 88-99: which agreement is named to the operator. *)
Definition tos_notice (err_str : string) : Prog unit :=
  if Str.contains "universal" err_str then
    log DEBUG "Google APIs Terms of Service not accepted" [] ;;
    print [VStr universal_notice]
  else if Str.contains "appsadmin" err_str then
    log DEBUG "Google Apps Admin APIs Terms of Service not accepted" [] ;;
    print [VStr appsadmin_notice]
  else Ret tt.

(** One pass through the body of the loop (lines 82-108); [again] is the
    rest of the loop, entered with the new value of [tos_accepted]. *)
Definition tos_pass (again : bool -> Prog unit) (tos_accepted : bool)
           (api0 : string) : Prog unit :=
  t <- unpacking_call (enable_command api0) probe_policy ;;
  if negb (return_code t =? 0) then
    decoded (stderr t) (fun err_str =>
    if Str.contains tos_marker err_str then
      tos_notice err_str ;;
      answer <- input tos_prompt ;;
      if String.eqb (Str.lower answer) "n" then sys_exit 0
      else again tos_accepted
    else
      log CRITICAL err_str [] ;;
      sys_exit 1)
  else again true.

(** The [while APIS and not tos_accepted] loop; [fuel] bounds the number
    of passes, which the source does not. *)
Fixpoint tos_loop (fuel : nat) (tos_accepted : bool) : Prog unit :=
  match APIS with
  | [] => Ret tt
  | api0 :: _ =>
      if negb tos_accepted then
        match fuel with
        | O => Stop OutOfFuel
        | S fuel' => tos_pass (tos_loop fuel') tos_accepted api0
        end
      else Ret tt
  end.

Definition verify_tos_accepted (fuel : nat) : Prog unit :=
  log INFO "Verifying acceptance of Terms of service..." [] ;;
  tos_loop fuel false ;;
  log INFO ("Terms of service acceptance verified " ++ Str.check) [].

(** *** authorize_service_account *)

Definition DWD_URL_FORMAT (client_id scope : string) : string :=
  "https://admin.google.com/ac/owl/domainwidedelegation?"
  ++ "overwriteClientId=true&clientIdToAdd=" ++ client_id
  ++ "&clientScopeToAdd=" ++ scope.

(** [urllib.parse.quote(",".join(scopes), safe='')]. *)
Definition scope_parameter (scopes : list string) : string :=
  Url.quote (Str.join "," scopes).

Definition authorize_url (service_account_id : string) : string :=
  DWD_URL_FORMAT service_account_id (scope_parameter SCOPES).

Definition authorize_prompt (url : string) : string :=
  "If you've accepted the terms of service,"
  ++ "click on the link below " ++ url ++ Str.nl
  ++ "press Enter to continue or 'n' to cancel:".

Definition authorize_service_account : Prog bool :=
  service_account_id <- get_service_account_id ;;
  answer <- input (authorize_prompt (authorize_url service_account_id)) ;;
  if String.eqb (Str.lower answer) "n" then Ret false else Ret true.

(** *** is_service_disabled *)

(** [v[key]] for a string key. *)
Definition getitem (v : JSON) (key : string) : Exn + JSON :=
  match v with
  | JObj fields =>
      match find (fun kv => String.eqb (fst kv) key) fields with
      | Some kv => inr (snd kv)
      | None => inl KeyError
      end
  | _ => inl TypeError
  end.

(** [v[0]]. *)
Definition getitem0 (v : JSON) : Exn + JSON :=
  match v with
  | JArr (x :: _) => inr x
  | JArr [] => inl IndexError
  | JStr (String c _) => inr (JStr (String c EmptyString))
  | JStr EmptyString => inl IndexError
  | JObj _ => inl KeyError
  | _ => inl TypeError
  end.

(** [needle in v] for a string needle. *)
Definition py_in (needle : string) (v : JSON) : Exn + bool :=
  match v with
  | JStr s => inr (Str.contains needle s)
  | JArr items =>
      inr (existsb (fun x => match x with
                             | JStr s => String.eqb s needle
                             | _ => false
                             end) items)
  | JObj fields => inr (existsb (fun kv => String.eqb (fst kv) needle) fields)
  | _ => inl TypeError
  end.

(** Values of the test on line 240: a string or a boolean. *)
Inductive Operand : Type :=
| OStr (s : string)
| OBool (b : bool).

Definition truthy (v : Operand) : bool :=
  match v with
  | OStr s => Str.nonempty s
  | OBool b => b
  end.

(** [a or b]: [b] is only evaluated when [a] is falsy. *)
Definition py_or (a : Operand) (b : unit -> Exn + Operand) : Exn + Operand :=
  if truthy a then inr a else b tt.

(** ["notACalendarUser" or "notFound" or "authError" in error_reason]. *)
Definition disabled_reason_test (error_reason : JSON) : Exn + Operand :=
  py_or (OStr "notACalendarUser") (fun _ =>
  py_or (OStr "notFound") (fun _ =>
  match py_in "authError" error_reason with
  | inl e => inl e
  | inr b => inr (OBool b)
  end)).

(** [api_response["error"]["errors"][0]["reason"]]. *)
Definition error_reason_of (api_response : JSON) : Exn + JSON :=
  match getitem api_response "error" with
  | inl e => inl e
  | inr err =>
      match getitem err "errors" with
      | inl e => inl e
      | inr errs =>
          match getitem0 errs with
          | inl e => inl e
          | inr first => getitem first "reason"
          end
      end
  end.

(** [api_response["error"]["message"]]. *)
Definition error_message_of (api_response : JSON) : Exn + JSON :=
  match getitem api_response "error" with
  | inl e => inl e
  | inr err => getitem err "message"
  end.

Section Classifiers.

(** [json.loads]; [None] when it raises. *)
Variable json_loads : string -> option JSON.

(** The body of the first [try]: [inr true] when it returns [True],
    [inr false] when it falls off its end, [inl] when it raises. *)
Definition reason_check (raw : string) : Exn + bool :=
  match json_loads raw with
  | None => inl ValueError
  | Some api_response =>
      match error_reason_of api_response with
      | inl e => inl e
      | inr error_reason =>
          match disabled_reason_test error_reason with
          | inl e => inl e
          | inr v => inr (truthy v)
          end
      end
  end.

(** The body of the second [try]. *)
Definition message_check (raw : string) : Exn + bool :=
  match json_loads raw with
  | None => inl ValueError
  | Some api_response =>
      match error_message_of api_response with
      | inl e => inl e
      | inr message => py_in "service not enabled" message
      end
  end.

Definition is_service_disabled (raw_api_response : option string) : bool :=
  match raw_api_response with
  | None => true
  | Some raw =>
      match reason_check raw with
      | inr true => true
      | _ =>
          match message_check raw with
          | inr true => true
          | _ => false
          end
      end
  end.

Definition is_api_disabled (raw_api_response : option string) : bool :=
  match raw_api_response with
  | None => true
  | Some raw =>
      match json_loads raw with
      | None => false
      | Some api_response =>
          match error_message_of api_response with
          | inl _ => false
          | inr message =>
              match py_in "it is disabled" message with
              | inl _ => false
              | inr b => b
              end
          end
      end
  end.

End Classifiers.

(** *** The steps of the pipeline *)

Definition create_project : Prog unit :=
  log INFO "Creating project..." [] ;;
  TimeMs (fun ms =>
  Now (fun stamp =>
    let project_id := Str.lower TOOL_NAME ++ "-" ++ Str.of_Z ms in
    let project_name := TOOL_NAME ++ "-" ++ stamp in
    retryable_command
      ("gcloud projects create " ++ project_id ++ " --name " ++ project_name
       ++ " --set-as-default") default_policy ;;
    log INFO ("%s successfully created " ++ Str.check) [VStr project_id])).

Definition enable_api (api : string) : Prog unit :=
  retryable_command (enable_command api) default_policy ;; Ret tt.

(** [map(enable_api, APIS[1:])], each coroutine wrapped in a task. *)
Definition enable_api_calls : list Task :=
  map (fun api => Ready (enable_api api)) (tl APIS).

Definition apis_enabled_log : Event :=
  EvAct (Log INFO ("APIs successfully enabled " ++ Str.check) []).

Definition enable_apis (sched : list nat) : Run unit :=
  then_run (run (log INFO "Enabling APIs..." [])) (fun _ =>
  then_run (gather sched enable_api_calls) (fun _ =>
  run (log INFO ("APIs successfully enabled " ++ Str.check) []))).

Definition service_account_name : string :=
  Str.lower TOOL_NAME ++ "-service-account".

Definition create_service_account_command : string :=
  "gcloud iam service-accounts create " ++ service_account_name
  ++ " --display-name " ++ Str.dq ++ TOOL_NAME ++ " Service Account" ++ Str.dq.

Definition create_service_account : Prog unit :=
  log INFO "Creating service account..." [] ;;
  retryable_command create_service_account_command default_policy ;;
  log INFO ("%s successfully created " ++ Str.check) [VStr service_account_name].

(** [KEY_FILE], from the home directory and the time of import. *)
Definition key_file_path (home stamp : string) : string :=
  home ++ "/" ++ Str.lower TOOL_NAME ++ "-service-account-key-" ++ stamp
  ++ ".json".

Definition welcome : string :=
  "Welcome! This script will create and authorize the resources that are "
  ++ "necessary to use " ++ TOOL_NAME_FRIENDLY
  ++ ". The following steps will be "
  ++ "performed on your behalf:" ++ Str.nl ++ Str.nl
  ++ "1. Create a Google Cloud Platform project" ++ Str.nl
  ++ "2. Enable APIs" ++ Str.nl ++ "3. Create a service account" ++ Str.nl
  ++ "4. Authorize the service "
  ++ "account" ++ Str.nl ++ "5. Create a service account key"
  ++ Str.nl ++ Str.nl.

Definition persist_url : string :=
  "https://us-central1-test-driveaudit-development.cloudfunctions.net/function-2".

Section Pipeline.

Variable KEY_FILE : string.

Definition create_key_command (service_account_email : string) : string :=
  "gcloud iam service-accounts keys create " ++ KEY_FILE
  ++ " --iam-account=" ++ service_account_email.

Definition create_service_account_key : Prog unit :=
  log INFO "Creating service acount key..." [] ;;
  service_account_email <- get_service_account_email ;;
  retryable_command (create_key_command service_account_email)
                    default_policy ;;
  log INFO ("Service account key successfully created " ++ Str.check) [].

(** The dictionary that line 159 hands to [json.dumps]. *)
Definition persist_payload (file_data : JSON) (file_name : string) : JSON :=
  JObj [ ("file_data", file_data);
         ("file_name", JStr file_name);
         ("bucket_name", JStr "test-driveaudit-development-creds") ].

Definition download_service_account_key : Prog Z :=
  admin_user_email <- get_admin_user_email ;;
  match Str.split_on "@" admin_user_email with
  | _ :: domain :: _ =>
      let file_name := domain ++ "-service-account-key" in
      LoadKey KEY_FILE (fun file_data =>
      print [VJson file_data] ;;
      let data := VDumps (persist_payload file_data file_name) in
      print [] ;;
      print [data] ;;
      Post persist_url data Ret)
  | _ => raise IndexError
  end.

Definition shred_command : string := "shred -u " ++ KEY_FILE.

Definition delete_key : Prog unit :=
  retryable_command shred_command default_policy ;; Ret tt.

(** [main]: the steps in order; what a step returns is not looked at.
    ([init_logger] only installs the log handlers and leaves no event.)
    [fuel] bounds the terms-of-service loop and [sched] is the schedule
    under which the API calls are gathered. *)
Definition main (fuel : nat) (sched : list nat) : Run unit :=
  then_run (run (Act (System "clear") (print [VStr welcome]))) (fun _ =>
  then_run (run create_project) (fun _ =>
  then_run (run (verify_tos_accepted fuel)) (fun _ =>
  then_run (enable_apis sched) (fun _ =>
  then_run (run create_service_account) (fun _ =>
  then_run (run authorize_service_account) (fun _ =>
  then_run (run create_service_account_key) (fun _ =>
  then_run (run download_service_account_key) (fun _ =>
  then_run (run delete_key) (fun _ =>
  run (log INFO ("Done! " ++ Str.check) [])))))))))).

End Pipeline.

(** *** What the trace of the loop looks like *)

(** Everything one pass logs and does before it decides. *)
Definition attempt_events (command : string) (pid : nat) (num_tries : Z)
           (r : CommandResult) : list Event :=
  [ EvAct (Log DEBUG exec_fmt [VInt num_tries; VStr command]);
    EvSpawn pid command;
    EvWait pid command r;
    EvAct (Log DEBUG "stdout: %s" [VStr (stdout r)]);
    EvAct (Log DEBUG "stderr: %s" [VStr (stderr r)]);
    EvAct (Log DEBUG "Return code: %d" [VInt (return_code r)]) ].

(** [m] passes that each end in a sleep, from process [pid] and attempt
    number [num_tries] on. *)
Fixpoint retried_attempts (w : World) (command : string) (delay : Z)
         (pid : nat) (num_tries : Z) (m : nat) : list Event :=
  match m with
  | O => []
  | S m' =>
      attempt_events command pid num_tries (shell_out w pid command)
      ++ [EvAct (Sleep delay)]
      ++ retried_attempts w command delay (S pid) (num_tries + 1) m'
  end.

(** The state after a pass that started process [procs s]. *)
Definition after_pass (s : State) (evs : list Event) : State :=
  {| procs := S (procs s); prompts := prompts s; trace := trace s ++ evs |}.

(** Attempt [i + 1] of a call started in state [s] is reached when it is
    within the budget and every earlier attempt was decoded and did not
    succeed. *)
Definition reached (command : string) (pol : RetryPolicy) (w : World)
           (s : State) (i : nat) : Prop :=
  Z.of_nat i < max_num_retries pol /\
  forall j, (j < i)%nat ->
    decodable (attempt_result w s command j) = true /\
    verdict pol (Z.of_nat j + 1) (attempt_result w s command j) <> Success.

(** How every pass begins: the attempt is announced, the process is
    started and its end is awaited (lines 262-268). *)
Definition launch_events (command : string) (pid : nat) (num_tries : Z)
           (r : CommandResult) : list Event :=
  [ EvAct (Log DEBUG exec_fmt [VInt num_tries; VStr command]);
    EvSpawn pid command;
    EvWait pid command r ].

(** What a pass leaves in the trace when the output cannot be decoded:
    line 270 or line 271 raises. *)
Definition garbled_events (command : string) (pid : nat) (num_tries : Z)
           (r : CommandResult) : list Event :=
  launch_events command pid num_tries r
  ++ (if Utf8.valid (stdout r)
      then [EvAct (Log DEBUG "stdout: %s" [VStr (stdout r)])]
      else []).

(** The state in which attempt [i + 1] starts, after [i] retried passes. *)
Definition before_attempt (command : string) (pol : RetryPolicy) (w : World)
           (s : State) (i : nat) : State :=
  {| procs := procs s + i; prompts := prompts s;
     trace := trace s ++ retried_attempts w command (retry_delay pol)
                                          (procs s) 1 i |}.

Definition critical_log (r : CommandResult) : Event :=
  EvAct (Log CRITICAL "Failed to execute command: `%s`" [VStr (stderr r)]).

(** The spec's success condition, in its own words. *)
Definition success_condition (pol : RetryPolicy) (r : CommandResult) : Prop :=
  return_code r = 0 /\ (require_output pol = false \/ stdout r <> EmptyString).

(** The probe command and what the world answers to the probe started in
    state [s]. *)
Definition probe_command : string := enable_command (hd EmptyString APIS).

Definition probe_result (w : World) (s : State) : CommandResult :=
  shell_out w (procs s) probe_command.

(** The probe fails, its output can be decoded and its stderr carries
    the terms-of-service marker: the operator is prompted. *)
Definition tos_blocked (w : World) (s : State) : Prop :=
  decodable (probe_result w s) = true /\
  return_code (probe_result w s) <> 0 /\
  Str.contains tos_marker (stderr (probe_result w s)) = true.

(** The state reached when the operator has answered the prompt of a
    blocked probe. *)
Definition after_prompt (w : World) (s : State) : State :=
  let t := probe_result w s in
  let s1 := after_pass s (attempt_events probe_command (procs s) 1 t) in
  let s2 := snd (run (tos_notice (stderr t)) w s1) in
  {| procs := procs s2; prompts := S (prompts s2);
     trace := trace s2 ++ [EvInput tos_prompt (operator w (prompts s))] |}.

(** The first [n] probes from [s] on are all blocked and the operator
    never answers with an n. *)
Fixpoint blocked_cycles (w : World) (s : State) (n : nat) : Prop :=
  match n with
  | O => True
  | S n' =>
      tos_blocked w s /\
      Str.lower (operator w (prompts s)) <> "n" /\
      blocked_cycles w (after_prompt w s) n'
  end.

(** The state after [n] blocked cycles. *)
Fixpoint after_cycles (w : World) (s : State) (n : nat) : State :=
  match n with
  | O => s
  | S n' => after_cycles w (after_prompt w s) n'
  end.

(** The events a call of [retryable_command] for [c] can produce, with
    attempt numbers from [lo] on. *)
Inductive RetryEvent (c : string) (pol : RetryPolicy) (lo : Z)
  : Event -> Prop :=
| RE_exec n : lo <= n ->
    RetryEvent c pol lo (EvAct (Log DEBUG exec_fmt [VInt n; VStr c]))
| RE_spawn pid : RetryEvent c pol lo (EvSpawn pid c)
| RE_wait pid r : RetryEvent c pol lo (EvWait pid c r)
| RE_stdout r :
    RetryEvent c pol lo (EvAct (Log DEBUG "stdout: %s" [VStr (stdout r)]))
| RE_stderr r :
    RetryEvent c pol lo (EvAct (Log DEBUG "stderr: %s" [VStr (stderr r)]))
| RE_code r :
    RetryEvent c pol lo
               (EvAct (Log DEBUG "Return code: %d" [VInt (return_code r)]))
| RE_sleep : RetryEvent c pol lo (EvAct (Sleep (retry_delay pol)))
| RE_critical r : RetryEvent c pol lo (critical_log r).

(** The events the gathered API calls can produce. *)
Definition EnableEvent (e : Event) : Prop :=
  exists api, In api (tl APIS)
              /\ RetryEvent (enable_command api) default_policy 1 e.

(** *** Observing the key's life in a trace *)

Definition count (f : Event -> bool) (tr : list Event) : nat :=
  List.length (filter f tr).

(** The first attempt of the shred command is announced: [delete_key] has
    been entered. *)
Definition destroy_started (KEY_FILE : string) (e : Event) : bool :=
  match e with
  | EvAct (Log DEBUG fmt [VInt n; VStr c]) =>
      (n =? 1) && String.eqb fmt exec_fmt
      && String.eqb c (shred_command KEY_FILE)
  | _ => false
  end.

(** A shred process is started on the key file. *)
Definition shred_spawned (KEY_FILE : string) (e : Event) : bool :=
  match e with
  | EvSpawn _ c => String.eqb c (shred_command KEY_FILE)
  | _ => false
  end.

(** The sink answered the POST: [download_service_account_key] returns. *)
Definition persisted (e : Event) : bool :=
  match e with
  | EvPost _ _ (inr _) => true
  | _ => false
  end.

(** The key-creation command for the key file ended with status zero: the
    key is staged on disk. *)
Definition key_staged (KEY_FILE : string) (e : Event) : bool :=
  match e with
  | EvWait _ c r =>
      Str.is_prefix ("gcloud iam service-accounts keys create " ++ KEY_FILE
                     ++ " ") c
      && (return_code r =? 0)
  | _ => false
  end.

(** Events that neither enter [delete_key], nor start shred, nor are an
    answer of the sink. *)
Definition Calm (KEY_FILE : string) (e : Event) : Prop :=
  destroy_started KEY_FILE e = false
  /\ shred_spawned KEY_FILE e = false
  /\ persisted e = false.

(** Whatever happens, the run only adds calm events. *)
Definition CalmRun (KEY_FILE : string) {A : Type} (m : Run A) : Prop :=
  forall w s, exists evs,
    trace (snd (m w s)) = (trace s ++ evs)%list /\ Forall (Calm KEY_FILE) evs.

(** The run enters [delete_key] once if the sink answered and not at all
    otherwise, in which case shred is never started either; the entry, if
    any, comes after the answer. *)
Definition Settled (KEY_FILE : string) {A : Type} (m : Run A) : Prop :=
  forall w s, exists evs,
    trace (snd (m w s)) = (trace s ++ evs)%list
    /\ count (destroy_started KEY_FILE) evs
       = (if existsb persisted evs then 1 else 0)%nat
    /\ existsb (shred_spawned KEY_FILE) evs = existsb persisted evs
    /\ forall pre e post,
         evs = (pre ++ e :: post)%list -> destroy_started KEY_FILE e = true ->
         existsb persisted pre = true.

(** *** The four getters and their commands *)

Definition getters : list (Prog string * string) :=
  [ (get_project_id, "gcloud config get-value project");
    (get_service_account_id,
     "gcloud iam service-accounts list --format=" ++ Str.dq
     ++ "value(uniqueId)" ++ Str.dq);
    (get_service_account_email,
     "gcloud iam service-accounts list --format=" ++ Str.dq
     ++ "value(email)" ++ Str.dq);
    (get_admin_user_email,
     "gcloud auth list --format=" ++ Str.dq ++ "value(account)" ++ Str.dq) ].

(** An attempt that a call with [require_output] decodes and does not
    accept. *)
Definition no_output (r : CommandResult) : Prop :=
  decodable r = true /\ (return_code r <> 0 \/ stdout r = EmptyString).

(** *** The project identifier *)

Definition project_id_of (ms : Z) : string :=
  Str.lower TOOL_NAME ++ "-" ++ Str.of_Z ms.

Definition create_project_command (ms : Z) (stamp : string) : string :=
  "gcloud projects create " ++ project_id_of ms ++ " --name "
  ++ (TOOL_NAME ++ "-" ++ stamp) ++ " --set-as-default".

Definition lower_letter (c : ascii) : bool :=
  Url.in_range 97 122 (nat_of_ascii c).

(** What the comment on lines 32-33 allows in a project ID. *)
Definition project_id_char (c : ascii) : bool :=
  lower_letter c || Url.in_range 48 57 (nat_of_ascii c)
  || Nat.eqb (nat_of_ascii c) 45.

(** Some command that satisfies [Q] has ended with status zero. *)
Definition succeeded_some (Q : string -> Prop) (tr : list Event) : Prop :=
  exists pid c r, In (EvWait pid c r) tr /\ Q c /\ return_code r = 0.

(** The program cannot return without a command that satisfies [Q] having
    ended with status zero on the way. *)
Fixpoint EnsuresSome {A : Type} (Q : string -> Prop) (p : Prog A) : Prop :=
  match p with
  | Ret _ => False
  | Stop _ => True
  | Act _ k => EnsuresSome Q k
  | Shell c k => forall r, (Q c /\ return_code r = 0) \/ EnsuresSome Q (k r)
  | Input _ k => forall a, EnsuresSome Q (k a)
  | TimeMs k => forall t, EnsuresSome Q (k t)
  | Now k => forall t, EnsuresSome Q (k t)
  | LoadKey _ k => forall d, EnsuresSome Q (k d)
  | Post _ _ k => forall st, EnsuresSome Q (k st)
  end.

(** The shape shared by [enable_api] and [delete_key]: run the command
    under the default policy and drop what it returns. *)
Definition default_step (c : string) : Prog unit :=
  retryable_command c default_policy ;; Ret tt.

(** The program returns, with a value that satisfies [R], whenever each
    command [c] it runs gives a result [r] with [ok c r] (and the key file
    can be read and the sink answers). *)
Fixpoint Returns {A : Type} (ok : string -> CommandResult -> Prop)
         (R : A -> Prop) (p : Prog A) : Prop :=
  match p with
  | Ret a => R a
  | Stop _ => False
  | Act _ k => Returns ok R k
  | Shell c k => forall r, ok c r -> Returns ok R (k r)
  | Input _ k => forall a, Returns ok R (k a)
  | TimeMs k => forall t, Returns ok R (k t)
  | Now k => forall t, Returns ok R (k t)
  | LoadKey _ k => forall d, Returns ok R (k d)
  | Post _ _ k => forall st, Returns ok R (k st)
  end.

Definition TaskReturns (ok : string -> CommandResult -> Prop) (t : Task)
  : Prop :=
  match t with
  | Ready p => Returns ok (fun _ => True) p
  | Waiting _ c k => forall r, ok c r -> Returns ok (fun _ => True) (k r)
  end.

Definition admin_command : string :=
  "gcloud auth list --format=" ++ Str.dq ++ "value(account)" ++ Str.dq.

(** A result the pipeline accepts for the command: both streams can be
    decoded; status zero; some output where the caller asks for it with
    [require_output]; and for the administrator's address an output with an
    at sign in it. *)
Definition accepted (c : string) (r : CommandResult) : Prop :=
  decodable r = true
  /\ return_code r = 0
  /\ (In c (map snd getters) -> Str.nonempty (stdout r) = true)
  /\ (c = admin_command ->
      exists name domain rest,
        Str.split_on "@" (Str.rstrip (stdout r)) = name :: domain :: rest).

(** A world in which nothing goes wrong: every command is accepted, the
    key file can be read and parsed, and the sink answers. *)
Definition Obliging (w : World) : Prop :=
  (forall pid c, accepted c (shell_out w pid c))
  /\ (forall path, exists d, key_file w path = inr d)
  /\ (forall url payload, exists st, http_post w url payload = inr st).

End Trial.

(** ** new.py *)

Module New.

Definition SCOPES : list string :=
  [ "openid";
    "https://www.googleapis.com/auth/cloud-platform";
    "https://www.googleapis.com/auth/ndev.cloudman";
    "https://www.googleapis.com/auth/userinfo.profile";
    "https://www.googleapis.com/auth/userinfo.email";
    "https://www.googleapis.com/auth/admin.directory.orgunit.readonly";
    "https://www.googleapis.com/auth/admin.directory.user.readonly";
    "https://www.googleapis.com/auth/admin.directory.group.readonly";
    "https://www.googleapis.com/auth/gmail.settings.basic";
    "https://www.googleapis.com/auth/gmail.settings.sharing";
    "https://www.googleapis.com/auth/directory.readonly";
    "https://www.googleapis.com/auth/drive.readonly";
    "https://www.googleapis.com/auth/drive";
    "https://www.googleapis.com/auth/admin.directory.domain.readonly";
    "https://www.googleapis.com/auth/admin.directory.user";
    "https://www.googleapis.com/auth/admin.directory.group";
    "https://www.googleapis.com/auth/admin.datatransfer";
    "https://mail.google.com/";
    "https://www.googleapis.com/auth/admin.reports.audit.readonly";
    "https://www.googleapis.com/auth/calendar";
    "https://www.googleapis.com/auth/ediscovery";
    "https://www.googleapis.com/auth/devstorage.full_control";
    "https://www.googleapis.com/auth/admin.reports.usage.readonly" ].

Definition create_auth_url (service_account_unique_id : string) : string :=
  Trial.DWD_URL_FORMAT service_account_unique_id
                       (Trial.scope_parameter SCOPES).

(** The IAM client built by [discovery.build('iam', 'v1')]: what
    [serviceAccounts().create(...).execute()] and
    [serviceAccounts().get(...).execute()] answer. *)
Record IamService : Type := mkIam {
  sa_create : string -> string -> Exn + JSON;   (* name, accountId *)
  sa_get : string -> Exn + JSON                 (* name *)
}.

Definition service_account_name : string := "test-create-service-account".

Definition account_resource (project_id : string) : string :=
  "projects/" ++ project_id ++ "/serviceAccounts/" ++ service_account_name
  ++ "@" ++ project_id ++ ".iam.gserviceaccount.com".

(** The [try] / [except HttpError] of lines 212-226. *)
Definition create_or_get (service : IamService) (project_id : string)
  : Exn + JSON :=
  match sa_create service ("projects/" ++ project_id) service_account_name with
  | inr account => inr account
  | inl HttpError => sa_get service (account_resource project_id)
  | inl e => inl e
  end.

(** The dictionary built on lines 228-233. *)
Definition identity_of (my_service_account : JSON) : Exn + JSON :=
  match Trial.getitem my_service_account "email" with
  | inl e => inl e
  | inr email =>
  match Trial.getitem my_service_account "name" with
  | inl e => inl e
  | inr name =>
  match Trial.getitem my_service_account "uniqueId" with
  | inl e => inl e
  | inr unique_id =>
  match Trial.getitem my_service_account "projectId" with
  | inl e => inl e
  | inr project_id =>
      inr (JObj [ ("email", email); ("name", name);
                  ("unique_id", unique_id); ("project_id", project_id) ])
  end end end end.

(** [create_service_account] once [discovery.build] on line 210 has
    returned [service]: what is printed, and what is returned or raised. *)
Definition create_service_account (service : IamService) (project_id : string)
  : list (list PyVal) * (Exn + JSON) :=
  let started := [[VStr "Creating service account..."]] in
  match create_or_get service project_id with
  | inl e => (started, inl e)
  | inr my_service_account =>
      match identity_of my_service_account with
      | inl e => (started, inl e)
      | inr service_account =>
          ((started
            ++ [[VStr ("Service Account created " ++ Str.check)];
                [VStr "service Account details"; VJson service_account]])%list,
           inr service_account)
      end
  end.

(** *** The rest of the pipeline of new.py *)

Definition APIS : list string :=
  [ "admin.googleapis.com";
    "contacts.googleapis.com";
    "drive.googleapis.com";
    "gmail.googleapis.com";
    "serviceusage.googleapis.com";
    "iam.googleapis.com" ].

Definition TOOL_NAME : string := "pawait-drive-audit".

(** What the Google libraries answer.  Each client is built outside the
    [try] of its function and building it can raise (no credentials, for
    one); a call and the wait for its operation are two more places that
    can raise. *)
Record Cloud : Type := mkCloud {
  projects_client : option Exn;            (* lines 139-142: what they raise *)
  project_create : string -> Exn + unit;   (* client.create_project(request) *)
  project_result : string -> Exn + JSON;   (* operation.result() *)
  project_get : string -> Exn + JSON;      (* client.get_project(name=...) *)
  usage_client : option Exn;               (* line 183: what it raises *)
  service_enable : string -> Exn + unit;   (* client.enable_service(request) *)
  service_result : string -> Exn + unit;   (* operation.result() *)
  iam : Exn + IamService                   (* discovery.build('iam', 'v1') *)
}.

(** An argument of [print]: a value, an exception or its [args]. *)
Inductive Shown : Type :=
| SVal (v : PyVal)
| SExn (e : Exn)
| SArgs (e : Exn).

(** What the script does that can be seen from outside. *)
Inductive Step : Type :=
| Printed (args : list Shown)
| Called (operation name : string)
| LoggedError (message : string).

Definition say (text : string) : Step := Printed [SVal (VStr text)].

Definition waiting : Step := say "Waiting for operation to complete...".

(** The [try] block of [create_project], lines 143-148. *)
Definition request_project (cloud : Cloud) (project_details : string)
  : list Step * (Exn + JSON) :=
  match project_create cloud project_details with
  | inl e => ([Called "create_project" project_details], inl e)
  | inr _ =>
      match project_result cloud project_details with
      | inl e =>
          ([Called "create_project" project_details; waiting;
            Called "result" project_details], inl e)
      | inr response =>
          ([Called "create_project" project_details; waiting;
            Called "result" project_details;
            Printed [SVal (VJson response)]], inr response)
      end
  end.

Definition create_project (cloud : Cloud) (project_details : string)
  : list Step * (Exn + string) :=
  let head := [say "getting the organization"; say "Creating project..."] in
  let tail := [Printed [SVal (VStr ("%s successfully created " ++ Str.check));
                        SVal (VStr project_details)]] in
  match projects_client cloud with
  | Some e => (head, inl e)
  | None =>
      match request_project cloud project_details with
      | (steps, inr _) => ((head ++ steps ++ tail)%list, inr "response")
      | (steps, inl e) =>
          let name := "projects/" ++ project_details in
          let fetch := [Printed [SArgs e]; Called "get_project" name] in
          match project_get cloud name with
          | inl e' => ((head ++ steps ++ fetch)%list, inl e')
          | inr _ => ((head ++ steps ++ fetch ++ tail)%list, inr "response")
          end
      end
  end.

Definition service_name (project_id api : string) : string :=
  "projects/" ++ project_id ++ "/services/" ++ api.

(** The [for] loop of [enable_apis] inside its [try]: the steps taken and
    the exception that ended it, if any. *)
Fixpoint enable_each (cloud : Cloud) (project_id : string)
         (apis : list string) : list Step * option Exn :=
  match apis with
  | [] => ([], None)
  | api :: rest =>
      let name := service_name project_id api in
      match service_enable cloud name with
      | inl e => ([Called "enable_service" name], Some e)
      | inr _ =>
          match service_result cloud name with
          | inl e =>
              ([Called "enable_service" name; waiting; Called "result" name],
               Some e)
          | inr _ =>
              let (steps, r) := enable_each cloud project_id rest in
              (Called "enable_service" name :: waiting
               :: Called "result" name :: steps, r)
          end
      end
  end.

(** [enable_apis] for a list of APIs: the client is built before the
    [try], so what building it raises is raised by the function; what the
    loop raises is printed. *)
Definition enable_apis_for (apis : list string) (cloud : Cloud)
           (project_id : string) : list Step * (Exn + string) :=
  match usage_client cloud with
  | Some e => ([say "Enabling APIs..."], inl e)
  | None =>
      let (steps, r) := enable_each cloud project_id apis in
      (([say "Enabling APIs..."] ++ steps
        ++ match r with
           | Some e => [Printed [SExn e]]
           | None => []
           end
        ++ [say ("APIs enabled " ++ Str.check)])%list,
       inr "True")
  end.

(** [enable_apis], on [configs["APIS"]]. *)
Definition enable_apis : Cloud -> string -> list Step * (Exn + string) :=
  enable_apis_for APIS.

(** The names [enable_service] was called with. *)
Fixpoint enabled_names (steps : list Step) : list string :=
  match steps with
  | [] => []
  | Called op name :: rest =>
      if String.eqb op "enable_service" then name :: enabled_names rest
      else enabled_names rest
  | _ :: rest => enabled_names rest
  end.

(** The request for the API and the wait for it both return. *)
Definition answers (cloud : Cloud) (project_id api : string) : Prop :=
  (exists u, service_enable cloud (service_name project_id api) = inr u)
  /\ exists u, service_result cloud (service_name project_id api) = inr u.

(** The API is enabled without an exception: the client is there and the
    request and the wait return. *)
Definition enables (cloud : Cloud) (project_id api : string) : Prop :=
  usage_client cloud = None /\ answers cloud project_id api.

(** The whole of [create_service_account], line 210 included. *)
Definition create_service_account_call (cloud : Cloud) (project_id : string)
  : list (list PyVal) * (Exn + JSON) :=
  match iam cloud with
  | inl e => ([[VStr "Creating service account..."]], inl e)
  | inr service => create_service_account service project_id
  end.

(** [str.format] of one value; [other] renders floats, lists and
    dictionaries. *)
Definition py_format (other : JSON -> string) (v : JSON) : string :=
  match v with
  | JStr s => s
  | JNum n => Str.of_Z n
  | JBool true => "True"
  | JBool false => "False"
  | JNull => "None"
  | _ => other v
  end.

Definition failure (e : Exn) : list Step :=
  [ Printed [SVal (VStr "Error"); SExn e];
    LoggedError ("Error occurred while creating the project "
                 ++ String (ascii_of_nat 226)
                      (String (ascii_of_nat 157)
                         (String (ascii_of_nat 140) EmptyString))) ].

Definition shown (lines : list (list PyVal)) : list Step :=
  map (fun args => Printed (map SVal args)) lines.

(** [main]: the steps taken and the string returned.  The names built
    from [domain] on lines 281-288 are not used. *)
Definition main (other : JSON -> string) (cloud : Cloud) (domain : string)
  : list Step * string :=
  let project_details := Str.lower TOOL_NAME in
  match create_project cloud project_details with
  | (s1, inl e) => ((s1 ++ failure e)%list, "False")
  | (s1, inr _) =>
      match enable_apis cloud project_details with
      | (s2, inl e) => ((s1 ++ s2 ++ failure e)%list, "False")
      | (s2, inr _) =>
          match create_service_account_call cloud project_details with
          | (p3, inl e) => ((s1 ++ s2 ++ shown p3 ++ failure e)%list, "False")
          | (p3, inr service_account) =>
              match Trial.getitem service_account "unique_id" with
              | inl e => ((s1 ++ s2 ++ shown p3 ++ failure e)%list, "False")
              | inr unique_id =>
                  ((s1 ++ s2 ++ shown p3
                    ++ [say ("Service account key file created "
                             ++ Str.check)])%list,
                   create_auth_url (py_format other unique_id))
              end
          end
      end
  end.

End New.

(** ** Sample worlds and inputs *)

Module Samples.

Definition failing_result : CommandResult :=
  {| stdout := EmptyString; stderr := "boom"; return_code := 2 |}.

Definition ok_result : CommandResult :=
  {| stdout := "ok"; stderr := EmptyString; return_code := 0 |}.

Definition world_of (sh : nat -> string -> CommandResult)
           (op : nat -> string) : World :=
  {| shell_out := sh; operator := op;
     clock_ms := 1700000000000; clock_str := "2023-11-14-22-13-20";
     key_file := fun _ => inr (JObj []);
     http_post := fun _ _ => inr 200 |}.

(** Every command fails with status 2; the operator just presses Enter. *)
Definition all_fail : World :=
  world_of (fun _ _ => failing_result) (fun _ => EmptyString).

(** Every command fails with status 2 and prints the byte 0xFF, which is
    not UTF-8, on stderr. *)
Definition garbled_result : CommandResult :=
  {| stdout := EmptyString; stderr := String (ascii_of_nat 255) EmptyString;
     return_code := 2 |}.

Definition garbled : World :=
  world_of (fun _ _ => garbled_result) (fun _ => EmptyString).

(** Every probe is blocked on the terms of service. *)
Definition blocked_result : CommandResult :=
  {| stdout := EmptyString;
     stderr := "ERROR: UREQ_TOS_NOT_ACCEPTED (universal)";
     return_code := 1 |}.

Definition always_blocked (answer : string) : World :=
  world_of (fun _ _ => blocked_result) (fun _ => answer).

(** Every command succeeds with some output. *)
Definition all_ok : World :=
  world_of (fun _ _ => ok_result) (fun _ => EmptyString).

Definition no_budget : RetryPolicy :=
  {| max_num_retries := 0; retry_delay := 5;
     suppress_errors := true; require_output := false |}.

(** A response whose reason is none of the three terms of line 240. *)
Definition rate_limited : JSON :=
  JObj [("error",
         JObj [("errors", JArr [JObj [("reason", JStr "rateLimitExceeded")]]);
               ("message", JStr "Rate limit exceeded")])].

(** An account as [serviceAccounts().get] returns it. *)
Definition existing_account : JSON :=
  JObj [ ("name", JStr "projects/p/serviceAccounts/sa@p.iam.gserviceaccount.com");
         ("projectId", JStr "p");
         ("uniqueId", JStr "104");
         ("email", JStr "sa@p.iam.gserviceaccount.com") ].

Definition iam_with_account : New.IamService :=
  {| New.sa_create := fun _ _ => inl HttpError;
     New.sa_get := fun _ => inr existing_account |}.

(** Everything up to the key file works; the sink cannot be reached. *)
Definition mail_result : CommandResult :=
  {| stdout := "admin@example.com" ++ Str.nl; stderr := EmptyString;
     return_code := 0 |}.

Definition sink_down : World :=
  {| shell_out := fun _ _ => mail_result;
     operator := fun _ => EmptyString;
     clock_ms := 1700000000000; clock_str := "2023-11-14-22-13-20";
     key_file := fun _ => inr (JObj []);
     http_post := fun _ _ => inl ConnectionError |}.

Definition all_well : World :=
  {| shell_out := fun _ _ => mail_result;
     operator := fun _ => EmptyString;
     clock_ms := 1700000000000; clock_str := "2023-11-14-22-13-20";
     key_file := fun _ => inr (JObj []);
     http_post := fun _ _ => inr 500 |}.

Definition sample_key_file : string :=
  Trial.key_file_path "/home/op" "2023-11-14-22-13-19".

(** Every command prints [my-project], a no-break space (U+00A0) and a
    newline, and ends with status 0. *)
Definition padded_result : CommandResult :=
  {| stdout := "my-project"
               ++ String (ascii_of_nat 194) (String (ascii_of_nat 160) Str.nl);
     stderr := EmptyString; return_code := 0 |}.

Definition padded : World :=
  world_of (fun _ _ => padded_result) (fun _ => EmptyString).

(** Every command ends with status 0 and prints nothing. *)
Definition silent_result : CommandResult :=
  {| stdout := EmptyString; stderr := EmptyString; return_code := 0 |}.

Definition silent : World :=
  world_of (fun _ _ => silent_result) (fun _ => EmptyString).

(** The first probe is blocked on the terms of service, every later
    command succeeds. *)
Definition blocked_once : World :=
  world_of (fun pid _ => if Nat.eqb pid 0 then blocked_result else ok_result)
           (fun _ => EmptyString).

(** The project exists already, the third API cannot be enabled, and the
    service account exists already. *)
Definition second_run : New.Cloud :=
  {| New.projects_client := None;
     New.project_create := fun _ => inl HttpError;
     New.project_result := fun _ => inr JNull;
     New.project_get := fun _ => inr JNull;
     New.usage_client := None;
     New.service_enable := fun _ => inr tt;
     New.service_result :=
       fun name =>
         if String.eqb name
              (New.service_name "pawait-drive-audit" "drive.googleapis.com")
         then inl HttpError else inr tt;
     New.iam := inr iam_with_account |}.

End Samples.

(** * Facts *)

Import Trial.
Local Open Scope list_scope.

(** ** The interpreter *)

Lemma run_bind {A B : Type} (p : Prog A) (f : A -> Prog B) w s :
  run (bind p f) w s =
  match run p w s with
  | (Done a, s') => run (f a) w s'
  | (Stopped h, s') => (Stopped h, s')
  end.
Proof.
  revert s. induction p; intros s; simpl; auto.
  - destruct (key_file w path); auto.
  - destruct (http_post w url payload); auto.
Qed.

Lemma spawns_app (t1 t2 : list Event) :
  spawns (t1 ++ t2) = (spawns t1 + spawns t2)%nat.
Proof.
  induction t1 as [|e t1 IH]; simpl; auto.
  destruct e; simpl; auto.
Qed.

Lemma run_trace_extends {A : Type} (p : Prog A) w : forall s,
  exists rest, trace (snd (run p w s)) = trace s ++ rest.
Proof.
  induction p as [a|h|a k IH|c k IH|q k IH|k IH|k IH|path k IH|url payload k IH];
    intros s; simpl;
    try (exists []; rewrite app_nil_r; reflexivity);
    try apply IH;
    try match goal with
        | |- context [run (k ?r) w ?s'] =>
            destruct (IH r s') as [rest E]; rewrite E;
            simpl; rewrite <- app_assoc; eauto
        end.
  - destruct (IH (emit s [EvAct a])) as [rest E]. rewrite E. simpl.
    rewrite <- app_assoc. eauto.
  - destruct (key_file w path) as [e|d]; simpl; [eauto|].
    destruct (IH d (emit s [EvLoadKey path (inr d)])) as [rest E]. rewrite E.
    simpl. rewrite <- app_assoc. eauto.
  - destruct (http_post w url payload) as [e|st]; simpl; [eauto|].
    destruct (IH st (emit s [EvPost url payload (inr st)])) as [rest E].
    rewrite E. simpl. rewrite <- app_assoc. eauto.
Qed.

Lemma bind_trace_prefix {A B : Type} (p : Prog A) (f : A -> Prog B) w s evs :
  (exists rest, trace (snd (run p w s)) = trace s ++ evs ++ rest) ->
  exists rest, trace (snd (run (bind p f) w s)) = trace s ++ evs ++ rest.
Proof.
  intros [rest E]. rewrite run_bind.
  destruct (run p w s) as [[a|h] s1]; simpl snd in *; [|eauto].
  destruct (run_trace_extends (f a) w s1) as [rest' E']. rewrite E', E.
  rewrite <- !app_assoc. eauto.
Qed.

(** ** Decoding *)

Lemma decoded_valid {A : Type} (b : string) (k : string -> Prog A) :
  Utf8.valid b = true -> decoded b k = k b.
Proof. intros H. unfold decoded, decode. rewrite H. reflexivity. Qed.

Lemma decoded_invalid {A : Type} (b : string) (k : string -> Prog A) :
  Utf8.valid b = false -> decoded b k = raise UnicodeDecodeError.
Proof. intros H. unfold decoded, decode. rewrite H. reflexivity. Qed.

Lemma decodable_streams (r : CommandResult) :
  decodable r = true ->
  Utf8.valid (stdout r) = true /\ Utf8.valid (stderr r) = true.
Proof. apply andb_prop. Qed.

Lemma bind_decoded {A B : Type} (b : string) (k : string -> Prog A)
      (f : A -> Prog B) :
  bind (decoded b k) f = decoded b (fun text => bind (k text) f).
Proof. unfold decoded. destruct (decode b); reflexivity. Qed.

Lemma Emits_decoded {A : Type} (P : Event -> Prop) (b : string)
      (k : string -> Prog A) :
  Emits P (k b) -> Emits P (decoded b k).
Proof.
  unfold decoded, decode. destruct (Utf8.valid b); simpl; auto.
Qed.

Lemma Ensures_decoded (c b : string) (k : string -> Prog unit) :
  Ensures c (k b) -> Ensures c (decoded b k).
Proof.
  unfold decoded, decode. destruct (Utf8.valid b); simpl; auto.
Qed.

Lemma EnsuresSome_decoded {A : Type} (Q : string -> Prop) (b : string)
      (k : string -> Prog A) :
  EnsuresSome Q (k b) -> EnsuresSome Q (decoded b k).
Proof.
  unfold decoded, decode. destruct (Utf8.valid b); simpl; auto.
Qed.

Lemma Returns_decoded {A : Type} ok (R : A -> Prop) (b : string)
      (k : string -> Prog A) :
  Utf8.valid b = true -> Returns ok R (k b) -> Returns ok R (decoded b k).
Proof.
  intros H. rewrite (@decoded_valid _ _ _ H). auto.
Qed.

(** ** retryable_command *)

Section RetryFacts.

Variable command : string.
Variable pol : RetryPolicy.
Variable w : World.

Lemma verdict_Retry_lt n r : verdict pol n r = Retry -> n < max_num_retries pol.
Proof.
  unfold verdict, exhausted.
  destruct (return_code r =? 0);
    [destruct (negb (require_output pol) || _)%bool|];
    destruct (n <? max_num_retries pol) eqn:E;
    try destruct (suppress_errors pol); try discriminate;
    intros _; apply Z.ltb_lt; exact E.
Qed.

Lemma verdict_not_Success n r :
  verdict pol n r <> Success -> verdict pol n r = exhausted pol n.
Proof.
  unfold verdict.
  destruct (return_code r =? 0); auto.
  destruct (negb (require_output pol) || _)%bool; auto.
  intros H; exfalso; apply H; reflexivity.
Qed.

Lemma verdict_failed n r :
  return_code r <> 0 -> verdict pol n r = exhausted pol n.
Proof.
  intros H. unfold verdict.
  destruct (Z.eqb_spec (return_code r) 0); [contradiction | reflexivity].
Qed.

(** One pass of the loop, by what it decides. *)
Lemma retry_loop_pass fuel n s :
  n <= max_num_retries pol ->
  let r := shell_out w (procs s) command in
  let evs := attempt_events command (procs s) n r in
  decodable r = true ->
  run (retry_loop command pol (S fuel) n) w s =
  match verdict pol n r with
  | Success | GiveUpReturn => (Done (Some r), after_pass s evs)
  | Retry =>
      run (retry_loop command pol fuel (n + 1)) w
          (after_pass s (evs ++ [EvAct (Sleep (retry_delay pol))]))
  | GiveUpExit =>
      (Stopped (Exited (return_code r)),
       after_pass s (evs ++ [EvAct (Log CRITICAL
                                        "Failed to execute command: `%s`"
                                        [VStr (stderr r)])]))
  end.
Proof.
  intros Hn r evs Hd. destruct (@decodable_streams _ Hd) as [Ho He].
  simpl retry_loop.
  apply Z.leb_le in Hn. rewrite Hn. simpl run. fold r.
  rewrite (@decoded_valid _ _ _ Ho). simpl run.
  rewrite (@decoded_valid _ _ _ He). simpl run.
  unfold after_pass, emit, evs, attempt_events; simpl.
  repeat rewrite <- app_assoc; simpl.
  destruct (verdict pol n r); try rewrite (@decoded_valid _ _ _ He);
    simpl; unfold emit; simpl;
    repeat rewrite <- app_assoc; simpl; reflexivity.
Qed.

(** A pass whose output cannot be decoded: line 270 or 271 raises, after
    the process has ended and before anything is decided. *)
Lemma retry_loop_garbled fuel n s :
  n <= max_num_retries pol ->
  let r := shell_out w (procs s) command in
  decodable r = false ->
  run (retry_loop command pol (S fuel) n) w s =
  (Stopped (Raised UnicodeDecodeError),
   after_pass s (garbled_events command (procs s) n r)).
Proof.
  intros Hn r Hd. simpl retry_loop.
  apply Z.leb_le in Hn. rewrite Hn. simpl run. fold r.
  unfold garbled_events, after_pass. fold r.
  unfold decodable in Hd. fold r in Hd.
  destruct (Utf8.valid (stdout r)) eqn:Ho.
  - simpl in Hd. rewrite (@decoded_valid _ _ _ Ho). simpl run.
    rewrite (@decoded_invalid _ _ _ Hd). simpl. unfold emit; simpl.
    repeat rewrite <- app_assoc; simpl. reflexivity.
  - rewrite (@decoded_invalid _ _ _ Ho). simpl. unfold emit; simpl.
    repeat rewrite <- app_assoc; simpl. reflexivity.
Qed.

(** Every pass that is within the budget starts the command and waits
    for it. *)
Lemma retry_loop_launches fuel n s :
  n <= max_num_retries pol ->
  exists rest,
    trace (snd (run (retry_loop command pol (S fuel) n) w s)) =
    trace s ++ launch_events command (procs s) n
                             (shell_out w (procs s) command) ++ rest.
Proof.
  intros Hn. simpl retry_loop. apply Z.leb_le in Hn. rewrite Hn. simpl run.
  match goal with |- context [run ?p w ?s'] =>
    destruct (run_trace_extends p w s') as [rest E]; rewrite E end.
  simpl. rewrite <- !app_assoc. simpl. exists rest. reflexivity.
Qed.

Lemma first_pass_trace s :
  1 <= max_num_retries pol ->
  exists rest,
    trace (snd (run (retryable_command command pol) w s))
    = trace s ++ launch_events command (procs s) 1
                               (shell_out w (procs s) command) ++ rest.
Proof.
  intros H1. unfold retryable_command.
  destruct (Z.to_nat (max_num_retries pol)) as [|fuel] eqn:E; [lia|].
  apply retry_loop_launches. exact H1.
Qed.

(** [m] passes that all decide to retry. *)
Lemma retry_loop_retried m : forall fuel n s,
  (forall i, (i < m)%nat ->
     decodable (shell_out w (procs s + i) command) = true /\
     verdict pol (n + Z.of_nat i) (shell_out w (procs s + i) command) = Retry) ->
  (m <= fuel)%nat ->
  run (retry_loop command pol fuel n) w s =
  run (retry_loop command pol (fuel - m) (n + Z.of_nat m)) w
      {| procs := procs s + m; prompts := prompts s;
         trace := trace s ++
                  retried_attempts w command (retry_delay pol) (procs s) n m |}.
Proof.
  induction m as [|m IH]; intros fuel n s Hretry Hfuel.
  - destruct s; simpl. rewrite Nat.add_0_r, app_nil_r, Z.add_0_r, Nat.sub_0_r.
    reflexivity.
  - destruct fuel as [|fuel]; [lia|].
    pose proof (Hretry 0%nat ltac:(lia)) as [Hd0 H0].
    rewrite Nat.add_0_r in H0, Hd0. simpl Z.of_nat in H0.
    rewrite Z.add_0_r in H0.
    rewrite retry_loop_pass
      by (try exact Hd0; apply verdict_Retry_lt in H0; lia).
    rewrite H0.
    rewrite IH.
    + simpl Nat.sub. unfold after_pass; simpl.
      replace (n + 1 + Z.of_nat m) with (n + Z.of_nat (S m)) by lia.
      replace (S (procs s + m)) with (procs s + S m)%nat by lia.
      repeat rewrite <- app_assoc. reflexivity.
    + intros i Hi. unfold after_pass; simpl.
      specialize (Hretry (S i) ltac:(lia)).
      replace (n + 1 + Z.of_nat i) with (n + Z.of_nat (S i)) by lia.
      replace (S (procs s + i)) with (procs s + S i)%nat by lia.
      exact Hretry.
    + lia.
Qed.

Lemma spawns_attempt_events pid n r :
  spawns (attempt_events command pid n r) = 1%nat.
Proof. reflexivity. Qed.

Lemma spawns_retried_attempts d m : forall pid n,
  spawns (retried_attempts w command d pid n m) = m.
Proof.
  induction m as [|m IH]; intros pid n; simpl; auto.
Qed.

(** The loop never starts more processes than it has passes left, and it
    never runs out of fuel when given one unit per pass left. *)
Lemma retry_loop_bounded fuel : forall n s,
  Z.to_nat (max_num_retries pol - n + 1) = fuel ->
  let res := run (retry_loop command pol fuel n) w s in
  fst res <> Stopped OutOfFuel /\
  (spawns (trace (snd res)) <= spawns (trace s) + fuel)%nat.
Proof.
  induction fuel as [|fuel IH]; intros n s Hf.
  - simpl. destruct (Z.leb_spec n (max_num_retries pol)); [lia|].
    simpl. split; [discriminate | lia].
  - assert (Hn : n <= max_num_retries pol) by lia.
    cbv zeta.
    destruct (decodable (shell_out w (procs s) command)) eqn:Hd.
    2:{ rewrite retry_loop_garbled by assumption. simpl.
        split; [discriminate|]. unfold garbled_events.
        rewrite !spawns_app. simpl.
        destruct (Utf8.valid (stdout (shell_out w (procs s) command)));
          simpl; lia. }
    rewrite retry_loop_pass by assumption.
    destruct (verdict pol n (shell_out w (procs s) command)); simpl;
      try (split; [discriminate|]; rewrite !spawns_app; simpl; lia).
    specialize (IH (n + 1)
        (after_pass s
           (attempt_events command (procs s) n (shell_out w (procs s) command)
            ++ [EvAct (Sleep (retry_delay pol))])) ltac:(lia)).
      cbv zeta in IH. destruct IH as [IH1 IH2]. split; [exact IH1|].
      unfold after_pass in IH2 at 2. simpl trace in IH2.
      rewrite !spawns_app in IH2. simpl in IH2. lia.
Qed.

End RetryFacts.

Section RetryRuns.

Variable command : string.
Variable pol : RetryPolicy.
Variable w : World.
Variable s : State.

Local Abbreviation r := (attempt_result w s command).
Local Abbreviation reached := (reached command pol w s).

Lemma reached_retried i :
  reached i ->
  run (retryable_command command pol) w s =
  run (retry_loop command pol (Z.to_nat (max_num_retries pol) - i)
                  (Z.of_nat i + 1)) w
      {| procs := procs s + i; prompts := prompts s;
         trace := trace s ++
                  retried_attempts w command (retry_delay pol) (procs s) 1 i |}.
Proof.
  intros [Hi Hj]. unfold retryable_command.
  rewrite (@retry_loop_retried command pol w i).
  - replace (1 + Z.of_nat i) with (Z.of_nat i + 1) by lia. reflexivity.
  - intros j Hlt. destruct (Hj j Hlt) as [Hd Hv]. split; [exact Hd|].
    replace (1 + Z.of_nat j) with (Z.of_nat j + 1) by lia.
    rewrite verdict_not_Success by exact Hv.
    unfold exhausted.
    destruct (Z.ltb_spec (Z.of_nat j + 1) (max_num_retries pol)); [reflexivity | lia].
  - lia.
Qed.

(** The pass of attempt [i + 1], once reached, when its output cannot be
    decoded. *)
Lemma reached_garbled i :
  reached i ->
  decodable (r i) = false ->
  run (retryable_command command pol) w s =
  (Stopped (Raised UnicodeDecodeError),
   after_pass {| procs := procs s + i; prompts := prompts s;
                 trace := trace s ++ retried_attempts w command
                                       (retry_delay pol) (procs s) 1 i |}
              (garbled_events command (procs s + i) (Z.of_nat i + 1) (r i))).
Proof.
  intros Hr Hd. rewrite (reached_retried Hr). destruct Hr as [Hi _].
  replace (Z.to_nat (max_num_retries pol) - i)%nat
    with (S (Z.to_nat (max_num_retries pol) - S i)) by lia.
  rewrite retry_loop_garbled by (try exact Hd; lia). reflexivity.
Qed.

(** The pass of attempt [i + 1], once reached. *)
Lemma reached_pass i :
  reached i ->
  decodable (r i) = true ->
  run (retryable_command command pol) w s =
  let s_i := {| procs := procs s + i; prompts := prompts s;
                trace := trace s ++ retried_attempts w command (retry_delay pol)
                                                     (procs s) 1 i |} in
  let evs := attempt_events command (procs s + i) (Z.of_nat i + 1) (r i) in
  match verdict pol (Z.of_nat i + 1) (r i) with
  | Success | GiveUpReturn => (Done (Some (r i)), after_pass s_i evs)
  | Retry =>
      run (retry_loop command pol (Z.to_nat (max_num_retries pol) - S i)
                      (Z.of_nat i + 1 + 1)) w
          (after_pass s_i (evs ++ [EvAct (Sleep (retry_delay pol))]))
  | GiveUpExit =>
      (Stopped (Exited (return_code (r i))),
       after_pass s_i (evs ++ [EvAct (Log CRITICAL
                                          "Failed to execute command: `%s`"
                                          [VStr (stderr (r i))])]))
  end.
Proof.
  intros Hr Hd. rewrite (reached_retried Hr). destruct Hr as [Hi _].
  replace (Z.to_nat (max_num_retries pol) - i)%nat
    with (S (Z.to_nat (max_num_retries pol) - S i)) by lia.
  rewrite retry_loop_pass by (try exact Hd; lia). reflexivity.
Qed.

Lemma retried_attempts_snoc d m : forall pid n,
  retried_attempts w command d pid n (S m) =
  retried_attempts w command d pid n m
  ++ attempt_events command (pid + m) (n + Z.of_nat m)
                    (shell_out w (pid + m) command)
  ++ [EvAct (Sleep d)].
Proof.
  induction m as [|m IH]; intros pid n.
  - simpl. rewrite Nat.add_0_r, Z.add_0_r. reflexivity.
  - change (retried_attempts w command d pid n (S (S m)))
      with (attempt_events command pid n (shell_out w pid command)
            ++ [EvAct (Sleep d)]
            ++ retried_attempts w command d (S pid) (n + 1) (S m)).
    rewrite IH.
    replace (S pid + m)%nat with (pid + S m)%nat by lia.
    replace (n + 1 + Z.of_nat m) with (n + Z.of_nat (S m)) by lia.
    simpl. reflexivity.
Qed.

(** When the pass of attempt [i + 1] decides to retry, the run goes on
    with a sleep and the next attempt. *)
Lemma reached_retry_continues i :
  reached i ->
  decodable (r i) = true ->
  verdict pol (Z.of_nat i + 1) (r i) = Retry ->
  exists rest,
    trace (snd (run (retryable_command command pol) w s)) =
    trace s
    ++ retried_attempts w command (retry_delay pol) (procs s) 1 (S i)
    ++ launch_events command (procs s + S i) (Z.of_nat i + 2) (r (S i))
    ++ rest.
Proof.
  intros Hr Hd Hv.
  assert (Hr' : reached (S i)).
  { destruct Hr as [Hi Hj]. pose proof (verdict_Retry_lt _ _ _ Hv) as Hlt'.
    split; [lia|].
    intros j Hlt. destruct (Nat.eq_dec j i) as [->|Hne].
    - split; [exact Hd|]. rewrite Hv. discriminate.
    - apply Hj. lia. }
  rewrite (reached_retried Hr'). destruct Hr' as [Hi' _].
  replace (Z.to_nat (max_num_retries pol) - S i)%nat
    with (S (Z.to_nat (max_num_retries pol) - S (S i))) by lia.
  destruct (@retry_loop_launches command pol w
              (Z.to_nat (max_num_retries pol) - S (S i))
              (Z.of_nat (S i) + 1)
              {| procs := procs s + S i; prompts := prompts s;
                 trace := trace s ++ retried_attempts w command
                                       (retry_delay pol) (procs s) 1 (S i) |}
              ltac:(lia)) as [rest E].
  rewrite E. cbn [trace procs].
  replace (Z.of_nat (S i) + 1) with (Z.of_nat i + 2) by lia.
  rewrite <- app_assoc. exists rest. reflexivity.
Qed.

End RetryRuns.

Lemma success_condition_verdict pol n r :
  verdict pol n r = Success <-> success_condition pol r.
Proof.
  unfold verdict, success_condition, exhausted.
  destruct (Z.eqb_spec (return_code r) 0) as [E|E].
  - destruct (require_output pol); destruct (stdout r) as [|c t]; simpl;
      try (split; [intros _; split; [exact E|auto; right; discriminate]
                  | reflexivity]).
    split.
    + destruct (n <? max_num_retries pol); [discriminate|].
      destruct (suppress_errors pol); discriminate.
    + intros [_ [H|H]]; [discriminate | contradiction].
  - split.
    + destruct (n <? max_num_retries pol); [discriminate|].
      destruct (suppress_errors pol); discriminate.
    + intros [H _]; contradiction.
Qed.

Lemma verdict_GiveUpReturn pol n r :
  verdict pol n r = GiveUpReturn ->
  ~ n < max_num_retries pol /\ suppress_errors pol = true.
Proof.
  unfold verdict, exhausted.
  destruct (return_code r =? 0);
    [destruct (negb (require_output pol) || _)%bool|];
    destruct (Z.ltb_spec n (max_num_retries pol));
    destruct (suppress_errors pol); try discriminate;
    intros _; (split; [lia | reflexivity]).
Qed.

(** C1, as the code has it.  Take any command, any retry policy and any
    attempt that is reached.  When its output can be decoded and its exit
    status is non-zero: if attempts remain, the run goes on with a sleep
    of [retry_delay] and the next attempt; if it was the last attempt
    ([max_num_retries] of them have been made), then with
    [suppress_errors] the call returns that attempt's triple, and otherwise
    the captured stderr is logged and the process exits with the command's
    exit status.  When its output cannot be decoded, line 270 or 271
    raises [UnicodeDecodeError]: nothing is retried, returned or logged at
    critical level.  In no case are more than [max_num_retries] processes
    started. *)
Theorem retryable_command_retry_policy :
  forall command pol w s i,
    reached command pol w s i ->
    (decodable (attempt_result w s command i) = true ->
     return_code (attempt_result w s command i) <> 0 ->
     (Z.of_nat i + 1 < max_num_retries pol ->
      exists rest,
        trace (snd (run (retryable_command command pol) w s)) =
        trace s
        ++ retried_attempts w command (retry_delay pol) (procs s) 1 (S i)
        ++ launch_events command (procs s + S i) (Z.of_nat i + 2)
                         (attempt_result w s command (S i))
        ++ rest)
     /\ (Z.of_nat i + 1 = max_num_retries pol ->
         run (retryable_command command pol) w s =
         (if suppress_errors pol
          then Done (Some (attempt_result w s command i))
          else Stopped (Exited (return_code (attempt_result w s command i))),
          after_pass (before_attempt command pol w s i)
            (attempt_events command (procs s + i) (Z.of_nat i + 1)
                            (attempt_result w s command i)
             ++ if suppress_errors pol then []
                else [critical_log (attempt_result w s command i)]))
         /\ spawns (trace (snd (run (retryable_command command pol) w s))) =
            (spawns (trace s) + Z.to_nat (max_num_retries pol))%nat))
    /\ (decodable (attempt_result w s command i) = false ->
        run (retryable_command command pol) w s =
        (Stopped (Raised UnicodeDecodeError),
         after_pass (before_attempt command pol w s i)
           (garbled_events command (procs s + i) (Z.of_nat i + 1)
                           (attempt_result w s command i)))
        /\ spawns (trace (snd (run (retryable_command command pol) w s))) =
           (spawns (trace s) + S i)%nat)
    /\ (spawns (trace (snd (run (retryable_command command pol) w s))) <=
        spawns (trace s) + Z.to_nat (max_num_retries pol))%nat.
Proof.
  intros command pol w s i Hr.
  split; [|split].
  - intros Hd Hrc.
    pose proof (verdict_failed pol (Z.of_nat i + 1) _ Hrc) as Hv.
    split.
    + intros Hlt. apply reached_retry_continues; [exact Hr | exact Hd |].
      rewrite Hv. unfold exhausted.
      destruct (Z.ltb_spec (Z.of_nat i + 1) (max_num_retries pol));
        [reflexivity | lia].
    + intros Heq.
      assert (E : run (retryable_command command pol) w s =
        (if suppress_errors pol
         then Done (Some (attempt_result w s command i))
         else Stopped (Exited (return_code (attempt_result w s command i))),
         after_pass (before_attempt command pol w s i)
           (attempt_events command (procs s + i) (Z.of_nat i + 1)
                           (attempt_result w s command i)
            ++ if suppress_errors pol then []
               else [critical_log (attempt_result w s command i)]))).
      { rewrite (reached_pass Hr Hd). cbv zeta. rewrite Hv. unfold exhausted.
        destruct (Z.ltb_spec (Z.of_nat i + 1) (max_num_retries pol)); [lia|].
        destruct (suppress_errors pol); [rewrite app_nil_r|]; reflexivity. }
      split; [exact E|]. rewrite E. simpl.
      rewrite !spawns_app, spawns_retried_attempts.
      destruct (suppress_errors pol); simpl; lia.
  - intros Hd. rewrite (reached_garbled Hr Hd). split; [reflexivity|].
    simpl. unfold garbled_events.
    rewrite !spawns_app, spawns_retried_attempts.
    destruct (Utf8.valid (stdout (attempt_result w s command i))); simpl; lia.
  - pose proof (@retry_loop_bounded command pol w
                  (Z.to_nat (max_num_retries pol)) 1 s) as B.
    cbv zeta in B. apply B. lia.
Qed.

Lemma all_fail_reached command pol s i :
  Z.of_nat i < max_num_retries pol ->
  reached command pol Samples.all_fail s i.
Proof.
  intros Hi. split; [exact Hi|].
  intros j _. split; [reflexivity|].
  rewrite verdict_failed by (simpl; discriminate).
  unfold exhausted.
  destruct (Z.of_nat j + 1 <? max_num_retries pol); [discriminate|].
  destruct (suppress_errors pol); discriminate.
Defined.

Lemma retryable_command_retry_policy_witness :
  reached "gcloud projects list" default_policy Samples.all_fail init 2
  /\ decodable
       (attempt_result Samples.all_fail init "gcloud projects list" 2) = true
  /\ return_code
       (attempt_result Samples.all_fail init "gcloud projects list" 2) <> 0
  /\ fst (run (retryable_command "gcloud projects list" default_policy)
              Samples.all_fail init) = Stopped (Exited 2)
  /\ spawns (trace (snd (run (retryable_command "gcloud projects list"
                                                default_policy)
                             Samples.all_fail init))) = 3%nat.
Proof.
  assert (H1 : reached "gcloud projects list" default_policy
                       Samples.all_fail init 2)
    by (apply all_fail_reached; reflexivity).
  assert (H2 : return_code
                 (attempt_result Samples.all_fail init
                                 "gcloud projects list" 2) <> 0)
    by (simpl; discriminate).
  split; [exact H1 | split; [reflexivity | split; [exact H2|]]].
  destruct (retryable_command_retry_policy H1) as [A _].
  destruct (A eq_refl H2) as [_ B].
  destruct (B eq_refl) as [E C]. split.
  - rewrite E. reflexivity.
  - rewrite C. reflexivity.
Defined.

(** C1 as stated fails: the first attempt of [garbled] ends with status
    2 and two attempts remain, but its stderr cannot be decoded, so the
    call raises and never sleeps. *)
Lemma retryable_command_undecodable_counterexample :
  ~ (forall command pol w s i,
       Z.of_nat i < max_num_retries pol ->
       (forall j, (j < i)%nat ->
          return_code (attempt_result w s command j) <> 0) ->
       return_code (attempt_result w s command i) <> 0 ->
       Z.of_nat i + 1 < max_num_retries pol ->
       In (EvAct (Sleep (retry_delay pol)))
          (trace (snd (run (retryable_command command pol) w s)))).
Proof.
  intros H.
  specialize (H "gcloud projects list" default_policy Samples.garbled init
                0%nat ltac:(reflexivity)
                ltac:(intros j Hj; inversion Hj)
                ltac:(simpl; discriminate) ltac:(reflexivity)).
  vm_compute in H.
  repeat (destruct H as [H|H]; [discriminate H|]). contradiction.
Qed.

(** C2, as the code has it.  The call returns the triple of an attempt
    that is reached at once (nothing more is run) exactly when the
    attempt's output can be decoded and either its exit status is zero and
    no output is required or stdout is non-empty (the return of line 276),
    or it is the last attempt of a call with [suppress_errors] (the return
    of line 282).  An attempt that is decoded and is not a success is
    followed by a further attempt when attempts remain. *)
Theorem attempt_success_iff :
  forall command pol w s i,
    reached command pol w s i ->
    (run (retryable_command command pol) w s =
     (Done (Some (attempt_result w s command i)),
      after_pass (before_attempt command pol w s i)
        (attempt_events command (procs s + i) (Z.of_nat i + 1)
                        (attempt_result w s command i)))
     <-> decodable (attempt_result w s command i) = true
         /\ (success_condition pol (attempt_result w s command i)
             \/ (Z.of_nat i + 1 = max_num_retries pol
                 /\ suppress_errors pol = true)))
    /\ (decodable (attempt_result w s command i) = true ->
        ~ success_condition pol (attempt_result w s command i) ->
        Z.of_nat i + 1 < max_num_retries pol ->
        exists rest,
          trace (snd (run (retryable_command command pol) w s)) =
          trace s
          ++ retried_attempts w command (retry_delay pol) (procs s) 1 (S i)
          ++ launch_events command (procs s + S i) (Z.of_nat i + 2)
                           (attempt_result w s command (S i))
          ++ rest).
Proof.
  intros command pol w s i Hr.
  split; [split|].
  - intros Hrun.
    destruct (decodable (attempt_result w s command i)) eqn:Hd.
    2:{ rewrite (reached_garbled Hr Hd) in Hrun. discriminate Hrun. }
    split; [reflexivity|].
    rewrite (reached_pass Hr Hd) in Hrun. cbv zeta in Hrun.
    destruct (verdict pol (Z.of_nat i + 1) (attempt_result w s command i))
      eqn:Hv.
    + left. apply success_condition_verdict in Hv. exact Hv.
    + exfalso.
      match type of Hrun with run ?p w ?s' = _ =>
        destruct (run_trace_extends p w s') as [rest E] end.
      rewrite Hrun in E. simpl in E.
      apply (f_equal (@List.length Event)) in E.
      rewrite !length_app in E. simpl in E. lia.
    + right. destruct (verdict_GiveUpReturn _ _ _ Hv) as [Hn Hs].
      destruct Hr as [Hi _]. split; [lia | exact Hs].
    + discriminate Hrun.
  - intros [Hd [Hs|[Hlast Hsup]]].
    + apply success_condition_verdict with (n := Z.of_nat i + 1) in Hs.
      rewrite (reached_pass Hr Hd). cbv zeta. rewrite Hs. reflexivity.
    + rewrite (reached_pass Hr Hd). cbv zeta.
      destruct (verdict pol (Z.of_nat i + 1) (attempt_result w s command i))
        eqn:Hv; try reflexivity.
      * apply verdict_Retry_lt in Hv. lia.
      * exfalso. revert Hv. unfold verdict, exhausted. rewrite Hsup.
        destruct (return_code (attempt_result w s command i) =? 0);
          [destruct (negb (require_output pol) || _)%bool|];
          destruct (Z.of_nat i + 1 <? max_num_retries pol); discriminate.
  - intros Hd Hn Hlt. apply reached_retry_continues; [exact Hr | exact Hd |].
    rewrite verdict_not_Success.
    + unfold exhausted.
      destruct (Z.ltb_spec (Z.of_nat i + 1) (max_num_retries pol));
        [reflexivity | lia].
    + intros Hs. apply Hn. revert Hs. apply success_condition_verdict.
Qed.

Lemma attempt_success_iff_witness :
  reached "gcloud projects list" default_policy Samples.all_ok init 0
  /\ run (retryable_command "gcloud projects list" default_policy)
         Samples.all_ok init
     = (Done (Some Samples.ok_result),
        after_pass init
          (attempt_events "gcloud projects list" 0 1 Samples.ok_result)).
Proof.
  assert (H1 : reached "gcloud projects list" default_policy
                       Samples.all_ok init 0).
  { split; [reflexivity|]. intros j Hj. inversion Hj. }
  split; [exact H1|].
  destruct (attempt_success_iff H1) as [[_ B] _].
  apply B. split; [reflexivity|].
  left. split; [reflexivity | left; reflexivity].
Defined.

(** C2 as stated fails: in [all_fail] the only attempt of a call with
    [max_num_retries = 1] and [suppress_errors] ends with status 2, yet
    the call returns its triple at once, as it would for a success. *)
Lemma attempt_success_counterexample :
  ~ (forall command pol w s i,
       reached command pol w s i ->
       (run (retryable_command command pol) w s =
        (Done (Some (attempt_result w s command i)),
         after_pass (before_attempt command pol w s i)
           (attempt_events command (procs s + i) (Z.of_nat i + 1)
                           (attempt_result w s command i)))
        <-> success_condition pol (attempt_result w s command i))).
Proof.
  intros H.
  assert (Hr : reached "gcloud projects list" probe_policy
                       Samples.all_fail init 0).
  { split; [reflexivity|]. intros j Hj. inversion Hj. }
  destruct (H _ _ _ _ _ Hr) as [H1 _].
  destruct (H1 eq_refl) as [Hrc _]. simpl in Hrc. discriminate Hrc.
Qed.

(** C10.  With [max_num_retries < 1] the loop body never runs: the call
    is the program that returns [None] at once, so no process is started
    and the state is untouched, and a caller that unpacks the result
    raises instead of getting a triple. *)
Theorem retryable_command_without_budget :
  forall command pol,
    max_num_retries pol < 1 ->
    retryable_command command pol = Ret None
    /\ forall w s,
        run (retryable_command command pol) w s = (Done None, s)
        /\ run (unpacking_call command pol) w s
           = (Stopped (Raised TypeError), s).
Proof.
  intros command pol Hlt.
  assert (E : retryable_command command pol = Ret None).
  { unfold retryable_command.
    destruct (Z.to_nat (max_num_retries pol)); simpl;
      destruct (Z.leb_spec 1 (max_num_retries pol)); try lia; reflexivity. }
  split; [exact E|]. intros w s. unfold unpacking_call. rewrite E.
  split; reflexivity.
Qed.

Lemma retryable_command_without_budget_witness :
  max_num_retries Samples.no_budget < 1
  /\ run (unpacking_call "gcloud config get-value project" Samples.no_budget)
         Samples.all_ok init
     = (Stopped (Raised TypeError), init).
Proof.
  split; [reflexivity|].
  apply (retryable_command_without_budget
           "gcloud config get-value project" Samples.no_budget).
  reflexivity.
Defined.

(** ** verify_tos_accepted *)

Lemma probe_run command w s :
  decodable (shell_out w (procs s) command) = true ->
  run (unpacking_call command probe_policy) w s =
  (Done (shell_out w (procs s) command),
   after_pass s (attempt_events command (procs s) 1
                                (shell_out w (procs s) command))).
Proof.
  intros Hd. unfold unpacking_call. rewrite run_bind.
  unfold retryable_command. simpl Z.to_nat.
  change (Pos.to_nat 1) with 1%nat.
  rewrite retry_loop_pass by (try exact Hd; simpl; lia).
  unfold verdict, exhausted; simpl.
  destruct (return_code (shell_out w (procs s) command) =? 0); reflexivity.
Qed.

Lemma probe_garbled command w s :
  decodable (shell_out w (procs s) command) = false ->
  run (unpacking_call command probe_policy) w s =
  (Stopped (Raised UnicodeDecodeError),
   after_pass s (garbled_events command (procs s) 1
                                (shell_out w (procs s) command))).
Proof.
  intros Hd. unfold unpacking_call. rewrite run_bind.
  unfold retryable_command. simpl Z.to_nat.
  change (Pos.to_nat 1) with 1%nat.
  rewrite retry_loop_garbled by (try exact Hd; simpl; lia).
  reflexivity.
Qed.

Lemma run_tos_notice err w s :
  fst (run (tos_notice err) w s) = Done tt
  /\ procs (snd (run (tos_notice err) w s)) = procs s
  /\ prompts (snd (run (tos_notice err) w s)) = prompts s
  /\ exists evs, trace (snd (run (tos_notice err) w s)) = trace s ++ evs
                 /\ spawns evs = 0%nat.
Proof.
  unfold tos_notice.
  destruct (Str.contains "universal" err);
    [|destruct (Str.contains "appsadmin" err)]; simpl;
    repeat split; try (rewrite <- app_assoc; simpl);
    eexists; split; try reflexivity; try (rewrite app_nil_r; reflexivity);
    reflexivity.
Qed.

Lemma lower_is_n (a : string) :
  Str.lower a = "n" <-> a = "n" \/ a = "N".
Proof.
  split.
  - destruct a as [|c [|c' t]]; simpl; try discriminate.
    intros H. injection H as H.
    destruct c as [b0 b1 b2 b3 b4 b5 b6 b7].
    destruct b0, b1, b2, b3, b4, b5, b6, b7; vm_compute in H;
      try discriminate; auto.
  - intros [-> | ->]; reflexivity.
Qed.

Lemma tos_loop_S fuel :
  tos_loop (S fuel) false = tos_pass (tos_loop fuel) false "admin.googleapis.com".
Proof. reflexivity. Qed.

(** A pass whose probe is blocked, up to the operator's answer. *)
Lemma blocked_pass again w s :
  tos_blocked w s ->
  run (tos_pass again false "admin.googleapis.com") w s =
  if String.eqb (Str.lower (operator w (prompts s))) "n"
  then (Stopped (Exited 0), after_prompt w s)
  else run (again false) w (after_prompt w s).
Proof.
  intros (Hdec & Hrc & Hm). unfold tos_pass.
  change (enable_command "admin.googleapis.com") with probe_command.
  rewrite run_bind, (@probe_run probe_command w s Hdec).
  change (shell_out w (procs s) probe_command) with (probe_result w s).
  destruct (Z.eqb_spec (return_code (probe_result w s)) 0) as [E|_];
    [contradiction|].
  simpl negb. cbv iota.
  rewrite (@decoded_valid _ _ _ (proj2 (@decodable_streams _ Hdec))).
  cbv beta. rewrite Hm.
  rewrite run_bind.
  destruct (run_tos_notice (stderr (probe_result w s)) w
              (after_pass s (attempt_events probe_command (procs s) 1
                                            (probe_result w s))))
    as (Hd & Hp & Hq & _).
  destruct (run (tos_notice (stderr (probe_result w s))) w
                (after_pass s (attempt_events probe_command (procs s) 1
                                              (probe_result w s))))
    as [res s2] eqn:E2.
  simpl in Hd, Hp, Hq. subst res.
  unfold after_prompt. cbv zeta. rewrite E2. simpl snd.
  simpl run at 1. rewrite Hq.
  destruct (String.eqb (Str.lower (operator w (prompts s))) "n"); reflexivity.
Qed.

Lemma after_prompt_counts w s :
  procs (after_prompt w s) = S (procs s)
  /\ prompts (after_prompt w s) = S (prompts s)
  /\ spawns (trace (after_prompt w s)) = S (spawns (trace s)).
Proof.
  unfold after_prompt. cbv zeta.
  destruct (run_tos_notice (stderr (probe_result w s)) w
              (after_pass s (attempt_events probe_command (procs s) 1
                                            (probe_result w s))))
    as (_ & Hp & Hq & evs & Ht & Hs).
  simpl. rewrite Hp, Hq, Ht. simpl.
  repeat split. rewrite !spawns_app, Hs. simpl. lia.
Qed.

(** Every pass starts by running the probe command once. *)
Lemma pass_starts_with_probe again acc w s :
  exists rest,
    trace (snd (run (tos_pass again acc "admin.googleapis.com") w s)) =
    trace s
    ++ launch_events probe_command (procs s) 1 (probe_result w s)
    ++ rest.
Proof.
  unfold tos_pass, unpacking_call. do 2 apply bind_trace_prefix.
  apply first_pass_trace. simpl. lia.
Qed.

Lemma blocked_cycles_run w n : forall s fuel,
  blocked_cycles w s n ->
  run (tos_loop (n + fuel) false) w s =
  run (tos_loop fuel false) w (after_cycles w s n)
  /\ procs (after_cycles w s n) = (procs s + n)%nat
  /\ prompts (after_cycles w s n) = (prompts s + n)%nat.
Proof.
  induction n as [|n IH]; intros s fuel H.
  - simpl. repeat split; lia.
  - destruct H as (Hb & Ha & Hrest).
    change (S n + fuel)%nat with (S (n + fuel)).
    rewrite tos_loop_S, (blocked_pass _ Hb).
    destruct (String.eqb_spec (Str.lower (operator w (prompts s))) "n");
      [contradiction|].
    destruct (IH (after_prompt w s) fuel Hrest) as (E & Hp & Hq).
    destruct (after_prompt_counts w s) as (Hp' & Hq' & _).
    simpl after_cycles. rewrite E. repeat split; lia.
Qed.

(** C3.  When the probe fails with the terms-of-service marker in its
    stderr and the operator is prompted (the probe's output could be
    decoded), the prompt is the last thing before the answer is looked
    at.  An answer that lower-cases to n
    (that is, n or N) makes the process exit with status 0.  Any other
    answer sends the loop back to probing: the rest of the run is the loop
    itself again, and it starts by running the same probe command.  The
    source puts no bound on this: however many cycles are blocked, the
    loop is back at probing after them. *)
Theorem tos_loop_operator_choice :
  forall w s fuel,
    tos_blocked w s ->
    (exists before,
       trace (after_prompt w s)
       = before ++ [EvInput tos_prompt (operator w (prompts s))])
    /\ (Str.lower (operator w (prompts s)) = "n"
        <-> operator w (prompts s) = "n" \/ operator w (prompts s) = "N")
    /\ (Str.lower (operator w (prompts s)) = "n" ->
        run (tos_loop (S fuel) false) w s
        = (Stopped (Exited 0), after_prompt w s))
    /\ (Str.lower (operator w (prompts s)) <> "n" ->
        run (tos_loop (S fuel) false) w s
        = run (tos_loop fuel false) w (after_prompt w s)
        /\ exists rest,
            trace (snd (run (tos_loop (S (S fuel)) false) w s)) =
            trace (after_prompt w s)
            ++ launch_events probe_command (S (procs s)) 1
                             (probe_result w (after_prompt w s))
            ++ rest)
    /\ (forall n,
          blocked_cycles w s n ->
          run (tos_loop (n + fuel) false) w s
          = run (tos_loop fuel false) w (after_cycles w s n)
          /\ procs (after_cycles w s n) = (procs s + n)%nat
          /\ fst (run (tos_loop n false) w s) = Stopped OutOfFuel).
Proof.
  intros w s fuel Hb.
  split; [eexists; reflexivity|].
  split; [apply lower_is_n | split; [|split]].
  - intros Hn. rewrite tos_loop_S, (blocked_pass _ Hb), Hn. reflexivity.
  - intros Hn.
    assert (E : forall f, run (tos_loop (S f) false) w s
                          = run (tos_loop f false) w (after_prompt w s)).
    { intros f. rewrite tos_loop_S, (blocked_pass _ Hb).
      destruct (String.eqb_spec (Str.lower (operator w (prompts s))) "n");
        [contradiction | reflexivity]. }
    split; [apply E|]. rewrite E, tos_loop_S.
    destruct (pass_starts_with_probe (tos_loop fuel) false w
                                     (after_prompt w s)) as [rest Hrest].
    destruct (after_prompt_counts w s) as (Hp & _).
    rewrite Hp in Hrest. exists rest. exact Hrest.
  - intros n Hc.
    destruct (blocked_cycles_run w n s fuel Hc) as (E & Hp & _).
    split; [exact E | split; [exact Hp|]].
    destruct (blocked_cycles_run w n s 0 Hc) as (E0 & _ & _).
    rewrite Nat.add_0_r in E0. rewrite E0. reflexivity.
Qed.

Lemma tos_loop_operator_choice_witness :
  tos_blocked (Samples.always_blocked "N") init
  /\ run (tos_loop 1 false) (Samples.always_blocked "N") init
     = (Stopped (Exited 0), after_prompt (Samples.always_blocked "N") init).
Proof.
  assert (Hb : tos_blocked (Samples.always_blocked "N") init)
    by (split; [reflexivity | split; [simpl; discriminate | reflexivity]]).
  split; [exact Hb|].
  destruct (tos_loop_operator_choice 0 Hb) as (_ & _ & E & _).
  apply E. reflexivity.
Defined.

(** C4, as the code has it.  When the probe fails, its output can be
    decoded and its stderr does not carry the terms-of-service marker, the
    captured stderr is logged at critical level and the process exits with
    status 1, whatever the exit status of the probe command was. *)
Theorem tos_loop_other_failure :
  forall w s fuel,
    decodable (probe_result w s) = true ->
    return_code (probe_result w s) <> 0 ->
    Str.contains tos_marker (stderr (probe_result w s)) = false ->
    run (tos_loop (S fuel) false) w s =
    (Stopped (Exited 1),
     after_pass s
       (attempt_events probe_command (procs s) 1 (probe_result w s)
        ++ [EvAct (Log CRITICAL (stderr (probe_result w s)) [])])).
Proof.
  intros w s fuel Hd Hrc Hm.
  rewrite tos_loop_S. unfold tos_pass.
  change (enable_command "admin.googleapis.com") with probe_command.
  rewrite run_bind, (@probe_run probe_command w s Hd).
  change (shell_out w (procs s) probe_command) with (probe_result w s).
  destruct (Z.eqb_spec (return_code (probe_result w s)) 0) as [E|_];
    [contradiction|].
  simpl negb. cbv iota.
  rewrite (@decoded_valid _ _ _ (proj2 (@decodable_streams _ Hd))).
  cbv beta. rewrite Hm. simpl.
  unfold after_pass, emit; simpl. rewrite <- app_assoc. reflexivity.
Qed.

Lemma tos_loop_other_failure_witness :
  decodable (probe_result Samples.all_fail init) = true
  /\ return_code (probe_result Samples.all_fail init) <> 0
  /\ Str.contains tos_marker (stderr (probe_result Samples.all_fail init))
     = false
  /\ fst (run (tos_loop 1 false) Samples.all_fail init) = Stopped (Exited 1).
Proof.
  assert (H1 : return_code (probe_result Samples.all_fail init) <> 0)
    by (simpl; discriminate).
  assert (H2 : Str.contains tos_marker
                 (stderr (probe_result Samples.all_fail init)) = false)
    by reflexivity.
  split; [reflexivity | split; [exact H1 | split; [exact H2|]]].
  rewrite (@tos_loop_other_failure Samples.all_fail init 0%nat
             eq_refl H1 H2).
  reflexivity.
Defined.

(** C4 as stated fails: the probe of [all_fail] ends with status 2 and no
    marker, and the process exits with status 1, not 2. *)
Lemma tos_loop_exit_status_counterexample :
  ~ (forall w s fuel,
       return_code (probe_result w s) <> 0 ->
       Str.contains tos_marker (stderr (probe_result w s)) = false ->
       fst (run (tos_loop (S fuel) false) w s)
       = Stopped (Exited (return_code (probe_result w s)))).
Proof.
  intros H.
  specialize (H Samples.all_fail init 0%nat
                ltac:(simpl; discriminate) eq_refl).
  vm_compute in H. discriminate H.
Qed.

(** ** The delegation URL *)

Example quote_sample :
  Url.quote "https://x/auth/drive,openid" = "https%3A%2F%2Fx%2Fauth%2Fdrive%2Copenid".
Proof. reflexivity. Qed.

Example unquote_sample :
  Url.unquote "a%2Cb%zz%4" = "a,b%zz%4".
Proof. reflexivity. Qed.

Lemma string_app_assoc (a b c : string) :
  ((a ++ b) ++ c)%string = (a ++ (b ++ c))%string.
Proof. induction a as [|x a IH]; simpl; [reflexivity | rewrite IH; reflexivity]. Qed.

(** Decoding what one byte was encoded to gives the byte back, whatever
    follows. *)
Lemma unquote_quote_byte (c : ascii) (rest : string) :
  Url.unquote (Url.quote_byte c ++ rest)%string = String c (Url.unquote rest).
Proof.
  destruct c as [b0 b1 b2 b3 b4 b5 b6 b7].
  destruct b0, b1, b2, b3, b4, b5, b6, b7; reflexivity.
Qed.

Lemma quote_app (a b : string) :
  Url.quote (a ++ b)%string = (Url.quote a ++ Url.quote b)%string.
Proof.
  induction a as [|c a IH]; simpl; [reflexivity|].
  rewrite IH, string_app_assoc. reflexivity.
Qed.

Lemma unquote_quote (s : string) : Url.unquote (Url.quote s) = s.
Proof.
  induction s as [|c s IH]; [reflexivity|].
  simpl Url.quote. rewrite unquote_quote_byte, IH. reflexivity.
Qed.

Lemma quote_join (scopes : list string) :
  Url.quote (Str.join "," scopes) = Str.join "%2C" (map Url.quote scopes).
Proof.
  induction scopes as [|p rest IH]; [reflexivity|].
  destruct rest as [|q rest]; [reflexivity|].
  change (Str.join "," (p :: q :: rest))
    with (p ++ "," ++ Str.join "," (q :: rest))%string.
  change (Str.join "%2C" (map Url.quote (p :: q :: rest)))
    with (Url.quote p ++ "%2C"
          ++ Str.join "%2C" (map Url.quote (q :: rest)))%string.
  rewrite !quote_app, IH. reflexivity.
Qed.

Lemma split_on_no_sep (sep : ascii) (s : string) :
  ~ In sep (list_ascii_of_string s) -> Str.split_on sep s = [s].
Proof.
  induction s as [|c s IH]; intros H; [reflexivity|].
  simpl. destruct (Ascii.eqb_spec c sep) as [->|_].
  - exfalso. apply H. left. reflexivity.
  - rewrite IH; [reflexivity|]. intros Hin. apply H. right. exact Hin.
Qed.

Lemma split_on_first (sep : ascii) (a b : string) :
  ~ In sep (list_ascii_of_string a) ->
  Str.split_on sep (a ++ String sep b)%string = a :: Str.split_on sep b.
Proof.
  induction a as [|c a IH]; intros H; simpl.
  - rewrite Ascii.eqb_refl. reflexivity.
  - destruct (Ascii.eqb_spec c sep) as [->|_].
    + exfalso. apply H. left. reflexivity.
    + rewrite IH; [reflexivity|]. intros Hin. apply H. right. exact Hin.
Qed.

(** Splitting what was joined gives the parts back, when no part holds
    the separator. *)
Lemma split_join (sep : ascii) (parts : list string) :
  parts <> [] ->
  (forall part, In part parts -> ~ In sep (list_ascii_of_string part)) ->
  Str.split_on sep (Str.join (String sep EmptyString) parts) = parts.
Proof.
  induction parts as [|p rest IH]; intros Hne Hp; [contradiction|].
  destruct rest as [|q rest].
  - simpl. apply split_on_no_sep. apply Hp. left. reflexivity.
  - change (Str.join (String sep EmptyString) (p :: q :: rest))
      with (p ++ String sep (Str.join (String sep EmptyString) (q :: rest)))%string.
    rewrite split_on_first by (apply Hp; left; reflexivity).
    rewrite IH; [reflexivity | discriminate |].
    intros part Hin. apply Hp. right. exact Hin.
Qed.

(** C7.  For every list of scopes the clientScopeToAdd parameter is the
    percent-encoding of the comma-joined list taken as one string (so the
    commas themselves are encoded, as %2C), the delegation URL ends with
    it, and percent-decoding it gives back the comma-joined list, from
    which the scopes themselves are recovered by splitting at the commas
    (no scope holds one).  Both scripts build their URL this way from
    their own scope list; for the three scopes of trial.py the parameter
    and what it decodes to are written out. *)
Theorem scope_parameter_round_trip :
  forall scopes : list string,
    scope_parameter scopes = Url.quote (Str.join "," scopes)
    /\ scope_parameter scopes = Str.join "%2C" (map Url.quote scopes)
    /\ Url.unquote (scope_parameter scopes) = Str.join "," scopes
    /\ (scopes <> [] ->
        (forall scope, In scope scopes ->
           ~ In ","%char (list_ascii_of_string scope)) ->
        Str.split_on "," (Url.unquote (scope_parameter scopes)) = scopes)
    /\ scope_parameter Trial.SCOPES
       = ("https%3A%2F%2Fwww.googleapis.com%2Fauth%2Fdrive"
          ++ "%2Chttps%3A%2F%2Fwww.googleapis.com%2Fauth%2F"
          ++ "drive.activity.readonly"
          ++ "%2Chttps%3A%2F%2Fwww.googleapis.com%2Fauth%2F"
          ++ "admin.directory.user")%string
    /\ Url.unquote (scope_parameter Trial.SCOPES)
       = ("https://www.googleapis.com/auth/drive,"
          ++ "https://www.googleapis.com/auth/drive.activity.readonly,"
          ++ "https://www.googleapis.com/auth/admin.directory.user")%string
    /\ forall client_id,
         DWD_URL_FORMAT client_id (scope_parameter scopes)
         = ("https://admin.google.com/ac/owl/domainwidedelegation?"
            ++ "overwriteClientId=true&clientIdToAdd=" ++ client_id
            ++ "&clientScopeToAdd=" ++ scope_parameter scopes)%string
         /\ authorize_url client_id
            = DWD_URL_FORMAT client_id (scope_parameter Trial.SCOPES)
         /\ New.create_auth_url client_id
            = DWD_URL_FORMAT client_id (scope_parameter New.SCOPES).
Proof.
  intros scopes. unfold scope_parameter.
  split; [reflexivity | split; [apply quote_join | split]].
  - apply unquote_quote.
  - split.
    + intros Hne Hc. rewrite unquote_quote. apply (@split_join ","%char).
      * exact Hne.
      * exact Hc.
    + split; [reflexivity|]. split; [reflexivity|].
      intros client_id. repeat split.
Qed.

Lemma scope_parameter_round_trip_witness :
  Trial.SCOPES <> []
  /\ Str.split_on "," (Url.unquote (scope_parameter Trial.SCOPES))
     = [ "https://www.googleapis.com/auth/drive";
         "https://www.googleapis.com/auth/drive.activity.readonly";
         "https://www.googleapis.com/auth/admin.directory.user" ].
Proof.
  assert (Hne : Trial.SCOPES <> []) by discriminate.
  split; [exact Hne|].
  refine (proj1 (proj2 (proj2 (proj2 (scope_parameter_round_trip Trial.SCOPES))))
            Hne _).
  intros scope Hin Hcomma. simpl in Hin.
  repeat (destruct Hin as [<-|Hin];
          [simpl in Hcomma;
           repeat (destruct Hcomma as [Hcomma|Hcomma];
                   [discriminate Hcomma|]);
           contradiction|]).
  contradiction.
Defined.

(** ** is_service_disabled *)

Lemma disabled_reason_test_constant (error_reason : JSON) :
  disabled_reason_test error_reason = inr (OStr "notACalendarUser").
Proof. reflexivity. Qed.

(** C9.  Whenever the response parses as JSON and has a field
    error.errors[0].reason, [is_service_disabled] returns [True], whatever
    the reason is: the test on line 240 evaluates to its first operand, a
    non-empty string, and never looks at the reason. *)
Theorem is_service_disabled_ignores_reason :
  forall (json_loads : string -> option JSON) raw api_response error_reason,
    json_loads raw = Some api_response ->
    error_reason_of api_response = inr error_reason ->
    disabled_reason_test error_reason = inr (OStr "notACalendarUser")
    /\ is_service_disabled json_loads (Some raw) = true.
Proof.
  intros json_loads raw api_response error_reason Hparse Hreason.
  split; [reflexivity|].
  unfold is_service_disabled, reason_check.
  rewrite Hparse, Hreason. reflexivity.
Qed.

Lemma is_service_disabled_ignores_reason_witness :
  (fun _ : string => Some Samples.rate_limited) "{...}"
  = Some Samples.rate_limited
  /\ error_reason_of Samples.rate_limited = inr (JStr "rateLimitExceeded")
  /\ is_service_disabled (fun _ => Some Samples.rate_limited) (Some "{...}")
     = true.
Proof.
  split; [reflexivity | split; [reflexivity|]].
  apply (@is_service_disabled_ignores_reason
           (fun _ => Some Samples.rate_limited) "{...}"
           Samples.rate_limited (JStr "rateLimitExceeded"));
    reflexivity.
Defined.

(** ** Creating a service account that is already there *)

(** trial.py has no such fallback: when the create command fails on each
    of its three attempts the script logs the error and exits with the
    command's status.  (Its [main] runs the step in the project it has
    just created.) *)
Lemma create_service_account_fatal w s :
  (forall j, (j < 3)%nat ->
     decodable (attempt_result w s create_service_account_command j) = true
     /\ return_code (attempt_result w s create_service_account_command j)
        <> 0) ->
  fst (run create_service_account w s)
  = Stopped (Exited (return_code
                       (attempt_result w s create_service_account_command 2))).
Proof.
  intros Hfail. unfold create_service_account.
  rewrite run_bind.
  change (run (log INFO "Creating service account..." []) w s)
    with (Done tt, emit s [EvAct (Log INFO "Creating service account..." [])]).
  cbv iota beta. rewrite run_bind.
  assert (Hr : reached create_service_account_command default_policy w
                       (emit s [EvAct (Log INFO "Creating service account..." [])])
                       2).
  { split; [reflexivity|]. intros j Hj.
    split; [apply (Hfail j); lia|].
    rewrite verdict_failed.
    - unfold exhausted.
      destruct (Z.of_nat j + 1 <? max_num_retries default_policy);
        discriminate.
    - apply (Hfail j). lia. }
  rewrite (reached_pass Hr) by (apply (Hfail 2%nat); lia). cbv zeta.
  rewrite verdict_failed by (apply (Hfail 2%nat); lia).
  reflexivity.
Qed.

(** new.py: when [create] raises [HttpError] the account is fetched and
    its identity is what the step returns. *)
Lemma new_create_service_account_falls_back service project_id account
      email name unique_id project :
  New.sa_create service ("projects/" ++ project_id)%string
                New.service_account_name = inl HttpError ->
  New.sa_get service (New.account_resource project_id) = inr account ->
  getitem account "email" = inr email ->
  getitem account "name" = inr name ->
  getitem account "uniqueId" = inr unique_id ->
  getitem account "projectId" = inr project ->
  snd (New.create_service_account service project_id)
  = inr (JObj [ ("email", email); ("name", name);
                ("unique_id", unique_id); ("project_id", project) ]).
Proof.
  intros Hc Hg He Hn Hu Hp.
  unfold New.create_service_account, New.create_or_get, New.identity_of.
  rewrite Hc, Hg, He, Hn, Hu, Hp. reflexivity.
Qed.

Example new_create_service_account_sample :
  snd (New.create_service_account Samples.iam_with_account "p")
  = inr (JObj [ ("email", JStr "sa@p.iam.gserviceaccount.com");
                ("name",
                 JStr "projects/p/serviceAccounts/sa@p.iam.gserviceaccount.com");
                ("unique_id", JStr "104"); ("project_id", JStr "p") ]).
Proof. reflexivity. Qed.

(** ** Gathered tasks *)

Section ReplaceNth.

Context {A : Type}.

Lemma replace_nth_same (l : list A) : forall i x,
  nth_error l i = Some x -> replace_nth i x l = l.
Proof.
  induction l as [|y l IH]; intros [|i] x H; simpl in *; try discriminate.
  - injection H as ->. reflexivity.
  - rewrite IH by exact H. reflexivity.
Qed.

Lemma nth_error_replace_nth (l : list A) : forall i x y,
  nth_error l i = Some y -> nth_error (replace_nth i x l) i = Some x.
Proof.
  induction l as [|z l IH]; intros [|i] x y H; simpl in *; try discriminate.
  - reflexivity.
  - apply IH with (y := y). exact H.
Qed.

Lemma replace_nth_twice (l : list A) : forall i x y,
  replace_nth i y (replace_nth i x l) = replace_nth i y l.
Proof.
  induction l as [|z l IH]; intros [|i] x y; simpl; try reflexivity.
  rewrite IH. reflexivity.
Qed.

Lemma replace_nth_middle (pre rest : list A) (t x : A) :
  replace_nth (List.length pre) x (pre ++ t :: rest) = pre ++ x :: rest.
Proof.
  induction pre as [|y pre IH]; simpl; [reflexivity|].
  rewrite IH. reflexivity.
Qed.

Lemma nth_error_middle (pre rest : list A) (t : A) :
  nth_error (pre ++ t :: rest) (List.length pre) = Some t.
Proof. induction pre as [|y pre IH]; simpl; auto. Qed.

Lemma In_replace_nth (l : list A) : forall i t x y,
  nth_error l i = Some t -> In y l -> y = t \/ In y (replace_nth i x l).
Proof.
  induction l as [|z l IH]; intros [|i] t x y H Hin; simpl in *;
    try discriminate; try contradiction.
  - injection H as ->. destruct Hin as [->|Hin]; auto.
  - destruct Hin as [->|Hin]; auto.
    destruct (IH i t x y H Hin); auto.
Qed.

Lemma In_replace_nth_new (l : list A) : forall i t x,
  nth_error l i = Some t -> In x (replace_nth i x l).
Proof.
  induction l as [|z l IH]; intros [|i] t x H; simpl in *; try discriminate.
  - left. reflexivity.
  - right. apply IH with (t := t). exact H.
Qed.

Lemma Forall_replace_nth (P : A -> Prop) (l : list A) : forall i x,
  Forall P l -> P x -> Forall P (replace_nth i x l).
Proof.
  induction l as [|z l IH]; intros [|i] x Hl Hx; simpl; auto;
    inversion Hl; subst; constructor; auto.
Qed.

Lemma Forall2_replace_nth {B : Type} (R R' : B -> A -> Prop)
      (keys : list B) (l : list A) : forall i t x,
  Forall2 R keys l ->
  nth_error l i = Some t ->
  (forall b a, R b a -> R' b a) ->
  (forall b, R b t -> R' b x) ->
  Forall2 R' keys (replace_nth i x l).
Proof.
  intros i t x H. revert i.
  induction H as [|b a keys l Hba H IH]; intros [|i] Hn Hmono Hnew;
    simpl in *; try discriminate.
  - injection Hn as ->. constructor; [apply Hnew; exact Hba|].
    clear IH. induction H; constructor; auto.
  - constructor; [apply Hmono; exact Hba|]. apply IH; assumption.
Qed.

End ReplaceNth.

(** An invariant of single steps holds after the whole gathering. *)
Section GatherInvariant.

Variable w : World.
Variable I : list Task -> State -> Prop.

Hypothesis I_step : forall tasks s i t,
  I tasks s -> nth_error tasks i = Some t ->
  I (replace_nth i (fst (step_task t w s)) tasks) (snd (step_task t w s)).

Lemma run_by_steps (p : Prog unit) : forall tasks s i,
  I tasks s -> nth_error tasks i = Some (Ready p) ->
  exists t',
    I (replace_nth i t' tasks) (snd (run p w s))
    /\ match fst (run p w s) with
       | Done _ => t' = Ready (Ret tt)
       | Stopped h => t' = Ready (Stop h)
       end.
Proof.
  induction p as [a|h|a k IH|c k IH|q k IH|k IH|k IH|path k IH|url payload k IH];
    intros tasks s i HI Hn.
  - destruct a. exists (Ready (Ret tt)). simpl.
    rewrite replace_nth_same by exact Hn. auto.
  - exists (Ready (Stop h)). simpl.
    rewrite replace_nth_same by exact Hn. auto.
  - pose proof (I_step _ HI Hn) as H1. simpl in H1.
    destruct (IH _ _ i H1 (nth_error_replace_nth _ _ _ Hn)) as (t' & Ht & Hr).
    rewrite replace_nth_twice in Ht. exists t'. simpl. auto.
  - pose proof (I_step _ HI Hn) as H1. simpl in H1.
    pose proof (I_step _ H1 (nth_error_replace_nth _ _ _ Hn)) as H2.
    simpl in H2. rewrite replace_nth_twice in H2.
    unfold emit in H2; simpl in H2. rewrite <- app_assoc in H2. simpl in H2.
    destruct (IH _ _ _ i H2 (nth_error_replace_nth _ _ _ Hn)) as (t' & Ht & Hr).
    rewrite replace_nth_twice in Ht. exists t'. simpl. auto.
  - pose proof (I_step _ HI Hn) as H1. simpl in H1.
    destruct (IH _ _ _ i H1 (nth_error_replace_nth _ _ _ Hn)) as (t' & Ht & Hr).
    rewrite replace_nth_twice in Ht. exists t'. simpl. auto.
  - pose proof (I_step _ HI Hn) as H1. simpl in H1.
    destruct (IH _ _ _ i H1 (nth_error_replace_nth _ _ _ Hn)) as (t' & Ht & Hr).
    rewrite replace_nth_twice in Ht. exists t'. simpl. auto.
  - pose proof (I_step _ HI Hn) as H1. simpl in H1.
    destruct (IH _ _ _ i H1 (nth_error_replace_nth _ _ _ Hn)) as (t' & Ht & Hr).
    rewrite replace_nth_twice in Ht. exists t'. simpl. auto.
  - pose proof (I_step _ HI Hn) as H1. simpl in H1. simpl.
    destruct (key_file w path) as [e|d]; simpl in *.
    + exists (Ready (Stop (Raised e))). auto.
    + destruct (IH _ _ _ i H1 (nth_error_replace_nth _ _ _ Hn))
        as (t' & Ht & Hr).
      rewrite replace_nth_twice in Ht. exists t'. auto.
  - pose proof (I_step _ HI Hn) as H1. simpl in H1. simpl.
    destruct (http_post w url payload) as [e|st]; simpl in *.
    + exists (Ready (Stop (Raised e))). auto.
    + destruct (IH _ _ _ i H1 (nth_error_replace_nth _ _ _ Hn))
        as (t' & Ht & Hr).
      rewrite replace_nth_twice in Ht. exists t'. auto.
Qed.

Lemma finish_by_steps (t : Task) tasks s i :
  I tasks s -> nth_error tasks i = Some t ->
  exists t',
    I (replace_nth i t' tasks) (snd (finish_task t w s))
    /\ match fst (finish_task t w s) with
       | Done _ => t' = Ready (Ret tt)
       | Stopped h => t' = Ready (Stop h)
       end.
Proof.
  intros HI Hn. destruct t as [p|pid c k].
  - apply run_by_steps; assumption.
  - pose proof (I_step _ HI Hn) as H1. simpl in H1.
    destruct (@run_by_steps _ _ _ i H1 (nth_error_replace_nth _ _ _ Hn))
      as (t' & Ht & Hr).
    rewrite replace_nth_twice in Ht. exists t'. simpl. auto.
Qed.

Lemma drain_invariant (rest : list Task) : forall pre s,
  I (pre ++ rest) s -> Forall finished pre ->
  exists tasks',
    I tasks' (snd (drain rest w s))
    /\ (fst (drain rest w s) = Done tt -> Forall finished tasks').
Proof.
  induction rest as [|t rest IH]; intros pre s HI Hpre.
  - exists pre. simpl. rewrite app_nil_r in HI. auto.
  - destruct (@finish_by_steps t _ _ (List.length pre) HI
                (nth_error_middle pre rest t))
      as (t' & Ht & Hr).
    rewrite replace_nth_middle in Ht. simpl drain.
    destruct (finish_task t w s) as [[[]|h] s1]; simpl in Ht, Hr; subst t'.
    + change (pre ++ Ready (Ret tt) :: rest)
        with (pre ++ [Ready (Ret tt)] ++ rest) in Ht.
      rewrite app_assoc in Ht.
      apply (IH _ _ Ht). apply Forall_app. split; [exact Hpre|].
      constructor; [reflexivity | constructor].
    + exists (pre ++ Ready (Stop h) :: rest). simpl.
      split; [exact Ht | discriminate].
Qed.

Lemma gather_invariant (sched : list nat) : forall tasks s,
  I tasks s ->
  exists tasks',
    I tasks' (snd (gather sched tasks w s))
    /\ (fst (gather sched tasks w s) = Done tt -> Forall finished tasks').
Proof.
  induction sched as [|i sched IH]; intros tasks s HI.
  - simpl. apply (@drain_invariant tasks [] s HI). constructor.
  - simpl. destruct (nth_error tasks i) as [t|] eqn:Hn; [|apply IH; exact HI].
    pose proof (I_step _ HI Hn) as H1.
    destruct (step_task t w s) as [t' s1]. simpl in H1.
    destruct (halted t') as [h|].
    + exists (replace_nth i t' tasks). simpl. split; [exact H1 | discriminate].
    + apply IH. exact H1.
Qed.

End GatherInvariant.

(** ** What programs emit *)

Lemma Emits_weaken {A : Type} (P Q : Event -> Prop) (p : Prog A) :
  (forall e, P e -> Q e) -> Emits P p -> Emits Q p.
Proof.
  intros HPQ.
  induction p as [a|h|a k IH|c k IH|q k IH|k IH|k IH|path k IH|url payload k IH];
    simpl; auto; intros H; intuition auto.
Qed.

Lemma Emits_bind {A B : Type} (P : Event -> Prop) (p : Prog A)
      (f : A -> Prog B) :
  Emits P p -> (forall a, Emits P (f a)) -> Emits P (bind p f).
Proof.
  intros Hp Hf.
  induction p as [a|h|a k IH|c k IH|q k IH|k IH|k IH|path k IH|url payload k IH];
    simpl in *; auto; intuition auto.
Qed.

Lemma run_emits {A : Type} (P : Event -> Prop) (p : Prog A) w : forall s,
  Emits P p ->
  exists evs, trace (snd (run p w s)) = trace s ++ evs /\ Forall P evs.
Proof.
  induction p as [a|h|a k IH|c k IH|q k IH|k IH|k IH|path k IH|url payload k IH];
    intros s Hp; simpl in *;
    try (exists []; rewrite app_nil_r; split; [reflexivity | constructor]).
  - destruct Hp as [Ha Hk].
    destruct (IH (emit s [EvAct a]) Hk) as (evs & E & F).
    exists (EvAct a :: evs). rewrite E. simpl. rewrite <- app_assoc.
    split; [reflexivity | constructor; assumption].
  - destruct Hp as (Hs & Hw & Hk).
    match goal with |- context [run (k ?r) w ?s'] =>
      destruct (IH r s' (Hk r)) as (evs & E & F); rewrite E end.
    simpl. rewrite <- app_assoc. eexists. split; [reflexivity|].
    constructor; [apply Hs | constructor; [apply Hw | exact F]].
  - destruct Hp as (Hq & Hk).
    match goal with |- context [run (k ?r) w ?s'] =>
      destruct (IH r s' (Hk r)) as (evs & E & F); rewrite E end.
    simpl. rewrite <- app_assoc. eexists. split; [reflexivity|].
    constructor; [apply Hq | exact F].
  - apply IH, Hp.
  - apply IH, Hp.
  - destruct Hp as (Ho & Hk). destruct (key_file w path) as [e|d]; simpl.
    + eexists. split; [reflexivity|]. constructor; [apply Ho | constructor].
    + destruct (IH d (emit s [EvLoadKey path (inr d)]) (Hk d)) as (evs & E & F).
      rewrite E. simpl. rewrite <- app_assoc. eexists.
      split; [reflexivity|]. constructor; [apply Ho | exact F].
  - destruct Hp as (Ho & Hk). destruct (http_post w url payload) as [e|st]; simpl.
    + eexists. split; [reflexivity|]. constructor; [apply Ho | constructor].
    + destruct (IH st (emit s [EvPost url payload (inr st)]) (Hk st))
        as (evs & E & F).
      rewrite E. simpl. rewrite <- app_assoc. eexists.
      split; [reflexivity|]. constructor; [apply Ho | exact F].
Qed.

Lemma retry_loop_emits c pol fuel : forall n,
  Emits (RetryEvent c pol n) (retry_loop c pol fuel n).
Proof.
  induction fuel as [|fuel IH]; intros n; simpl;
    destruct (n <=? max_num_retries pol); simpl; auto.
  split; [constructor; lia|].
  split; [intros; constructor|]. split; [intros; constructor|].
  intros r. apply Emits_decoded. simpl. split; [constructor|].
  apply Emits_decoded. simpl. split; [constructor|].
  split; [constructor|].
  destruct (verdict pol n r); simpl; auto.
  - split; [constructor|].
    apply Emits_weaken with (P := RetryEvent c pol (n + 1)); [|apply IH].
    intros e He. destruct He; constructor. lia.
  - apply Emits_decoded. simpl. split; [apply RE_critical | exact Logic.I].
Qed.

Lemma retryable_command_emits c pol :
  Emits (RetryEvent c pol 1) (retryable_command c pol).
Proof. apply retry_loop_emits. Qed.

(** A call that does not suppress errors only returns after the command
    has ended with status zero. *)
Lemma retry_loop_ensures c pol fuel : forall n,
  suppress_errors pol = false ->
  n <= max_num_retries pol ->
  Ensures c (retry_loop c pol fuel n ;; Ret tt).
Proof.
  induction fuel as [|fuel IH]; intros n Hs Hn; simpl;
    destruct (Z.leb_spec n (max_num_retries pol)); try lia; simpl; auto.
  intros r.
  destruct (Z.eqb_spec (return_code r) 0) as [E|E]; [left; auto|].
  right. rewrite bind_decoded. apply Ensures_decoded. simpl.
  rewrite bind_decoded. apply Ensures_decoded. simpl.
  rewrite verdict_failed by exact E. unfold exhausted. rewrite Hs.
  destruct (Z.ltb_spec n (max_num_retries pol)); simpl.
  - apply IH; auto; lia.
  - rewrite bind_decoded. apply Ensures_decoded. exact Logic.I.
Qed.

(** ** Gathering the API calls *)

Lemma spawned_pids_app (t1 t2 : list Event) :
  spawned_pids (t1 ++ t2) = spawned_pids t1 ++ spawned_pids t2.
Proof.
  induction t1 as [|e t1 IH]; simpl; auto.
  destruct e; simpl; rewrite ?IH; auto.
Qed.

Lemma succeeded_app_l c (t1 t2 : list Event) :
  succeeded c t1 -> succeeded c (t1 ++ t2).
Proof.
  intros (pid & r & Hin & Hr). exists pid, r. split; [|exact Hr].
  apply in_or_app. left. exact Hin.
Qed.

Lemma succeeded_app_r c (t1 t2 : list Event) :
  succeeded c t2 -> succeeded c (t1 ++ t2).
Proof.
  intros (pid & r & Hin & Hr). exists pid, r. split; [|exact Hr].
  apply in_or_app. right. exact Hin.
Qed.

(** What one step of a task does to the trace and to the task. *)
Lemma step_task_facts (P : Event -> Prop) t w s :
  exists evs,
    trace (snd (step_task t w s)) = trace s ++ evs
    /\ (TaskEmits P t -> Forall P evs /\ TaskEmits P (fst (step_task t w s)))
    /\ (forall c, TaskEnsures c t ->
          succeeded c evs \/ TaskEnsures c (fst (step_task t w s)))
    /\ (forall pid, In pid (spawned_pids evs) ->
          exists c k, fst (step_task t w s) = Waiting pid c k)
    /\ (forall pid c k, t = Waiting pid c k ->
          existsb (is_wait pid) evs = true).
Proof.
  destruct t as [p|pid c k].
  - destruct p as [a|h|a k|c k|q k|k|k|path k|url payload k]; simpl;
      try destruct (key_file w path) as [e|d];
      try destruct (http_post w url payload) as [e|st]; simpl;
      (eexists;
       split;
       [ first [ reflexivity | symmetry; apply app_nil_r ]
       | repeat split; try discriminate; intros; simpl in *;
         try solve [ contradiction
                   | intuition auto
                   | repeat constructor; intuition auto
                   | match goal with
                     | H : _ \/ False |- _ => destruct H as [<-|[]]; eauto
                     end ] ]).
  - simpl. exists [EvWait pid c (shell_out w pid c)]. repeat split.
    + constructor; [apply H | constructor].
    + apply H.
    + intros c0 H. destruct (H (shell_out w pid c)) as [[E Hr]|He].
      * left. subst c0. exists pid, (shell_out w pid c).
        split; [left; reflexivity|exact Hr].
      * right. exact He.
    + intros pid0 [].
    + intros pid0 c0 k0 E. injection E as -> _ _. simpl.
      rewrite Nat.eqb_refl. reflexivity.
Qed.

Lemma GatherInv_step (P : Event -> Prop) commands tr0 w tasks s i t :
  GatherInv P commands tr0 tasks s ->
  nth_error tasks i = Some t ->
  GatherInv P commands tr0
            (replace_nth i (fst (step_task t w s)) tasks)
            (snd (step_task t w s)).
Proof.
  intros (evs & Htr & HP & HE & Hout & H2) Hn.
  destruct (step_task_facts P t w s) as (new & Hnew & Hem & Hens & Hsp & Hwt).
  assert (Ht : TaskEmits P t).
  { rewrite Forall_forall in HE. apply HE. eapply nth_error_In. exact Hn. }
  destruct (Hem Ht) as [HPnew Ht'].
  exists (evs ++ new). repeat split.
  - rewrite Hnew, Htr, app_assoc. reflexivity.
  - apply Forall_app. split; assumption.
  - apply Forall_replace_nth; assumption.
  - intros pid Hin. rewrite spawned_pids_app in Hin. rewrite existsb_app.
    apply in_app_or in Hin. destruct Hin as [Hin|Hin].
    + destruct (Hout pid Hin) as [Hw|(c & k & Hk)].
      * left. rewrite Hw. reflexivity.
      * destruct (@In_replace_nth _ tasks i t (fst (step_task t w s)) _ Hn Hk)
          as [E|Hin'].
        -- left. rewrite (Hwt pid c k (eq_sym E)). apply orb_true_r.
        -- right. exists c, k. exact Hin'.
    + right. destruct (Hsp pid Hin) as (c & k & E). exists c, k.
      rewrite <- E. apply (@In_replace_nth_new _ tasks i t _ Hn).
  - eapply Forall2_replace_nth; [exact H2 | exact Hn | |].
    + intros c a [Hs|Ha]; [left; apply succeeded_app_l; exact Hs | right; exact Ha].
    + intros c [Hs|Ha]; [left; apply succeeded_app_l; exact Hs|].
      destruct (Hens c Ha) as [Hs|Ha']; [left; apply succeeded_app_r; exact Hs|].
      right. exact Ha'.
Qed.

Lemma filter_none {A : Type} (f : A -> bool) (l : list A) :
  (forall x, In x l -> f x = false) -> filter f l = [].
Proof.
  induction l as [|x l IH]; intros H; simpl; [reflexivity|].
  rewrite (H x) by (left; reflexivity). apply IH.
  intros y Hy. apply H. right. exact Hy.
Qed.

(** Once every task is finished, nothing is outstanding and every command
    has succeeded. *)
Lemma GatherInv_finished (P : Event -> Prop) commands tr0 tasks s :
  GatherInv P commands tr0 tasks s ->
  Forall finished tasks ->
  exists evs,
    trace s = tr0 ++ evs /\ Forall P evs /\ outstanding evs = []
    /\ forall c, In c commands -> succeeded c evs.
Proof.
  intros (evs & Htr & HP & _ & Hout & H2) Hfin.
  exists evs. repeat split; auto.
  - unfold outstanding. apply filter_none. intros pid Hin.
    destruct (Hout pid Hin) as [Hw|(c & k & Hk)].
    + rewrite Hw. reflexivity.
    + rewrite Forall_forall in Hfin. specialize (Hfin _ Hk). discriminate Hfin.
  - intros c Hc. clear Hout. induction H2 as [|c' t cs ts Hct H2 IH].
    + contradiction.
    + inversion Hfin as [|? ? Ht Hts]; subst.
      destruct Hc as [->|Hc]; [|apply IH; assumption].
      destruct Hct as [Hs|He]; [exact Hs|]. rewrite Ht in He. contradiction.
Qed.

Lemma enable_api_emits api :
  Emits (RetryEvent (enable_command api) default_policy 1) (enable_api api).
Proof.
  unfold enable_api. apply Emits_bind; [apply retryable_command_emits|].
  intros _. exact Logic.I.
Qed.

Lemma enable_api_ensures api :
  Ensures (enable_command api) (enable_api api).
Proof.
  unfold enable_api, retryable_command.
  apply retry_loop_ensures; [reflexivity | simpl; lia].
Qed.

Lemma enable_tasks_start (P : Event -> Prop) (apis : list string)
      (tr0 : list Event) (s : State) :
  trace s = tr0 ->
  (forall api e, In api apis ->
     RetryEvent (enable_command api) default_policy 1 e -> P e) ->
  GatherInv P (map enable_command apis) tr0
            (map (fun api => Ready (enable_api api)) apis) s.
Proof.
  intros Htr HP. exists []. repeat split.
  - rewrite app_nil_r. exact Htr.
  - constructor.
  - apply Forall_forall. intros t Ht. apply in_map_iff in Ht.
    destruct Ht as (api & <- & Hin). unfold TaskEmits.
    eapply Emits_weaken; [|apply enable_api_emits]. intros e. apply HP, Hin.
  - intros pid [].
  - clear HP. induction apis as [|api apis IH]; cbn [map]; constructor; auto.
    right. apply enable_api_ensures.
Qed.

Lemma enable_command_inj a b : enable_command a = enable_command b -> a = b.
Proof. unfold enable_command. simpl. intros H. injection H as H. exact H. Qed.

Lemma EnableEvent_not_done e : EnableEvent e -> e <> apis_enabled_log.
Proof.
  intros (api & _ & He) E. subst e. inversion He.
Qed.

(** C8.  The step hands [asyncio.gather] one call per API after the first
    and none for the first.  Under every schedule of the calls' steps: only
    enable commands of those APIs are started; the completion message is
    logged only when the gathering has returned, as the last event; and
    when it is logged no started process is still outstanding and every
    one of those APIs has had its enable command end with status zero. *)
Theorem enable_apis_waits_for_all_calls :
  forall sched w s,
    enable_api_calls = map (fun api => Ready (enable_api api)) (tl APIS)
    /\ List.length enable_api_calls = (List.length APIS - 1)%nat
    /\ exists evs,
         trace (snd (enable_apis sched w s)) =
         trace s ++ EvAct (Log INFO "Enabling APIs..." []) :: evs
         ++ match fst (enable_apis sched w s) with
            | Done _ => [apis_enabled_log]
            | Stopped _ => []
            end
         /\ ~ In apis_enabled_log evs
         /\ (forall pid c, In (EvSpawn pid c) evs ->
               c <> probe_command
               /\ exists api, In api (tl APIS) /\ c = enable_command api)
         /\ (fst (enable_apis sched w s) = Done tt ->
               outstanding evs = []
               /\ forall api, In api (tl APIS) ->
                    succeeded (enable_command api) evs).
Proof.
  intros sched w s.
  split; [reflexivity | split; [reflexivity|]].
  set (s1 := emit s [EvAct (Log INFO "Enabling APIs..." [])]).
  assert (H0 : GatherInv EnableEvent (map enable_command (tl APIS))
                         (trace s1) enable_api_calls s1).
  { apply enable_tasks_start; [reflexivity|].
    intros api e Hin He. exists api. split; assumption. }
  destruct (@gather_invariant w
              (GatherInv EnableEvent (map enable_command (tl APIS)) (trace s1))
              (fun tasks s i t => @GatherInv_step _ _ _ w tasks s i t)
              sched enable_api_calls s1 H0) as (tasks' & HI & Hfin).
  assert (Hrun : enable_apis sched w s =
                 match gather sched enable_api_calls w s1 with
                 | (Done _, s2) => (Done tt, emit s2 [apis_enabled_log])
                 | (Stopped h, s2) => (Stopped h, s2)
                 end).
  { unfold enable_apis, then_run.
    change (run (log INFO "Enabling APIs..." []) w s) with (Done tt, s1).
    cbv iota beta.
    destruct (gather sched enable_api_calls w s1) as [[[]|h] s2]; reflexivity. }
  rewrite Hrun. clear Hrun.
  destruct (gather sched enable_api_calls w s1) as [[[]|h] s2];
    simpl fst in *; simpl snd in *.
  - destruct (GatherInv_finished HI (Hfin eq_refl))
      as (evs & Htr & HP & Hout & Hsucc).
    exists evs. simpl trace. rewrite Htr. unfold s1; simpl.
    rewrite <- !app_assoc. simpl.
    split; [reflexivity|]. split; [|split].
    + intros Hin. rewrite Forall_forall in HP.
      apply (EnableEvent_not_done (HP _ Hin)). reflexivity.
    + intros pid c Hin. rewrite Forall_forall in HP.
      destruct (HP _ Hin) as (api & Hapi & He). inversion He; subst.
      split; [|exists api; auto].
      intros E. apply enable_command_inj in E. subst api.
      simpl in Hapi. intuition discriminate.
    + intros _. split; [exact Hout|]. intros api Hin. apply Hsucc.
      apply in_map. exact Hin.
  - destruct HI as (evs & Htr & HP & _).
    exists evs. rewrite Htr. unfold s1; simpl.
    rewrite <- !app_assoc. simpl. rewrite app_nil_r.
    split; [reflexivity|]. split; [|split].
    + intros Hin. rewrite Forall_forall in HP.
      apply (EnableEvent_not_done (HP _ Hin)). reflexivity.
    + intros pid c Hin. rewrite Forall_forall in HP.
      destruct (HP _ Hin) as (api & Hapi & He). inversion He; subst.
      split; [|exists api; auto].
      intros E. apply enable_command_inj in E. subst api.
      simpl in Hapi. intuition discriminate.
    + discriminate.
Qed.

(** ** The key file: staged, persisted, destroyed *)

Ltac calm_event :=
  unfold Calm; simpl; repeat split; reflexivity.

Ltac calm_log :=
  unfold log, print; cbn [Emits]; split; [calm_event | exact Logic.I].

Section KeyLife.

Variable KEY_FILE : string.

Local Abbreviation calm := (Calm KEY_FILE).
Local Abbreviation started := (destroy_started KEY_FILE).
Local Abbreviation shredded := (shred_spawned KEY_FILE).

Lemma count_app f (t1 t2 : list Event) :
  count f (t1 ++ t2) = (count f t1 + count f t2)%nat.
Proof. unfold count. rewrite filter_app, length_app. reflexivity. Qed.

Lemma calm_quiet (evs : list Event) :
  Forall calm evs ->
  count started evs = 0%nat
  /\ existsb shredded evs = false
  /\ existsb persisted evs = false
  /\ forall e, In e evs -> started e = false.
Proof.
  induction 1 as [|e evs (H1 & H2 & H3) _ (I1 & I2 & I3 & I4)].
  - repeat split; auto. intros e [].
  - unfold count in *. simpl. rewrite H1, H2, H3. simpl.
    repeat split; auto. intros e' [<-|Hin]; auto.
Qed.

Lemma gcloud_not_shred c :
  Str.is_prefix "gcloud " c = true -> String.eqb c (shred_command KEY_FILE) = false.
Proof.
  intros H. destruct (String.eqb_spec c (shred_command KEY_FILE)) as [->|_];
    [|reflexivity].
  simpl in H. discriminate H.
Qed.

Lemma retry_calm c pol lo e :
  Str.is_prefix "gcloud " c = true -> RetryEvent c pol lo e -> calm e.
Proof.
  intros Hc He. pose proof (gcloud_not_shred _ Hc) as Hne.
  destruct He; unfold Calm; simpl; rewrite ?Hne, ?andb_false_r; auto.
Qed.

Lemma retryable_calm {A : Type} c pol (f : option CommandResult -> Prog A) :
  Str.is_prefix "gcloud " c = true ->
  (forall r, Emits calm (f r)) ->
  Emits calm (bind (retryable_command c pol) f).
Proof.
  intros Hc Hf. apply Emits_bind; [|exact Hf].
  eapply Emits_weaken; [|apply retryable_command_emits].
  intros e. apply retry_calm. exact Hc.
Qed.

Lemma unpacking_calm {A : Type} c pol (f : CommandResult -> Prog A) :
  Str.is_prefix "gcloud " c = true ->
  (forall r, Emits calm (f r)) ->
  Emits calm (bind (unpacking_call c pol) f).
Proof.
  intros Hc Hf. apply Emits_bind; [|exact Hf].
  unfold unpacking_call. apply retryable_calm; [exact Hc|].
  intros [r|]; exact Logic.I.
Qed.

Lemma create_project_calm : Emits calm create_project.
Proof.
  unfold create_project. apply Emits_bind; [calm_log|]. intros _.
  cbn [Emits]. intros ms stamp. cbv zeta.
  apply retryable_calm; [reflexivity|]. intros _. calm_log.
Qed.

Lemma tos_notice_calm err : Emits calm (tos_notice err).
Proof.
  unfold tos_notice.
  destruct (Str.contains "universal" err);
    [|destruct (Str.contains "appsadmin" err)];
    try exact Logic.I;
    (apply Emits_bind; [calm_log | intros _; calm_log]).
Qed.

Lemma tos_loop_calm fuel : forall acc, Emits calm (tos_loop fuel acc).
Proof.
  induction fuel as [|fuel IH]; intros acc; cbn [tos_loop APIS];
    destruct (negb acc); try exact Logic.I.
  unfold tos_pass. apply unpacking_calm; [reflexivity|]. intros t.
  destruct (negb (return_code t =? 0)); [|apply IH].
  apply Emits_decoded. cbv beta.
  destruct (Str.contains tos_marker (stderr t)).
  - apply Emits_bind; [apply tos_notice_calm|]. intros _.
    unfold input. cbn [bind Emits].
    split; [intros a; calm_event|]. intros a.
    destruct (String.eqb (Str.lower a) "n"); [exact Logic.I | apply IH].
  - apply Emits_bind; [calm_log|]. intros _. exact Logic.I.
Qed.

Lemma verify_tos_accepted_calm fuel : Emits calm (verify_tos_accepted fuel).
Proof.
  unfold verify_tos_accepted. apply Emits_bind; [calm_log|]. intros _.
  apply Emits_bind; [apply tos_loop_calm|]. intros _. calm_log.
Qed.

Lemma create_service_account_calm : Emits calm create_service_account.
Proof.
  unfold create_service_account. apply Emits_bind; [calm_log|]. intros _.
  apply retryable_calm; [reflexivity|]. intros _. calm_log.
Qed.

Lemma getter_calm {A : Type} c (f : string -> Prog A) :
  Str.is_prefix "gcloud " c = true ->
  (forall x, Emits calm (f x)) ->
  Emits calm (bind (t <- unpacking_call c output_policy ;;
                    decoded (stdout t) (fun text => Ret (Str.rstrip text)))
                   f).
Proof.
  intros Hc Hf. apply Emits_bind; [|exact Hf].
  apply unpacking_calm; [exact Hc|]. intros r.
  apply Emits_decoded. exact Logic.I.
Qed.

Lemma authorize_service_account_calm : Emits calm authorize_service_account.
Proof.
  unfold authorize_service_account, get_service_account_id.
  apply getter_calm; [reflexivity|]. intros x.
  unfold input. cbn [bind Emits].
  split; [intros a; calm_event|]. intros a.
  destruct (String.eqb (Str.lower a) "n"); exact Logic.I.
Qed.

Lemma create_service_account_key_calm :
  Emits calm (create_service_account_key KEY_FILE).
Proof.
  unfold create_service_account_key, get_service_account_email.
  apply Emits_bind; [calm_log|]. intros _.
  apply getter_calm; [reflexivity|]. intros email.
  apply retryable_calm; [reflexivity|]. intros _. calm_log.
Qed.

End KeyLife.

Lemma split_after_quiet {A : Type} (f : A -> bool) (l1 : list A) :
  (forall x, In x l1 -> f x = false) ->
  forall l2 pre e post,
    l1 ++ l2 = pre ++ e :: post -> f e = true ->
    exists pre', pre = l1 ++ pre' /\ l2 = pre' ++ e :: post.
Proof.
  induction l1 as [|x l1 IH]; intros Hq l2 pre e post E He.
  - exists pre. auto.
  - destruct pre as [|y pre].
    + simpl in E. injection E as -> _.
      rewrite (Hq e) in He by (left; reflexivity). discriminate.
    + simpl in E. injection E as -> E.
      destruct (IH (fun x' H => Hq x' (or_intror H)) l2 pre e post E He)
        as (pre' & -> & ->).
      exists pre'. auto.
Qed.

Section KeyRuns.

Variable KEY_FILE : string.

Local Abbreviation calm := (Calm KEY_FILE).
Local Abbreviation started := (destroy_started KEY_FILE).
Local Abbreviation shredded := (shred_spawned KEY_FILE).

Lemma calm_run_prog {A : Type} (p : Prog A) :
  Emits calm p -> CalmRun KEY_FILE (run p).
Proof. intros Hp w s. apply run_emits. exact Hp. Qed.

Lemma calm_enable_apis sched : CalmRun KEY_FILE (enable_apis sched).
Proof.
  intros w s.
  set (s1 := emit s [EvAct (Log INFO "Enabling APIs..." [])]).
  assert (H0 : GatherInv calm (map enable_command (tl APIS))
                         (trace s1) enable_api_calls s1).
  { apply enable_tasks_start; [reflexivity|].
    intros api e _ He. eapply retry_calm; [|exact He]. reflexivity. }
  destruct (@gather_invariant w
              (GatherInv calm (map enable_command (tl APIS)) (trace s1))
              (fun tasks s i t => @GatherInv_step _ _ _ w tasks s i t)
              sched enable_api_calls s1 H0) as (tasks' & HI & _).
  destruct HI as (evs & Htr & HP & _).
  unfold enable_apis, then_run.
  change (run (log INFO "Enabling APIs..." []) w s) with (Done tt, s1).
  cbv iota beta.
  destruct (gather sched enable_api_calls w s1) as [[[]|h] s2];
    simpl snd in *.
  - exists (EvAct (Log INFO "Enabling APIs..." []) :: evs ++ [apis_enabled_log]).
    simpl. rewrite Htr. unfold s1; simpl. rewrite <- !app_assoc. simpl.
    split; [reflexivity|]. constructor; [calm_event|].
    apply Forall_app. split; [exact HP|]. constructor; [calm_event|constructor].
  - exists (EvAct (Log INFO "Enabling APIs..." []) :: evs).
    rewrite Htr. unfold s1; simpl. rewrite <- !app_assoc. simpl.
    split; [reflexivity|]. constructor; [calm_event | exact HP].
Qed.

Lemma settled_of_calm {A : Type} (m : Run A) :
  CalmRun KEY_FILE m -> Settled KEY_FILE m.
Proof.
  intros Hm w s. destruct (Hm w s) as (evs & Htr & Hc).
  destruct (calm_quiet Hc) as (H1 & H2 & H3 & H4).
  exists evs. rewrite H1, H2, H3. repeat split; auto.
  intros pre e post -> He. rewrite H4 in He; [discriminate|].
  apply in_or_app. right. left. reflexivity.
Qed.

Lemma settled_then {A B : Type} (m : Run A) (f : A -> Run B) :
  CalmRun KEY_FILE m -> (forall a, Settled KEY_FILE (f a)) ->
  Settled KEY_FILE (then_run m f).
Proof.
  intros Hm Hf w s. unfold then_run.
  destruct (Hm w s) as (e1 & Htr1 & Hc).
  destruct (m w s) as [[a|h] s1]; simpl snd in *.
  - destruct (Hf a w s1) as (e2 & Htr2 & Hn & Hs & Ho).
    destruct (calm_quiet Hc) as (H1 & H2 & H3 & H4).
    exists (e1 ++ e2). rewrite Htr2, Htr1, app_assoc.
    rewrite count_app, !existsb_app, H1, H2, H3. simpl.
    repeat split; auto.
    intros pre e post E He.
    destruct (split_after_quiet started e1 H4 e2 pre e post E He)
      as (pre' & Epre & E2).
    subst pre. rewrite existsb_app. rewrite (Ho pre' e post E2 He). apply orb_true_r.
  - destruct (calm_quiet Hc) as (H1 & H2 & H3 & H4).
    exists e1. rewrite H1, H2, H3. repeat split; auto.
    intros pre e post -> He. rewrite H4 in He; [discriminate|].
    apply in_or_app. right. left. reflexivity.
Qed.

End KeyRuns.

Section KeyTail.

Variable KEY_FILE : string.

Local Abbreviation calm := (Calm KEY_FILE).
Local Abbreviation started := (destroy_started KEY_FILE).
Local Abbreviation shredded := (shred_spawned KEY_FILE).

Lemma get_admin_user_email_calm : Emits calm get_admin_user_email.
Proof.
  unfold get_admin_user_email.
  apply unpacking_calm; [reflexivity|]. intros r.
  apply Emits_decoded. exact Logic.I.
Qed.

(** The persistence step either returns with the sink's answer as its
    last event, after calm events only, or stops after calm events. *)
Lemma download_run w s :
  exists pre,
    Forall calm pre
    /\ match fst (run (download_service_account_key KEY_FILE) w s) with
       | Done st =>
           exists u d,
             trace (snd (run (download_service_account_key KEY_FILE) w s))
             = trace s ++ pre ++ [EvPost u d (inr st)]
       | Stopped _ =>
           trace (snd (run (download_service_account_key KEY_FILE) w s))
           = trace s ++ pre
       end.
Proof.
  unfold download_service_account_key. rewrite run_bind.
  destruct (@run_emits _ calm get_admin_user_email w s
                      get_admin_user_email_calm) as (e1 & Htr1 & Hc1).
  destruct (run get_admin_user_email w s) as [[email|h] s1]; simpl snd in *.
  2:{ exists e1. split; [exact Hc1 | exact Htr1]. }
  destruct (Str.split_on "@" email) as [|a [|domain rest]];
    try (exists e1; split; [exact Hc1 | exact Htr1]).
  simpl run. destruct (key_file w KEY_FILE) as [e|d]; simpl.
  - exists (e1 ++ [EvLoadKey KEY_FILE (inl e)]). rewrite Htr1, app_assoc.
    split; [|reflexivity]. apply Forall_app. split; [exact Hc1|].
    constructor; [calm_event | constructor].
  - match goal with |- context [http_post w ?u ?p] =>
      destruct (http_post w u p) as [e|st]; simpl end.
    + eexists (e1 ++ [_; _; _; _; _]). rewrite Htr1, <- !app_assoc. simpl.
      split; [|reflexivity]. apply Forall_app. split; [exact Hc1|].
      repeat constructor.
    + eexists (e1 ++ [_; _; _; _]). split.
      2:{ do 2 eexists. rewrite Htr1, <- !app_assoc. simpl. reflexivity. }
      apply Forall_app. split; [exact Hc1|]. repeat constructor.
Qed.

Lemma retry_later_quiet pol (evs : list Event) :
  Forall (RetryEvent (shred_command KEY_FILE) pol 2) evs ->
  count started evs = 0%nat
  /\ existsb persisted evs = false
  /\ forall e, In e evs -> started e = false.
Proof.
  assert (Hq : forall e, RetryEvent (shred_command KEY_FILE) pol 2 e ->
                         started e = false /\ persisted e = false).
  { intros e He. destruct He; simpl; auto.
    destruct (Z.eqb_spec n 1); [lia | auto]. }
  induction 1 as [|e evs He _ (I1 & I2 & I3)].
  - repeat split; auto. intros e [].
  - destruct (Hq e He) as [Q1 Q2]. unfold count in *. simpl.
    rewrite Q1, Q2. simpl. repeat split; auto.
    intros e' [<-|Hin]; auto.
Qed.

(** The destroy step announces its first attempt as its first event and
    never again, starts shred, and is never answered by the sink. *)
Lemma delete_key_run w s :
  exists later,
    trace (snd (run (delete_key KEY_FILE) w s))
    = trace s
      ++ EvAct (Log DEBUG exec_fmt [VInt 1; VStr (shred_command KEY_FILE)])
      :: EvSpawn (procs s) (shred_command KEY_FILE)
      :: later
    /\ count started later = 0%nat
    /\ existsb persisted later = false
    /\ forall e, In e later -> started e = false.
Proof.
  unfold delete_key. rewrite run_bind.
  unfold retryable_command. simpl Z.to_nat.
  change (Pos.to_nat 3) with 3%nat.
  destruct (decodable (shell_out w (procs s) (shred_command KEY_FILE)))
    eqn:Hd.
  2:{ rewrite retry_loop_garbled by (try exact Hd; simpl; lia).
      unfold garbled_events, launch_events, after_pass.
      destruct (Utf8.valid
                  (stdout (shell_out w (procs s) (shred_command KEY_FILE))));
        simpl; (eexists; split; [reflexivity|]);
        unfold count; simpl; repeat split; auto;
        intros e H;
        repeat (destruct H as [<-|H]; [reflexivity|]); contradiction. }
  rewrite retry_loop_pass by (try exact Hd; simpl; lia). cbv zeta.
  set (r := shell_out w (procs s) (shred_command KEY_FILE)).
  assert (Hlogs : forall extra,
            count started extra = 0%nat -> existsb persisted extra = false ->
            (forall e, In e extra -> started e = false) ->
            let later := EvWait (procs s) (shred_command KEY_FILE) r
                         :: EvAct (Log DEBUG "stdout: %s" [VStr (stdout r)])
                         :: EvAct (Log DEBUG "stderr: %s" [VStr (stderr r)])
                         :: EvAct (Log DEBUG "Return code: %d"
                                       [VInt (return_code r)])
                         :: extra in
            count started later = 0%nat
            /\ existsb persisted later = false
            /\ forall e, In e later -> started e = false).
  { intros extra H1 H2 H3. cbv zeta. unfold count in *. simpl.
    repeat split; auto.
    intros e [<-|[<-|[<-|[<-|Hin]]]]; auto. }
  destruct (verdict default_policy 1 r).
  - eexists. simpl. split; [reflexivity|].
    apply (Hlogs []); auto. intros e [].
  - match goal with |- context [run (retry_loop ?c ?pol ?f ?n) w ?s'] =>
      destruct (@run_emits _ _ (retry_loop c pol f n) w s'
                          (retry_loop_emits c pol f n))
        as (e2 & Htr2 & Hc2);
      destruct (run (retry_loop c pol f n) w s') as [[x|h] s2]
    end; simpl snd in *; simpl run;
      destruct (retry_later_quiet Hc2) as (Q1 & Q2 & Q3);
      rewrite Htr2; unfold after_pass; simpl; rewrite <- !app_assoc; simpl;
      (eexists; split; [reflexivity|]);
      apply (Hlogs (EvAct (Sleep (retry_delay default_policy)) :: e2));
      auto;
      intros e [<-|Hin]; auto.
  - eexists. simpl. split; [reflexivity|].
    apply (Hlogs []); auto. intros e [].
  - eexists. simpl. rewrite <- ?app_assoc. simpl. split; [reflexivity|].
    apply (Hlogs [critical_log r]); auto.
    intros e [<-|[]]; reflexivity.
Qed.

End KeyTail.

Section KeySettled.

Variable KEY_FILE : string.

Local Abbreviation calm := (Calm KEY_FILE).
Local Abbreviation started := (destroy_started KEY_FILE).
Local Abbreviation shredded := (shred_spawned KEY_FILE).

Lemma started_first :
  started (EvAct (Log DEBUG exec_fmt [VInt 1; VStr (shred_command KEY_FILE)]))
  = true.
Proof. simpl. rewrite String.eqb_refl. reflexivity. Qed.

Lemma shredded_spawn pid :
  shredded (EvSpawn pid (shred_command KEY_FILE)) = true.
Proof. simpl. apply String.eqb_refl. Qed.

(** The events of a run in which the sink answered and the destroy step
    was entered. *)
Lemma settled_events pre u d st pid later :
  Forall calm pre ->
  count started later = 0%nat ->
  existsb persisted later = false ->
  (forall e, In e later -> started e = false) ->
  let evs :=
    pre ++ EvPost u d (inr st)
        :: EvAct (Log DEBUG exec_fmt [VInt 1; VStr (shred_command KEY_FILE)])
        :: EvSpawn pid (shred_command KEY_FILE) :: later in
  count started evs = (if existsb persisted evs then 1 else 0)%nat
  /\ existsb shredded evs = existsb persisted evs
  /\ forall pre0 e post,
       evs = pre0 ++ e :: post -> started e = true ->
       existsb persisted pre0 = true.
Proof.
  intros Hc L1 L2 L3 evs.
  destruct (calm_quiet Hc) as (H1 & H2 & H3 & H4).
  assert (Hp : existsb persisted evs = true).
  { unfold evs. rewrite existsb_app. simpl. apply orb_true_r. }
  rewrite Hp. split; [|split].
  - unfold evs. rewrite count_app, H1. unfold count in *.
    cbn [filter]. rewrite started_first.
    change (started (EvPost u d (inr st))) with false.
    change (started (EvSpawn pid (shred_command KEY_FILE))) with false.
    cbn iota. cbn [List.length]. rewrite L1. reflexivity.
  - unfold evs. rewrite existsb_app. cbn [existsb].
    rewrite shredded_spawn. rewrite !orb_true_r. reflexivity.
  - intros pre0 e post E He.
    assert (Hq : forall x, In x (pre ++ [EvPost u d (inr st)]) ->
                           started x = false).
    { intros x Hx. apply in_app_or in Hx.
      destruct Hx as [Hx|[<-|[]]]; auto. }
    unfold evs in E.
    change (pre ++ EvPost u d (inr st)
                :: EvAct (Log DEBUG exec_fmt
                              [VInt 1; VStr (shred_command KEY_FILE)])
                :: EvSpawn pid (shred_command KEY_FILE) :: later)
      with (pre ++ [EvPost u d (inr st)]
                ++ EvAct (Log DEBUG exec_fmt
                              [VInt 1; VStr (shred_command KEY_FILE)])
                :: EvSpawn pid (shred_command KEY_FILE) :: later) in E.
    rewrite app_assoc in E.
    destruct (split_after_quiet started _ Hq _ pre0 e post E He)
      as (pre' & -> & _).
    rewrite !existsb_app. simpl. rewrite !orb_true_r. reflexivity.
Qed.

Lemma tail_settled :
  Settled KEY_FILE
    (then_run (run (download_service_account_key KEY_FILE)) (fun _ =>
     then_run (run (delete_key KEY_FILE)) (fun _ =>
     run (log INFO ("Done! " ++ Str.check) [])))).
Proof.
  intros w s. unfold then_run.
  destruct (download_run KEY_FILE w s) as (pre & Hc & H).
  destruct (run (download_service_account_key KEY_FILE) w s)
    as [[st|h] s1]; simpl fst in H; simpl snd in H.
  - destruct H as (u & d & Htr1).
    destruct (delete_key_run KEY_FILE w s1) as (later & Htr2 & L1 & L2 & L3).
    destruct (run (delete_key KEY_FILE) w s1) as [[[]|h] s2];
      simpl snd in *.
    + simpl run. simpl snd. simpl trace.
      rewrite Htr2, Htr1, <- !app_assoc. simpl.
      eexists. split; [reflexivity|].
      apply settled_events; auto.
      * unfold count in *. rewrite filter_app, length_app. simpl.
        rewrite L1. reflexivity.
      * rewrite existsb_app, L2. reflexivity.
      * intros e He. apply in_app_or in He.
        destruct He as [He|[<-|[]]]; auto.
    + rewrite Htr2, Htr1, <- !app_assoc. simpl.
      eexists. split; [reflexivity|].
      apply settled_events; auto.
  - destruct (calm_quiet Hc) as (H1 & H2 & H3 & H4).
    exists pre. rewrite H1, H2, H3. repeat split; auto.
    intros pre0 e post -> He. rewrite H4 in He; [discriminate|].
    apply in_or_app. right. left. reflexivity.
Qed.

Lemma main_settled fuel sched : Settled KEY_FILE (main KEY_FILE fuel sched).
Proof.
  unfold main.
  apply settled_then.
  { apply calm_run_prog. unfold print. cbn [Emits].
    repeat split; reflexivity. }
  intros _. apply settled_then; [apply calm_run_prog, create_project_calm|].
  intros _. apply settled_then;
    [apply calm_run_prog, verify_tos_accepted_calm|].
  intros _. apply settled_then; [apply calm_enable_apis|].
  intros _. apply settled_then;
    [apply calm_run_prog, create_service_account_calm|].
  intros _. apply settled_then;
    [apply calm_run_prog, authorize_service_account_calm|].
  intros _. apply settled_then;
    [apply calm_run_prog, create_service_account_key_calm|].
  intros _. apply tail_settled.
Qed.

End KeySettled.

(** A run of the step: with every command succeeding and the four calls
    interleaved, the step completes and nothing is outstanding. *)
Lemma enable_apis_waits_for_all_calls_witness :
  fst (enable_apis [0; 1; 2; 3; 3; 2; 1; 0; 0; 2]%nat Samples.all_ok init)
  = Done tt
  /\ exists evs,
       trace (snd (enable_apis [0; 1; 2; 3; 3; 2; 1; 0; 0; 2]%nat
                               Samples.all_ok init))
       = EvAct (Log INFO "Enabling APIs..." []) :: evs ++ [apis_enabled_log]
       /\ outstanding evs = []
       /\ spawned_pids evs = [0; 1; 2; 3]%nat.
Proof.
  assert (Hd : fst (enable_apis [0; 1; 2; 3; 3; 2; 1; 0; 0; 2]%nat
                                Samples.all_ok init) = Done tt)
    by (vm_compute; reflexivity).
  split; [exact Hd|].
  destruct (enable_apis_waits_for_all_calls
              [0; 1; 2; 3; 3; 2; 1; 0; 0; 2]%nat Samples.all_ok init)
    as (_ & _ & evs & Htr & _ & _ & Hdone).
  rewrite Hd in Htr. simpl trace in Htr at 2. simpl app in Htr.
  exists evs. split; [exact Htr|]. split; [apply Hdone; exact Hd|].
  revert Htr. vm_compute. intros Htr. injection Htr as Htr.
  repeat (destruct evs as [|? evs]; [discriminate Htr | injection Htr as <- Htr]).
  destruct evs; [reflexivity | destruct evs; discriminate Htr].
Defined.

(** C5, as the code has it.  In every run of [main], [delete_key] is
    entered exactly once when the persistence step has returned (the sink
    answered the POST, with whatever status) and not at all otherwise;
    shred is started on the key file in the first case and never in the
    second; and the entry comes after the sink's answer. *)
Theorem delete_key_after_persistence :
  forall KEY_FILE fuel sched w s,
    exists evs,
      trace (snd (main KEY_FILE fuel sched w s)) = trace s ++ evs
      /\ count (destroy_started KEY_FILE) evs
         = (if existsb persisted evs then 1 else 0)%nat
      /\ existsb (shred_spawned KEY_FILE) evs = existsb persisted evs
      /\ forall pre e post,
           evs = pre ++ e :: post -> destroy_started KEY_FILE e = true ->
           existsb persisted pre = true.
Proof.
  intros KEY_FILE fuel sched w s. apply main_settled.
Qed.

(** A run in which the sink answers with status 500: the key is staged,
    the answer is ignored, and the key file is shredded once. *)
Example main_sink_error :
  let r := main Samples.sample_key_file 1 [] Samples.all_well init in
  fst r = Done tt
  /\ existsb (key_staged Samples.sample_key_file) (trace (snd r)) = true
  /\ count (destroy_started Samples.sample_key_file) (trace (snd r)) = 1%nat
  /\ count (shred_spawned Samples.sample_key_file) (trace (snd r)) = 1%nat.
Proof. vm_compute. repeat split; reflexivity. Qed.

(** C5 as stated fails: when the sink cannot be reached the POST raises,
    [main] ends there, and the staged key file is never shredded. *)
Lemma destroy_skipped_counterexample :
  ~ (forall KEY_FILE fuel sched w,
       existsb (key_staged KEY_FILE)
               (trace (snd (main KEY_FILE fuel sched w init))) = true ->
       count (destroy_started KEY_FILE)
             (trace (snd (main KEY_FILE fuel sched w init))) = 1%nat).
Proof.
  intros H.
  specialize (H Samples.sample_key_file 1%nat [] Samples.sink_down).
  vm_compute in H. specialize (H eq_refl). discriminate H.
Qed.

Example main_sink_down :
  let r := main Samples.sample_key_file 1 [] Samples.sink_down init in
  fst r = Stopped (Raised ConnectionError)
  /\ existsb (key_staged Samples.sample_key_file) (trace (snd r)) = true
  /\ existsb (shred_spawned Samples.sample_key_file) (trace (snd r)) = false.
Proof. vm_compute. repeat split; reflexivity. Qed.

(** * Further properties of the code *)

(** ** The response classifiers *)

(** [is_api_disabled] never raises; it answers [True] for a missing
    response, and otherwise exactly when the response parses and
    ["it is disabled" in api_response["error"]["message"]] evaluates to
    [True]. *)
Theorem is_api_disabled_iff :
  forall (json_loads : string -> option JSON) raw_api_response,
    is_api_disabled json_loads raw_api_response = true
    <-> raw_api_response = None
        \/ exists raw api_response message,
             raw_api_response = Some raw
             /\ json_loads raw = Some api_response
             /\ error_message_of api_response = inr message
             /\ py_in "it is disabled" message = inr true.
Proof.
  intros json_loads [raw|]; simpl.
  - split.
    + intros H. right.
      destruct (json_loads raw) as [resp|] eqn:Ep; [|discriminate].
      destruct (error_message_of resp) as [e|m] eqn:Em; [discriminate|].
      destruct (py_in "it is disabled" m) as [e|b] eqn:Ei; [discriminate|].
      subst b. exists raw, resp, m. auto.
    + intros [H|(raw' & resp & m & E & Ep & Em & Ei)]; [discriminate|].
      injection E as <-. rewrite Ep, Em, Ei. reflexivity.
  - split; auto.
Qed.

(** [is_service_disabled] never raises; it answers [True] for a missing
    response, and otherwise exactly when the response parses and either
    [error.errors[0].reason] can be read or
    ["service not enabled" in api_response["error"]["message"]] evaluates
    to [True]. *)
Theorem is_service_disabled_iff :
  forall (json_loads : string -> option JSON) raw_api_response,
    is_service_disabled json_loads raw_api_response = true
    <-> raw_api_response = None
        \/ exists raw api_response,
             raw_api_response = Some raw
             /\ json_loads raw = Some api_response
             /\ ((exists error_reason,
                    error_reason_of api_response = inr error_reason)
                 \/ exists message,
                      error_message_of api_response = inr message
                      /\ py_in "service not enabled" message = inr true).
Proof.
  intros json_loads [raw|]; [|split; auto].
  unfold is_service_disabled, reason_check, message_check.
  destruct (json_loads raw) as [resp|] eqn:Ep.
  - destruct (error_reason_of resp) as [e|reason] eqn:Er.
    + destruct (error_message_of resp) as [e'|m] eqn:Em.
      * split; [discriminate|].
        intros [H|(raw' & resp' & E & Ep' & [(x & Hx)|(m & Hm & _)])];
          try discriminate; injection E as <-; rewrite Ep in Ep';
          injection Ep' as <-; congruence.
      * destruct (py_in "service not enabled" m) as [e'|[|]] eqn:Ei.
        -- split; [discriminate|].
           intros [H|(raw' & resp' & E & Ep' & [(x & Hx)|(m' & Hm & Hi)])];
             try discriminate; injection E as <-; rewrite Ep in Ep';
             injection Ep' as <-; congruence.
        -- split; [|reflexivity]. intros _. right. exists raw, resp.
           split; [reflexivity|]. split; [exact Ep|]. right. exists m. auto.
        -- split; [discriminate|].
           intros [H|(raw' & resp' & E & Ep' & [(x & Hx)|(m' & Hm & Hi)])];
             try discriminate; injection E as <-; rewrite Ep in Ep';
             injection Ep' as <-; congruence.
    + rewrite disabled_reason_test_constant. simpl.
      split; [|reflexivity]. intros _. right. exists raw, resp.
      split; [reflexivity|]. split; [exact Ep|]. left. exists reason. auto.
  - split; [discriminate|].
    intros [H|(raw' & resp' & E & Ep' & _)]; [discriminate|].
    injection E as <-. congruence.
Qed.

(** ** The alphabet of the encoded scope parameter *)

Lemma chars_app (a b : string) :
  list_ascii_of_string (a ++ b)%string
  = list_ascii_of_string a ++ list_ascii_of_string b.
Proof. induction a as [|c a IH]; simpl; [reflexivity | rewrite IH; reflexivity]. Qed.

Lemma quote_byte_alphabet_bool (c : ascii) :
  forallb (fun x => Url.always_safe x || Ascii.eqb x Url.percent)%bool
          (list_ascii_of_string (Url.quote_byte c)) = true.
Proof.
  destruct c as [b0 b1 b2 b3 b4 b5 b6 b7].
  destruct b0, b1, b2, b3, b4, b5, b6, b7; reflexivity.
Qed.

Lemma quote_byte_alphabet (c : ascii) :
  Forall (fun x => Url.always_safe x = true \/ x = Url.percent)
         (list_ascii_of_string (Url.quote_byte c)).
Proof.
  apply Forall_forall. intros x Hx.
  pose proof (quote_byte_alphabet_bool c) as H.
  rewrite forallb_forall in H. specialize (H x Hx).
  apply orb_true_iff in H. destruct H as [H|H]; [left; exact H|].
  right. apply Ascii.eqb_eq. exact H.
Qed.

(** Every byte [quote(s, safe='')] produces is a letter, a digit, one of
    [_.-~] or a percent sign.  So no byte that is neither (such as [&],
    [=], [#], [,], [/], [:] or a space) occurs in the scope parameter of
    either script, and in particular the parameter cannot end early or
    start another query parameter of the delegation URL. *)
Theorem scope_parameter_alphabet :
  forall scopes : list string,
    Forall (fun x => Url.always_safe x = true \/ x = Url.percent)
           (list_ascii_of_string (scope_parameter scopes))
    /\ forall c, Url.always_safe c = false -> c <> Url.percent ->
                 ~ In c (list_ascii_of_string (scope_parameter scopes)).
Proof.
  intros scopes. unfold scope_parameter.
  assert (H : forall s, Forall (fun x => Url.always_safe x = true
                                        \/ x = Url.percent)
                               (list_ascii_of_string (Url.quote s))).
  { induction s as [|c s IH]; simpl; [constructor|].
    rewrite chars_app. apply Forall_app. split; [apply quote_byte_alphabet|exact IH]. }
  split; [apply H|].
  intros c Hs Hp Hin. specialize (H (Str.join "," scopes)).
  rewrite Forall_forall in H. destruct (H c Hin); congruence.
Qed.

(** ** The getters *)

Lemma rstrip_split (l : list Utf8.Char) :
  exists ws, l = Utf8.rstrip l ++ ws
             /\ Forall (fun c => Utf8.is_space (Utf8.code c) = true) ws.
Proof.
  induction l as [|c l IH].
  - exists []. split; [reflexivity | constructor].
  - destruct IH as (ws & E & F). simpl.
    destruct (Utf8.rstrip l) as [|c' t] eqn:Er; simpl in E.
    + subst ws. destruct (Utf8.is_space (Utf8.code c)) eqn:Ec.
      * exists (c :: l). split; [reflexivity|].
        constructor; assumption.
      * exists l. split; [reflexivity | exact F].
    + exists ws. split; [|exact F]. simpl. f_equal. exact E.
Qed.

Lemma rstrip_last (l : list Utf8.Char) : forall x c,
  Utf8.rstrip l = x ++ [c] -> Utf8.is_space (Utf8.code c) = false.
Proof.
  induction l as [|a l IH]; intros x c E.
  - destruct x; discriminate E.
  - simpl in E. destruct (Utf8.rstrip l) as [|c' t] eqn:Er.
    + destruct (Utf8.is_space (Utf8.code a)) eqn:Ea.
      * destruct x; discriminate E.
      * destruct x as [|y [|z x]]; simpl in E; try discriminate E.
        injection E as <-. exact Ea.
    + destruct x as [|y x]; simpl in E; [discriminate E|].
      injection E as _ E. apply (IH x c). exact E.
Qed.

Lemma output_policy_verdict n r :
  (verdict output_policy n r = Success
   <-> return_code r = 0 /\ stdout r <> EmptyString)
  /\ (no_output r -> verdict output_policy n r = exhausted output_policy n).
Proof.
  split.
  - rewrite success_condition_verdict. unfold success_condition. simpl.
    split; [intros [H [H'|H']]; [discriminate | auto] | intros [H H']; auto].
  - intros [_ Hn]. apply verdict_not_Success. intros Hs.
    apply success_condition_verdict in Hs. destruct Hs as [H [H'|H']];
      [discriminate|]. destruct Hn; contradiction.
Qed.

Lemma getter_reached c w s i :
  (i < 3)%nat ->
  (forall j, (j < i)%nat -> no_output (attempt_result w s c j)) ->
  reached c output_policy w s i.
Proof.
  intros Hi Hj. split; [simpl; lia|].
  intros j Hlt. destruct (Hj j Hlt) as [Hd Hn]. split; [exact Hd|].
  intros Hs. apply output_policy_verdict in Hs. destruct Hs as [H0 Hout].
  destruct Hn; contradiction.
Qed.

Lemma getter_shape g c :
  In (g, c) getters ->
  g = (t <- unpacking_call c output_policy ;;
       decoded (stdout t) (fun text => Ret (Str.rstrip text))).
Proof.
  intros [E|[E|[E|[E|[]]]]]; injection E as <- <-; reflexivity.
Qed.

(** Each getter returns the output of the first attempt that is decoded,
    ends with status 0 and prints something, with the trailing whitespace
    characters removed (those [str.isspace] accepts, such as a no-break
    space), and runs the command no more often than that. *)
Theorem getter_returns_stripped_output :
  forall g c w s i,
    In (g, c) getters ->
    (i < 3)%nat ->
    (forall j, (j < i)%nat -> no_output (attempt_result w s c j)) ->
    decodable (attempt_result w s c i) = true ->
    return_code (attempt_result w s c i) = 0 ->
    stdout (attempt_result w s c i) <> EmptyString ->
    exists kept ws,
      Utf8.chars (stdout (attempt_result w s c i)) = Some (kept ++ ws)
      /\ fst (run g w s) = Done (Utf8.text kept)
      /\ Forall (fun x => Utf8.is_space (Utf8.code x) = true) ws
      /\ (forall x last, kept = x ++ [last] ->
                         Utf8.is_space (Utf8.code last) = false)
      /\ spawns (trace (snd (run g w s))) = (spawns (trace s) + S i)%nat.
Proof.
  intros g c w s i Hg Hi Hj Hd Hrc Hout.
  rewrite (getter_shape Hg).
  pose proof (getter_reached c w s Hi Hj) as Hr.
  assert (Hv : verdict output_policy (Z.of_nat i + 1) (attempt_result w s c i)
               = Success) by (apply output_policy_verdict; auto).
  destruct (@decodable_streams _ Hd) as [Ho _].
  rewrite run_bind. unfold unpacking_call. rewrite run_bind.
  rewrite (reached_pass Hr Hd). cbv zeta. rewrite Hv. simpl.
  rewrite (@decoded_valid _ _ _ Ho). simpl.
  unfold Str.rstrip. unfold Utf8.valid in Ho.
  destruct (Utf8.chars (stdout (attempt_result w s c i))) as [l|];
    [|discriminate Ho].
  destruct (rstrip_split l) as (ws & E & F).
  exists (Utf8.rstrip l), ws.
  split; [f_equal; exact E|]. split; [reflexivity|]. split; [exact F|].
  split; [intros x last; apply rstrip_last|].
  rewrite !spawns_app, spawns_retried_attempts. simpl. lia.
Qed.

Lemma getter_returns_stripped_output_witness :
  In (get_project_id, "gcloud config get-value project") getters
  /\ decodable Samples.padded_result = true
  /\ fst (run get_project_id Samples.padded init) = Done "my-project".
Proof.
  assert (Hin : In (get_project_id, "gcloud config get-value project")
                   getters)
    by (simpl; auto).
  split; [exact Hin|]. split; [reflexivity|].
  destruct (@getter_returns_stripped_output _ _ Samples.padded init 0%nat Hin)
    as (kept & ws & _ & E & _);
    try reflexivity; try (simpl; lia); try (simpl; discriminate).
Defined.

(** A getter whose command is decoded but never both succeeds and prints
    something makes three attempts and ends the process with the status of
    the third; when the command keeps succeeding without output that
    status is 0. *)
Theorem getter_exits_with_last_status :
  forall g c w s,
    In (g, c) getters ->
    (forall j, (j < 3)%nat -> no_output (attempt_result w s c j)) ->
    fst (run g w s) = Stopped (Exited (return_code (attempt_result w s c 2)))
    /\ spawns (trace (snd (run g w s))) = (spawns (trace s) + 3)%nat
    /\ In (critical_log (attempt_result w s c 2)) (trace (snd (run g w s))).
Proof.
  intros g c w s Hg Hj.
  rewrite (getter_shape Hg).
  assert (Hr : reached c output_policy w s 2)
    by (apply getter_reached; [lia | intros j Hlt; apply Hj; lia]).
  assert (Hd : decodable (attempt_result w s c 2) = true)
    by (apply (Hj 2%nat); lia).
  assert (Hv : verdict output_policy (Z.of_nat 2 + 1) (attempt_result w s c 2)
               = GiveUpExit).
  { destruct (output_policy_verdict (Z.of_nat 2 + 1) (attempt_result w s c 2))
      as [_ H]. rewrite H by (apply Hj; lia). reflexivity. }
  rewrite run_bind. unfold unpacking_call. rewrite run_bind.
  rewrite (reached_pass Hr Hd). cbv zeta. rewrite Hv. simpl.
  split; [reflexivity|]. split.
  - rewrite !spawns_app. simpl. lia.
  - apply in_or_app. right. simpl. auto 20.
Qed.

Lemma getter_exits_with_last_status_witness :
  fst (run get_service_account_email Samples.silent init) = Stopped (Exited 0).
Proof.
  refine (proj1 (@getter_exits_with_last_status
                   get_service_account_email _ Samples.silent init _ _)).
  - simpl. auto.
  - intros j _. split; [reflexivity|]. right. reflexivity.
Defined.

(** ** authorize_service_account *)

(** When the unique id cannot be fetched the step ends as the getter does
    and the operator is not asked.  Otherwise the operator is shown the
    delegation URL for that id once, and the step returns [False] exactly
    when the answer is n or N and [True] for every other answer; it never
    ends the process at the prompt. *)
Theorem authorize_service_account_answer :
  forall w s,
    match run get_service_account_id w s with
    | (Stopped h, s1) => run authorize_service_account w s = (Stopped h, s1)
    | (Done id, s1) =>
        let answer := operator w (prompts s1) in
        run authorize_service_account w s
        = (Done (negb (String.eqb (Str.lower answer) "n")),
           {| procs := procs s1; prompts := S (prompts s1);
              trace := trace s1
                       ++ [EvInput (authorize_prompt (authorize_url id))
                                   answer] |})
        /\ (negb (String.eqb (Str.lower answer) "n") = false
            <-> answer = "n" \/ answer = "N")
    end.
Proof.
  intros w s. unfold authorize_service_account. rewrite run_bind.
  destruct (run get_service_account_id w s) as [[id|h] s1]; [|reflexivity].
  cbv zeta. split.
  - simpl. destruct (String.eqb (Str.lower (operator w (prompts s1))) "n");
      reflexivity.
  - rewrite <- lower_is_n.
    destruct (String.eqb_spec (Str.lower (operator w (prompts s1))) "n");
      simpl; split; intros; congruence.
Qed.

(** ** verify_tos_accepted: acceptance *)

Lemma tos_loop_accepted fuel : tos_loop fuel true = Ret tt.
Proof. destruct fuel; reflexivity. Qed.

(** After any number of blocked cycles in which the operator does not
    answer n, a probe that is decoded and ends with status 0 ends the
    loop: the step returns, having run the probe once more than it
    prompted, and logs the acceptance as its last event. *)
Theorem verify_tos_accepted_after_cycles :
  forall w s n extra,
    blocked_cycles w
      (emit s [EvAct (Log INFO "Verifying acceptance of Terms of service..."
                          [])]) n ->
    decodable
      (probe_result w
         (after_cycles w
            (emit s [EvAct (Log INFO
                                "Verifying acceptance of Terms of service..."
                                [])]) n)) = true ->
    return_code
      (probe_result w
         (after_cycles w
            (emit s [EvAct (Log INFO
                                "Verifying acceptance of Terms of service..."
                                [])]) n)) = 0 ->
    exists evs,
      run (verify_tos_accepted (S n + extra)) w s
      = (Done tt,
         {| procs := procs s + S n; prompts := prompts s + n;
            trace := trace s ++ evs
                     ++ [EvAct (Log INFO
                                    ("Terms of service acceptance verified "
                                     ++ Str.check) [])] |})
      /\ spawns evs = S n.
Proof.
  intros w s n extra Hb Hdec Hok.
  set (s0 := emit s [EvAct (Log INFO
                              "Verifying acceptance of Terms of service..."
                              [])]) in *.
  destruct (blocked_cycles_run w n s0 (S extra) Hb) as (E & Hp & Hq).
  assert (Hsp : forall m t, blocked_cycles w t m ->
                  exists evs, trace (after_cycles w t m) = trace t ++ evs
                              /\ spawns evs = m).
  { induction m as [|m IH]; intros t Ht.
    - exists []. simpl. rewrite app_nil_r. auto.
    - destruct Ht as (_ & _ & Hrest).
      destruct (IH _ Hrest) as (evs & Etr & Es).
      destruct (run_tos_notice (stderr (probe_result w t)) w
                  (after_pass t (attempt_events probe_command (procs t) 1
                                                (probe_result w t))))
        as (_ & _ & _ & nevs & Hn & Hns).
      simpl after_cycles. rewrite Etr. unfold after_prompt. cbv zeta.
      simpl trace. rewrite Hn. simpl trace. rewrite <- !app_assoc.
      eexists. split; [reflexivity|].
      rewrite !spawns_app, Hns, Es. simpl. lia. }
  destruct (Hsp n s0 Hb) as (cyc & Ecyc & Scyc).
  unfold verify_tos_accepted. rewrite run_bind.
  change (run (log INFO "Verifying acceptance of Terms of service..." []) w s)
    with (Done tt, s0).
  cbv iota beta. rewrite run_bind.
  replace (S n + extra)%nat with (n + S extra)%nat by lia.
  rewrite E, tos_loop_S. unfold tos_pass.
  change (enable_command "admin.googleapis.com") with probe_command.
  rewrite run_bind, (@probe_run probe_command w _ Hdec).
  change (shell_out w (procs (after_cycles w s0 n)) probe_command)
    with (probe_result w (after_cycles w s0 n)).
  rewrite Hok. simpl negb. cbv iota. rewrite tos_loop_accepted.
  simpl run. unfold after_pass, emit. simpl. rewrite Hp, Hq, Ecyc.
  unfold s0; simpl. rewrite <- !app_assoc. simpl.
  replace (S (procs s + n)) with (procs s + S n)%nat by lia.
  exists (EvAct (Log INFO "Verifying acceptance of Terms of service..." [])
          :: cyc ++ attempt_events probe_command (procs s + n) 1
                      (probe_result w (after_cycles w s0 n))).
  split.
  - do 3 apply f_equal. simpl. rewrite <- app_assoc. reflexivity.
  - simpl. rewrite spawns_app, Scyc. simpl. lia.
Qed.

Lemma verify_tos_accepted_after_cycles_witness :
  blocked_cycles Samples.blocked_once
    (emit init [EvAct (Log INFO "Verifying acceptance of Terms of service..."
                           [])]) 1
  /\ fst (run (verify_tos_accepted 2) Samples.blocked_once init) = Done tt
  /\ spawns (trace (snd (run (verify_tos_accepted 2) Samples.blocked_once
                             init))) = 2%nat.
Proof.
  assert (Hb : blocked_cycles Samples.blocked_once
                 (emit init [EvAct (Log INFO
                     "Verifying acceptance of Terms of service..." [])]) 1).
  { split; [split; [reflexivity | split; [simpl; discriminate | reflexivity]]|].
    split; [simpl; discriminate | exact Logic.I]. }
  split; [exact Hb|].
  destruct (@verify_tos_accepted_after_cycles Samples.blocked_once init
              1%nat 0%nat Hb eq_refl eq_refl) as (evs & E & Hs).
  simpl Nat.add in E. rewrite E. split; [reflexivity|].
  simpl. rewrite !spawns_app, Hs. reflexivity.
Defined.

(** ** download_service_account_key *)

(** When the account the admin is logged in with has no [@] in it, the
    persistence step raises [IndexError] as soon as the account is known:
    the key file is not read and nothing is posted. *)
Theorem download_needs_domain :
  forall KEY_FILE w s admin_user_email s1,
    run get_admin_user_email w s = (Done admin_user_email, s1) ->
    ~ In "@"%char (list_ascii_of_string admin_user_email) ->
    run (download_service_account_key KEY_FILE) w s
    = (Stopped (Raised IndexError), s1).
Proof.
  intros K w s email s1 Hg Hno.
  unfold download_service_account_key. rewrite run_bind, Hg.
  rewrite (@split_on_no_sep "@"%char email Hno). reflexivity.
Qed.

Lemma download_needs_domain_witness :
  run get_admin_user_email Samples.all_ok init
  = (Done "ok", snd (run get_admin_user_email Samples.all_ok init))
  /\ fst (run (download_service_account_key Samples.sample_key_file)
              Samples.all_ok init) = Stopped (Raised IndexError).
Proof.
  assert (Hg : run get_admin_user_email Samples.all_ok init
               = (Done "ok", snd (run get_admin_user_email Samples.all_ok init)))
    by reflexivity.
  split; [exact Hg|].
  rewrite (@download_needs_domain Samples.sample_key_file _ _ _ _ Hg);
    [reflexivity|].
  simpl. intros [H|[H|[]]]; discriminate H.
Defined.

(** For an account [user@domain] the step reads the key file, prints it,
    and serialises it with the name [domain-service-account-key] and the
    fixed bucket by [json.dumps]; the resulting [str] is printed and handed
    to [requests.post] as its [json=] argument (so the body that is sent is
    a JSON string).  The step returns the sink's status, whatever it is,
    and raises only what reading the file or the POST raises. *)
Theorem download_posts_under_domain :
  forall KEY_FILE w s user domain s1,
    run get_admin_user_email w s
    = (Done (user ++ String "@" domain)%string, s1) ->
    ~ In "@"%char (list_ascii_of_string user) ->
    ~ In "@"%char (list_ascii_of_string domain) ->
    match key_file w KEY_FILE with
    | inl e =>
        run (download_service_account_key KEY_FILE) w s
        = (Stopped (Raised e), emit s1 [EvLoadKey KEY_FILE (inl e)])
    | inr file_data =>
        let data :=
          VDumps
            (JObj [ ("file_data", file_data);
                    ("file_name", JStr (domain ++ "-service-account-key"));
                    ("bucket_name",
                     JStr "test-driveaudit-development-creds") ]) in
        let shown := [ EvLoadKey KEY_FILE (inr file_data);
                       EvAct (Print [VJson file_data]);
                       EvAct (Print []);
                       EvAct (Print [data]) ] in
        match http_post w persist_url data with
        | inl e =>
            run (download_service_account_key KEY_FILE) w s
            = (Stopped (Raised e),
               emit s1 (shown ++ [EvPost persist_url data (inl e)]))
        | inr status =>
            run (download_service_account_key KEY_FILE) w s
            = (Done status,
               emit s1 (shown ++ [EvPost persist_url data (inr status)]))
        end
    end.
Proof.
  intros K w s user domain s1 Hg Hu Hd.
  unfold download_service_account_key. rewrite run_bind, Hg.
  rewrite (@split_on_first "@"%char user domain Hu),
    (@split_on_no_sep "@"%char domain Hd).
  simpl run. destruct (key_file w K) as [e|d]; [reflexivity|].
  cbv zeta. unfold persist_payload.
  match goal with |- context [http_post w ?u ?p] =>
    destruct (http_post w u p) as [e|st] end;
    unfold emit; simpl; rewrite <- !app_assoc; reflexivity.
Qed.

Lemma download_posts_under_domain_witness :
  run get_admin_user_email Samples.all_well init
  = (Done ("admin" ++ String "@" "example.com")%string,
     snd (run get_admin_user_email Samples.all_well init))
  /\ fst (run (download_service_account_key Samples.sample_key_file)
              Samples.all_well init) = Done 500.
Proof.
  assert (Hg : run get_admin_user_email Samples.all_well init
               = (Done ("admin" ++ String "@" "example.com")%string,
                  snd (run get_admin_user_email Samples.all_well init)))
    by reflexivity.
  split; [exact Hg|].
  assert (Hu : ~ In "@"%char (list_ascii_of_string "admin"))
    by (simpl; intuition discriminate).
  assert (Hd : ~ In "@"%char (list_ascii_of_string "example.com"))
    by (simpl; intuition discriminate).
  pose proof (@download_posts_under_domain Samples.sample_key_file _ _ _ _ _
                Hg Hu Hd) as H.
  simpl key_file in H. cbv zeta in H. simpl http_post in H.
  rewrite H. reflexivity.
Defined.

(** ** new.py: create_service_account *)

Lemma new_create_service_account_falls_back_witness :
  New.sa_create Samples.iam_with_account ("projects/" ++ "p")%string
                New.service_account_name = inl HttpError
  /\ snd (New.create_service_account Samples.iam_with_account "p")
     = inr (JObj [ ("email", JStr "sa@p.iam.gserviceaccount.com");
                   ("name",
                    JStr "projects/p/serviceAccounts/sa@p.iam.gserviceaccount.com");
                   ("unique_id", JStr "104"); ("project_id", JStr "p") ]).
Proof.
  split; [reflexivity|].
  apply (@new_create_service_account_falls_back Samples.iam_with_account "p"
           Samples.existing_account); reflexivity.
Defined.

(** Only [HttpError] makes the step look for an existing account: when
    [create] raises anything else the step raises it, whatever [get] would
    answer; and when [create] returns, [get] is not consulted either. *)
Theorem new_create_service_account_other_errors :
  forall create get1 get2 project_id,
    create ("projects/" ++ project_id)%string New.service_account_name
    <> inl HttpError ->
    New.create_service_account
      {| New.sa_create := create; New.sa_get := get1 |} project_id
    = New.create_service_account
        {| New.sa_create := create; New.sa_get := get2 |} project_id
    /\ forall e,
         create ("projects/" ++ project_id)%string New.service_account_name
         = inl e ->
         snd (New.create_service_account
                {| New.sa_create := create; New.sa_get := get1 |} project_id)
         = inl e.
Proof.
  intros create get1 get2 pid Hne.
  unfold New.create_service_account, New.create_or_get.
  cbn [New.sa_create New.sa_get].
  destruct (create ("projects/" ++ pid)%string New.service_account_name)
    as [e|account] eqn:Ec.
  - destruct e; try (exfalso; apply Hne; reflexivity);
      (split; [reflexivity | intros e' E; injection E as <-; reflexivity]).
  - split; [reflexivity | intros e' E; discriminate E].
Qed.

Lemma new_create_service_account_other_errors_witness :
  (fun _ _ : string => inl ConnectionError : Exn + JSON)
    ("projects/" ++ "p")%string New.service_account_name <> inl HttpError
  /\ snd (New.create_service_account
            {| New.sa_create := fun _ _ => inl ConnectionError;
               New.sa_get := fun _ => inr Samples.existing_account |} "p")
     = inl ConnectionError.
Proof.
  assert (H : (fun _ _ : string => inl ConnectionError : Exn + JSON)
                ("projects/" ++ "p")%string New.service_account_name
              <> inl HttpError) by discriminate.
  split; [exact H|].
  apply (proj2 (@new_create_service_account_other_errors
                  (fun _ _ => inl ConnectionError)
                  (fun _ => inr Samples.existing_account)
                  (fun _ => inr Samples.existing_account) "p" H)).
  reflexivity.
Defined.

(** The identity returned has exactly the four fields email, name,
    unique_id and project_id, taken from the account's email, name,
    uniqueId and projectId; an account that lacks one of them makes the
    step raise [KeyError] instead of returning. *)
Theorem new_identity_fields :
  forall account,
    (forall identity,
       New.identity_of (JObj account) = inr identity ->
       exists email name unique_id project_id,
         identity = JObj [ ("email", email); ("name", name);
                           ("unique_id", unique_id);
                           ("project_id", project_id) ]
         /\ getitem (JObj account) "email" = inr email
         /\ getitem (JObj account) "name" = inr name
         /\ getitem (JObj account) "uniqueId" = inr unique_id
         /\ getitem (JObj account) "projectId" = inr project_id)
    /\ (forall key,
          In key ["email"; "name"; "uniqueId"; "projectId"] ->
          getitem (JObj account) key = inl KeyError ->
          New.identity_of (JObj account) = inl KeyError).
Proof.
  intros account. unfold New.identity_of. split.
  - intros identity H.
    destruct (getitem (JObj account) "email") as [e|email]; [discriminate|].
    destruct (getitem (JObj account) "name") as [e|name]; [discriminate|].
    destruct (getitem (JObj account) "uniqueId") as [e|uid]; [discriminate|].
    destruct (getitem (JObj account) "projectId") as [e|pid]; [discriminate|].
    injection H as <-. exists email, name, uid, pid. auto.
  - assert (Hk : forall k, exists r, getitem (JObj account) k = r
                  /\ (r = inl KeyError \/ exists v, r = inr v)).
    { intros k. simpl.
      destruct (find (fun kv => String.eqb (fst kv) k) account); eauto. }
    intros key Hin Hmiss.
    destruct (Hk "email") as (r1 & E1 & [->|(v1 & ->)]); rewrite E1; auto.
    destruct (Hk "name") as (r2 & E2 & [->|(v2 & ->)]); rewrite E2; auto.
    destruct (Hk "uniqueId") as (r3 & E3 & [->|(v3 & ->)]); rewrite E3; auto.
    destruct (Hk "projectId") as (r4 & E4 & [->|(v4 & ->)]); rewrite E4; auto.
    destruct Hin as [<-|[<-|[<-|[<-|[]]]]]; congruence.
Qed.

(** ** new.py: create_project *)

(** [create_project] returns the literal string "response" whenever it
    returns.  It raises what building the client and the request raises
    (lines 139-142 are outside the [try]), having printed its two opening
    lines only; and once they are built it raises only when both the
    creation (the request or the wait for it) and the lookup of the
    existing project raise, and then the lookup's exception.  The existing
    project is looked up exactly when the client was built and the
    creation failed. *)
Theorem new_create_project_outcome :
  forall cloud project_details,
    (snd (New.create_project cloud project_details) = inr "response"
     \/ (exists e,
           New.projects_client cloud = Some e
           /\ New.create_project cloud project_details
              = ([New.say "getting the organization";
                  New.say "Creating project..."], inl e))
     \/ exists e e',
          New.projects_client cloud = None
          /\ snd (New.request_project cloud project_details) = inl e
          /\ New.project_get cloud ("projects/" ++ project_details)%string
             = inl e'
          /\ snd (New.create_project cloud project_details) = inl e')
    /\ (In (New.Called "get_project" ("projects/" ++ project_details)%string)
           (fst (New.create_project cloud project_details))
        <-> New.projects_client cloud = None
            /\ exists e,
                 snd (New.request_project cloud project_details) = inl e).
Proof.
  intros cloud pd. unfold New.create_project.
  destruct (New.projects_client cloud) as [e0|].
  - split.
    + right. left. exists e0. split; reflexivity.
    + split.
      * simpl. intros [H|[H|[]]]; discriminate H.
      * intros [H _]. discriminate H.
  - unfold New.request_project.
    destruct (New.project_create cloud pd) as [e|u].
    + destruct (New.project_get cloud ("projects/" ++ pd)%string) as [e'|r];
        simpl; (split; [|split; [intros _; eauto | intros _; auto 10]]).
      * right. right. exists e, e'. auto.
      * left. reflexivity.
    + destruct (New.project_result cloud pd) as [e|response].
      * destruct (New.project_get cloud ("projects/" ++ pd)%string) as [e'|r];
          simpl; (split; [|split; [intros _; eauto | intros _; auto 10]]).
        -- right. right. exists e, e'. auto.
        -- left. reflexivity.
      * simpl. split; [auto|]. split.
        -- intros [H|[H|[H|[H|[H|[H|[H|[]]]]]]]]; discriminate H.
        -- intros [_ [e H]]. discriminate H.
Qed.

(** ** new.py: enable_apis *)

Lemma enable_each_done cloud project_id done : forall tail,
  (forall api, In api done -> New.answers cloud project_id api) ->
  exists steps,
    New.enable_each cloud project_id (done ++ tail)
    = (steps ++ fst (New.enable_each cloud project_id tail),
       snd (New.enable_each cloud project_id tail))
    /\ New.enabled_names steps = map (New.service_name project_id) done
    /\ forall e, ~ In (New.Printed [New.SExn e]) steps.
Proof.
  induction done as [|api done IH]; intros tail Hok.
  - exists []. simpl. destruct (New.enable_each cloud project_id tail).
    repeat split; auto.
  - destruct (Hok api (or_introl eq_refl)) as [[u Hu] [u' Hu']].
    destruct (IH tail (fun a H => Hok a (or_intror H))) as (steps & E & Hn & Hp).
    exists (New.Called "enable_service" (New.service_name project_id api)
            :: New.waiting
            :: New.Called "result" (New.service_name project_id api) :: steps).
    simpl. rewrite Hu, Hu', E. simpl. rewrite Hn.
    repeat split; auto.
    intros e [H|[H|[H|H]]]; try discriminate H. apply (Hp e H).
Qed.

Lemma enabled_names_app (a b : list New.Step) :
  New.enabled_names (a ++ b) = New.enabled_names a ++ New.enabled_names b.
Proof.
  induction a as [|x a IH]; simpl; [reflexivity|].
  destruct x; auto. destruct (String.eqb operation "enable_service"); simpl;
    rewrite IH; reflexivity.
Qed.

(** [enable_apis] raises what building its client raises (line 183 is
    outside the [try]), having printed its opening line only.  Once the
    client is built it never reports a failure: it returns "True" and
    prints its closing line last, whatever the requests do.  The APIs are
    then requested in order up to and including the first one whose request
    or wait raises; that exception is printed and the APIs after it are
    never requested. *)
Theorem new_enable_apis_stops_at_first_failure :
  forall cloud project_id apis,
    (forall e,
       New.usage_client cloud = Some e ->
       New.enable_apis_for apis cloud project_id
       = ([New.say "Enabling APIs..."], inl e))
    /\ (New.usage_client cloud = None ->
        snd (New.enable_apis_for apis cloud project_id) = inr "True"
        /\ (exists before,
              fst (New.enable_apis_for apis cloud project_id)
              = before ++ [New.say ("APIs enabled " ++ Str.check)])
        /\ forall done failing rest,
             apis = done ++ failing :: rest ->
             (forall api, In api done -> New.answers cloud project_id api) ->
             ~ New.answers cloud project_id failing ->
             New.enabled_names (fst (New.enable_apis_for apis cloud project_id))
             = map (New.service_name project_id) (done ++ [failing])
             /\ exists e,
                  In (New.Printed [New.SExn e])
                     (fst (New.enable_apis_for apis cloud project_id))).
Proof.
  intros cloud pid apis. unfold New.enable_apis_for. split.
  - intros e ->. reflexivity.
  - intros ->. split; [|split].
    + destruct (New.enable_each cloud pid apis) as [steps r]. reflexivity.
    + destruct (New.enable_each cloud pid apis) as [steps r]. simpl.
      exists (New.say "Enabling APIs..."
              :: steps ++ match r with
                          | Some e => [New.Printed [New.SExn e]]
                          | None => []
                          end).
      simpl. rewrite <- app_assoc. reflexivity.
    + intros done failing rest -> Hok Hfail.
      destruct (@enable_each_done cloud pid done (failing :: rest) Hok)
        as (steps & E & Hn & _).
      assert (Hf : exists fsteps e,
                 New.enable_each cloud pid (failing :: rest) = (fsteps, Some e)
                 /\ New.enabled_names fsteps = [New.service_name pid failing]).
      { simpl.
        destruct (New.service_enable cloud (New.service_name pid failing))
          as [e|u] eqn:Eu; [eauto|].
        destruct (New.service_result cloud (New.service_name pid failing))
          as [e|u'] eqn:Eu'; [eauto|].
        exfalso. apply Hfail. split; eauto. }
      destruct Hf as (fsteps & e & Ef & Hfn).
      rewrite E, Ef. simpl fst. split.
      * simpl. rewrite !enabled_names_app, Hn, Hfn. simpl.
        rewrite map_app, ?app_nil_r. reflexivity.
      * exists e. right. apply in_or_app. right. left. reflexivity.
Qed.

Lemma new_enable_apis_stops_at_first_failure_witness :
  New.APIS = ["admin.googleapis.com"; "contacts.googleapis.com"]
             ++ "drive.googleapis.com"
             :: ["gmail.googleapis.com"; "serviceusage.googleapis.com";
                 "iam.googleapis.com"]
  /\ ~ New.answers Samples.second_run "pawait-drive-audit"
                   "drive.googleapis.com"
  /\ New.enabled_names (fst (New.enable_apis Samples.second_run
                                             "pawait-drive-audit"))
     = map (New.service_name "pawait-drive-audit")
           ["admin.googleapis.com"; "contacts.googleapis.com";
            "drive.googleapis.com"].
Proof.
  assert (Hf : ~ New.answers Samples.second_run "pawait-drive-audit"
                             "drive.googleapis.com").
  { intros [_ [u H]]. discriminate H. }
  split; [reflexivity | split; [exact Hf|]].
  destruct (@new_enable_apis_stops_at_first_failure
              Samples.second_run "pawait-drive-audit" New.APIS) as [_ H].
  destruct (H eq_refl) as (_ & _ & H3).
  refine (proj1 (H3 ["admin.googleapis.com"; "contacts.googleapis.com"]
                    "drive.googleapis.com"
                    ["gmail.googleapis.com"; "serviceusage.googleapis.com";
                     "iam.googleapis.com"] eq_refl _ Hf)).
  intros api [<-|[<-|[]]]; split; exists tt; reflexivity.
Defined.

(** When every API can be enabled, each is requested once, in the order of
    the list, and no exception is printed. *)
Theorem new_enable_apis_all :
  forall cloud project_id apis,
    (forall api, In api apis -> New.enables cloud project_id api) ->
    New.enabled_names (fst (New.enable_apis_for apis cloud project_id))
    = map (New.service_name project_id) apis
    /\ forall e, ~ In (New.Printed [New.SExn e])
                      (fst (New.enable_apis_for apis cloud project_id)).
Proof.
  intros cloud pid apis Hok.
  unfold New.enable_apis_for.
  destruct (New.usage_client cloud) as [e0|] eqn:Ec.
  - destruct apis as [|api apis].
    + split; [reflexivity|]. intros e [H|[]]. discriminate H.
    + destruct (Hok api (or_introl eq_refl)) as [H _]. congruence.
  - destruct (@enable_each_done cloud pid apis []
                (fun api H => proj2 (Hok api H))) as (steps & E & Hn & Hp).
    rewrite app_nil_r in E. simpl in E. rewrite app_nil_r in E.
    rewrite E. simpl. split.
    + rewrite enabled_names_app, Hn. simpl. apply app_nil_r.
    + intros e [H|H]; [discriminate H|]. apply in_app_or in H.
      destruct H as [H|[H|[]]]; [apply (Hp e H) | discriminate H].
Qed.

Lemma new_enable_apis_all_witness :
  (forall api, In api New.APIS ->
     New.enables {| New.projects_client := None;
                    New.project_create := fun _ => inr tt;
                    New.project_result := fun _ => inr JNull;
                    New.project_get := fun _ => inr JNull;
                    New.usage_client := None;
                    New.service_enable := fun _ => inr tt;
                    New.service_result := fun _ => inr tt;
                    New.iam := inr Samples.iam_with_account |} "p" api)
  /\ List.length
       (New.enabled_names
          (fst (New.enable_apis
                  {| New.projects_client := None;
                     New.project_create := fun _ => inr tt;
                     New.project_result := fun _ => inr JNull;
                     New.project_get := fun _ => inr JNull;
                     New.usage_client := None;
                     New.service_enable := fun _ => inr tt;
                     New.service_result := fun _ => inr tt;
                     New.iam := inr Samples.iam_with_account |} "p"))) = 6%nat.
Proof.
  assert (H : forall api, In api New.APIS ->
     New.enables {| New.projects_client := None;
                    New.project_create := fun _ => inr tt;
                    New.project_result := fun _ => inr JNull;
                    New.project_get := fun _ => inr JNull;
                    New.usage_client := None;
                    New.service_enable := fun _ => inr tt;
                    New.service_result := fun _ => inr tt;
                    New.iam := inr Samples.iam_with_account |} "p" api)
    by (intros api _; split; [reflexivity | split; exists tt; reflexivity]).
  split; [exact H|].
  unfold New.enable_apis.
  rewrite (proj1 (@new_enable_apis_all _ "p" New.APIS H)). reflexivity.
Defined.

(** ** new.py: main *)

Lemma identity_has_unique_id account identity :
  New.identity_of account = inr identity ->
  exists unique_id,
    getitem account "uniqueId" = inr unique_id
    /\ getitem identity "unique_id" = inr unique_id.
Proof.
  unfold New.identity_of. intros H.
  destruct (getitem account "email") as [e|email]; [discriminate|].
  destruct (getitem account "name") as [e|name]; [discriminate|].
  destruct (getitem account "uniqueId") as [e|uid]; [discriminate|].
  destruct (getitem account "projectId") as [e|pid]; [discriminate|].
  injection H as <-. exists uid. split; reflexivity.
Qed.

(** [main] returns the string "False" exactly when [create_project],
    [enable_apis] (which raises only what building its client raises) or
    [create_service_account] raises, and otherwise the delegation URL for
    the account's uniqueId.  What it returns depends neither on the domain
    it is given nor on what the requests to enable the APIs answer. *)
Theorem new_main_outcome :
  forall other cloud domain,
    (snd (New.main other cloud domain) = "False"
     <-> (exists e, snd (New.create_project cloud (Str.lower New.TOOL_NAME))
                    = inl e)
         \/ (exists e, New.usage_client cloud = Some e)
         \/ exists e, snd (New.create_service_account_call
                             cloud (Str.lower New.TOOL_NAME))
                      = inl e)
    /\ (forall service account,
          (exists r, snd (New.create_project cloud (Str.lower New.TOOL_NAME))
                     = inr r) ->
          New.usage_client cloud = None ->
          New.iam cloud = inr service ->
          New.create_or_get service (Str.lower New.TOOL_NAME) = inr account ->
          forall unique_id,
            getitem account "uniqueId" = inr unique_id ->
            (exists identity, New.identity_of account = inr identity) ->
            snd (New.main other cloud domain)
            = New.create_auth_url (New.py_format other unique_id))
    /\ forall cloud' domain',
         New.projects_client cloud' = New.projects_client cloud ->
         New.project_create cloud' = New.project_create cloud ->
         New.project_result cloud' = New.project_result cloud ->
         New.project_get cloud' = New.project_get cloud ->
         New.usage_client cloud' = New.usage_client cloud ->
         New.iam cloud' = New.iam cloud ->
         snd (New.main other cloud' domain') = snd (New.main other cloud domain).
Proof.
  intros other cloud domain.
  assert (Hurl : forall x, New.create_auth_url x <> "False").
  { intros x H. discriminate H. }
  assert (Hmain : forall c d, snd (New.main other c d) =
    match snd (New.create_project c (Str.lower New.TOOL_NAME)) with
    | inl _ => "False"
    | inr _ =>
        match New.usage_client c with
        | Some _ => "False"
        | None =>
            match snd (New.create_service_account_call
                         c (Str.lower New.TOOL_NAME)) with
            | inl _ => "False"
            | inr sa =>
                match getitem sa "unique_id" with
                | inl _ => "False"
                | inr uid => New.create_auth_url (New.py_format other uid)
                end
            end
        end
    end).
  { intros c d. unfold New.main.
    destruct (New.create_project c (Str.lower New.TOOL_NAME)) as [s1 [e|r]];
      [reflexivity|].
    unfold New.enable_apis, New.enable_apis_for.
    destruct (New.usage_client c) as [e|]; [reflexivity|].
    destruct (New.enable_each c (Str.lower New.TOOL_NAME) New.APIS)
      as [steps o].
    destruct (New.create_service_account_call c (Str.lower New.TOOL_NAME))
      as [p3 [e|sa]]; [reflexivity|].
    cbn [snd]. destruct (getitem sa "unique_id"); reflexivity. }
  assert (Hsa : forall service,
    New.iam cloud = inr service ->
    snd (New.create_service_account_call cloud (Str.lower New.TOOL_NAME)) =
    match New.create_or_get service (Str.lower New.TOOL_NAME) with
    | inl e => inl e
    | inr account => New.identity_of account
    end).
  { intros service Hi.
    unfold New.create_service_account_call, New.create_service_account.
    rewrite Hi.
    destruct (New.create_or_get service (Str.lower New.TOOL_NAME))
      as [e|account]; [reflexivity|].
    destruct (New.identity_of account); reflexivity. }
  split; [|split].
  - rewrite Hmain.
    destruct (snd (New.create_project cloud (Str.lower New.TOOL_NAME)))
      as [e|r]; [split; eauto|].
    destruct (New.usage_client cloud) as [e|]; [split; eauto|].
    destruct (New.iam cloud) as [e|service] eqn:Ei.
    { unfold New.create_service_account_call. rewrite Ei. simpl.
      split; eauto. }
    rewrite (Hsa service eq_refl).
    destruct (New.create_or_get service (Str.lower New.TOOL_NAME))
      as [e|account]; [split; eauto|].
    destruct (New.identity_of account) as [e|identity] eqn:Eid;
      [split; eauto|].
    destruct (identity_has_unique_id _ Eid) as (uid & _ & Hu). rewrite Hu.
    split.
    + intros H. exfalso. apply (Hurl _ H).
    + intros [[e H]|[[e H]|[e H]]]; discriminate H.
  - intros service account [r Hr] Hu0 Hi Hacc uid Hu [identity Hid].
    rewrite Hmain, Hr, Hu0, (Hsa service Hi), Hacc, Hid.
    destruct (identity_has_unique_id _ Hid) as (uid' & Hu' & Hid').
    rewrite Hid'. congruence.
  - intros cloud' domain' H0 H1 H2 H3 H4 H5.
    assert (Hp : New.create_project cloud' (Str.lower New.TOOL_NAME)
                 = New.create_project cloud (Str.lower New.TOOL_NAME)).
    { unfold New.create_project, New.request_project.
      rewrite H0, H1, H2, H3. reflexivity. }
    assert (Hc : New.create_service_account_call
                   cloud' (Str.lower New.TOOL_NAME)
                 = New.create_service_account_call
                     cloud (Str.lower New.TOOL_NAME)).
    { unfold New.create_service_account_call. rewrite H5. reflexivity. }
    rewrite !Hmain, Hp, H4, Hc. reflexivity.
Qed.

Example new_main_second_run :
  snd (New.main (fun _ => EmptyString) Samples.second_run "example.com")
  = New.create_auth_url "104"
  /\ New.enabled_names
       (fst (New.main (fun _ => EmptyString) Samples.second_run "example.com"))
     = map (New.service_name "pawait-drive-audit")
           ["admin.googleapis.com"; "contacts.googleapis.com";
            "drive.googleapis.com"].
Proof. split; reflexivity. Qed.

(** ** create_project *)

Lemma of_uint_digits (u : Decimal.uint) :
  forallb project_id_char
          (list_ascii_of_string (NilEmpty.string_of_uint u)) = true.
Proof. induction u; simpl; auto. Qed.

Lemma of_Z_chars (z : Z) :
  forallb project_id_char (list_ascii_of_string (Str.of_Z z)) = true.
Proof.
  unfold Str.of_Z, NilZero.string_of_int.
  destruct (Z.to_int z) as [u|u]; unfold NilZero.string_of_uint;
    destruct u; simpl; auto using of_uint_digits.
Qed.

(** The first thing [create_project] runs is the create command for the
    identifier built from the tool name and the clock.  Whatever the clock
    says, that identifier starts with a lowercase letter and consists of
    lowercase letters, digits and hyphens only, as the comment on lines
    32-33 asks. *)
Theorem create_project_identifier :
  forall w s,
    (exists rest,
       trace (snd (run create_project w s))
       = trace s
         ++ [ EvAct (Log INFO "Creating project..." []);
              EvAct (Log DEBUG exec_fmt
                         [VInt 1;
                          VStr (create_project_command (clock_ms w)
                                                       (clock_str w))]);
              EvSpawn (procs s)
                      (create_project_command (clock_ms w) (clock_str w)) ]
         ++ rest)
    /\ forallb project_id_char
               (list_ascii_of_string (project_id_of (clock_ms w))) = true
    /\ exists c t, project_id_of (clock_ms w) = String c t
                   /\ lower_letter c = true.
Proof.
  intros w s. split; [|split].
  - assert (E0 : run create_project w s =
                 run (retryable_command
                        (create_project_command (clock_ms w) (clock_str w))
                        default_policy ;;
                      log INFO ("%s successfully created " ++ Str.check)
                          [VStr (project_id_of (clock_ms w))])
                     w (emit s [EvAct (Log INFO "Creating project..." [])]))
      by reflexivity.
    rewrite E0.
    destruct (@bind_trace_prefix _ _
                (retryable_command
                   (create_project_command (clock_ms w) (clock_str w))
                   default_policy)
                (fun _ => log INFO ("%s successfully created " ++ Str.check)
                              [VStr (project_id_of (clock_ms w))])
                w (emit s [EvAct (Log INFO "Creating project..." [])])
                _ (@first_pass_trace _ default_policy w _ ltac:(simpl; lia)))
      as [rest E].
    rewrite E. simpl. rewrite <- !app_assoc. simpl. eexists. reflexivity.
  - unfold project_id_of. rewrite !chars_app, !forallb_app, of_Z_chars.
    reflexivity.
  - unfold project_id_of. simpl. eexists _, _. split; reflexivity.
Qed.

(** ** Steps that run one command under the default policy *)

Lemma run_ensures_some {A : Type} (Q : string -> Prop) (p : Prog A) w :
  forall s a s',
    EnsuresSome Q p -> run p w s = (Done a, s') ->
    exists evs, trace s' = trace s ++ evs /\ succeeded_some Q evs.
Proof.
  induction p as [x|h|x k IH|c k IH|q k IH|k IH|k IH|path k IH|url payload k IH];
    intros s a s' He Hr; simpl in *.
  - contradiction.
  - discriminate Hr.
  - destruct (IH _ _ _ He Hr) as (evs & E & pid & c & r & Hin & HQ).
    exists (EvAct x :: evs). simpl in E. rewrite E, <- app_assoc.
    split; [reflexivity|]. exists pid, c, r. split; [right; exact Hin|exact HQ].
  - destruct (He (shell_out w (procs s) c)) as [[HQ H0]|He'].
    + pose proof (run_trace_extends (k (shell_out w (procs s) c)) w
                    {| procs := S (procs s); prompts := prompts s;
                       trace := trace s
                                ++ [EvSpawn (procs s) c;
                                    EvWait (procs s) c
                                           (shell_out w (procs s) c)] |})
        as [rest E].
      rewrite Hr in E. simpl in E. rewrite <- app_assoc in E.
      eexists. split; [exact E|].
      exists (procs s), c, (shell_out w (procs s) c).
      split; [simpl; auto | auto].
    + destruct (IH _ _ _ _ He' Hr) as (evs & E & pid & c' & r & Hin & HQ).
      simpl in E. rewrite <- app_assoc in E.
      eexists. split; [exact E|]. exists pid, c', r.
      split; [apply in_or_app; right; exact Hin | exact HQ].
  - destruct (IH _ _ _ _ (He _) Hr) as (evs & E & pid & c' & r & Hin & HQ).
    simpl in E. rewrite <- app_assoc in E.
    eexists. split; [exact E|]. exists pid, c', r.
    split; [apply in_or_app; right; exact Hin | exact HQ].
  - apply (IH _ _ _ _ (He _) Hr).
  - apply (IH _ _ _ _ (He _) Hr).
  - destruct (key_file w path) as [e|d]; [discriminate Hr|].
    destruct (IH _ _ _ _ (He _) Hr) as (evs & E & pid & c' & r & Hin & HQ).
    simpl in E. rewrite <- app_assoc in E.
    eexists. split; [exact E|]. exists pid, c', r.
    split; [apply in_or_app; right; exact Hin | exact HQ].
  - destruct (http_post w url payload) as [e|st]; [discriminate Hr|].
    destruct (IH _ _ _ _ (He _) Hr) as (evs & E & pid & c' & r & Hin & HQ).
    simpl in E. rewrite <- app_assoc in E.
    eexists. split; [exact E|]. exists pid, c', r.
    split; [apply in_or_app; right; exact Hin | exact HQ].
Qed.

Lemma retry_loop_ensures_some {A : Type} (Q : string -> Prop) c pol
      (f : option CommandResult -> Prog A) fuel : forall n,
  suppress_errors pol = false ->
  n <= max_num_retries pol ->
  Q c ->
  EnsuresSome Q (bind (retry_loop c pol fuel n) f).
Proof.
  induction fuel as [|fuel IH]; intros n Hs Hn HQ; simpl;
    destruct (Z.leb_spec n (max_num_retries pol)); try lia; simpl; auto.
  intros r.
  destruct (Z.eqb_spec (return_code r) 0) as [E|E]; [left; auto|].
  right. rewrite bind_decoded. apply EnsuresSome_decoded. simpl.
  rewrite bind_decoded. apply EnsuresSome_decoded. simpl.
  rewrite verdict_failed by exact E. unfold exhausted. rewrite Hs.
  destruct (Z.ltb_spec n (max_num_retries pol)); simpl.
  - apply IH; auto; lia.
  - rewrite bind_decoded. apply EnsuresSome_decoded. exact Logic.I.
Qed.

Lemma default_step_ensures c : EnsuresSome (eq c) (default_step c).
Proof.
  unfold default_step, retryable_command.
  apply retry_loop_ensures_some; [reflexivity | simpl; lia | reflexivity].
Qed.

(** [enable_api] and [delete_key] run their command at least once and at
    most three times and nothing else.  They return only when the command
    has ended with status zero, and when all three attempts are decoded
    and fail they end the process with the status of the third. *)
Theorem default_step_outcome :
  forall c w s,
    (forall KEY_FILE, delete_key KEY_FILE = default_step (shred_command KEY_FILE))
    /\ (forall api, enable_api api = default_step (enable_command api))
    /\ exists evs,
         trace (snd (run (default_step c) w s)) = trace s ++ evs
         /\ (1 <= spawns evs <= 3)%nat
         /\ (forall pid c', In (EvSpawn pid c') evs -> c' = c)
         /\ (fst (run (default_step c) w s) = Done tt -> succeeded c evs)
         /\ fst (run (default_step c) w s) <> Stopped OutOfFuel
         /\ ((forall j, (j < 3)%nat ->
                decodable (attempt_result w s c j) = true
                /\ return_code (attempt_result w s c j) <> 0) ->
             fst (run (default_step c) w s)
             = Stopped (Exited (return_code (attempt_result w s c 2)))).
Proof.
  intros c w s. split; [reflexivity | split; [reflexivity|]].
  assert (Hem : Emits (RetryEvent c default_policy 1) (default_step c)).
  { unfold default_step. apply Emits_bind; [apply retryable_command_emits|].
    intros _. exact Logic.I. }
  destruct (@run_emits _ _ (default_step c) w s Hem) as (evs & Etr & Hev).
  destruct (@first_pass_trace c default_policy w s ltac:(simpl; lia))
    as [rest1 E1].
  destruct (@bind_trace_prefix _ _ (retryable_command c default_policy)
              (fun _ => Ret tt) w s _ (ex_intro _ rest1 E1)) as [rest2 E2].
  fold (default_step c) in E2.
  pose proof (@retry_loop_bounded c default_policy w 3 1 s eq_refl) as [Hfuel Hle].
  change (retry_loop c default_policy 3 1)
    with (retryable_command c default_policy) in Hfuel, Hle.
  assert (Hrun : run (default_step c) w s =
                 match run (retryable_command c default_policy) w s with
                 | (Done _, s') => (Done tt, s')
                 | (Stopped h, s') => (Stopped h, s')
                 end).
  { unfold default_step. rewrite run_bind.
    destruct (run (retryable_command c default_policy) w s) as [[x|h] s'];
      reflexivity. }
  exists evs. split; [exact Etr|]. split; [|split; [|split; [|split]]].
  - split.
    + rewrite Etr in E2. apply app_inv_head in E2. rewrite E2.
      rewrite spawns_app. simpl. lia.
    + assert (Hs : spawns (trace (snd (run (default_step c) w s)))
                   = spawns (trace (snd (run (retryable_command c
                                                 default_policy) w s)))).
      { rewrite Hrun.
        destruct (run (retryable_command c default_policy) w s) as [[x|h] s'];
          reflexivity. }
      rewrite Etr, spawns_app in Hs. lia.
  - intros pid c' Hin. rewrite Forall_forall in Hev.
    specialize (Hev _ Hin). inversion Hev. reflexivity.
  - intros Hd.
    destruct (run (default_step c) w s) as [res s'] eqn:Er. simpl in Hd.
    subst res.
    destruct (@run_ensures_some _ (eq c) (default_step c) w s tt s'
                (default_step_ensures c) Er)
      as (evs' & E' & pid & c' & r & Hin & <- & Hr).
    simpl in Etr. rewrite Etr in E'. apply app_inv_head in E'. subst evs'.
    exists pid, r. auto.
  - rewrite Hrun.
    destruct (run (retryable_command c default_policy) w s) as [[x|h] s'];
      [discriminate|].
    intros E. apply Hfuel. simpl in E |- *. injection E as ->. reflexivity.
  - intros Hfail.
    assert (Hr : reached c default_policy w s 2).
    { split; [reflexivity|]. intros j Hj.
      split; [apply Hfail; lia|].
      rewrite verdict_failed by (apply Hfail; lia).
      unfold exhausted.
      destruct (Z.of_nat j + 1 <? max_num_retries default_policy);
        discriminate. }
    rewrite Hrun, (reached_pass Hr) by (apply Hfail; lia). cbv zeta.
    rewrite verdict_failed by (apply Hfail; lia). reflexivity.
Qed.

(** ** A run of main that reports success *)

Lemma ensures_bind_l {A B : Type} (Q : string -> Prop) (p : Prog A)
      (f : A -> Prog B) :
  EnsuresSome Q p -> EnsuresSome Q (bind p f).
Proof.
  induction p as [x|h|x k IH|c k IH|q k IH|k IH|k IH|path k IH|url payload k IH];
    simpl; auto; try contradiction.
  intros H r. destruct (H r); auto.
Qed.

Lemma ensures_bind_r {A B : Type} (Q : string -> Prop) (p : Prog A)
      (f : A -> Prog B) :
  (forall a, EnsuresSome Q (f a)) -> EnsuresSome Q (bind p f).
Proof.
  intros Hf.
  induction p as [x|h|x k IH|c k IH|q k IH|k IH|k IH|path k IH|url payload k IH];
    simpl; auto.
Qed.

Lemma retryable_ensures {A : Type} (Q : string -> Prop) c
      (f : option CommandResult -> Prog A) :
  Q c -> EnsuresSome Q (bind (retryable_command c default_policy) f).
Proof.
  intros HQ. unfold retryable_command.
  apply retry_loop_ensures_some; [reflexivity | simpl; lia | exact HQ].
Qed.

Lemma getter_ensures {A : Type} (Q : string -> Prop) c (f : string -> Prog A) :
  Q c ->
  EnsuresSome Q (bind (t <- unpacking_call c output_policy ;;
                       decoded (stdout t)
                               (fun text => Ret (Str.rstrip text))) f).
Proof.
  intros HQ. do 2 apply ensures_bind_l. unfold unpacking_call, retryable_command.
  apply retry_loop_ensures_some; [reflexivity | simpl; lia | exact HQ].
Qed.

Lemma probe_ensures {A : Type} (Q : string -> Prop) c
      (f : CommandResult -> Prog A) :
  Q c ->
  (forall r, return_code r <> 0 -> EnsuresSome Q (f r)) ->
  EnsuresSome Q (bind (unpacking_call c probe_policy) f).
Proof.
  intros HQ Hf. unfold unpacking_call, retryable_command. simpl.
  intros r.
  destruct (Z.eqb_spec (return_code r) 0) as [E|E]; [left; auto|].
  right. rewrite !bind_decoded. apply EnsuresSome_decoded. simpl.
  rewrite !bind_decoded. apply EnsuresSome_decoded. simpl.
  rewrite verdict_failed by exact E. unfold exhausted. simpl.
  apply Hf. exact E.
Qed.

Lemma tos_loop_ensures fuel :
  EnsuresSome (eq probe_command) (tos_loop fuel false).
Proof.
  induction fuel as [|fuel IH]; [exact Logic.I|].
  rewrite tos_loop_S. unfold tos_pass.
  apply probe_ensures; [reflexivity|]. intros r Hr.
  destruct (Z.eqb_spec (return_code r) 0) as [E|_]; [contradiction|].
  simpl negb. cbv iota. apply EnsuresSome_decoded. cbv beta.
  destruct (Str.contains tos_marker (stderr r)).
  - apply ensures_bind_r. intros _. unfold input. cbn [bind EnsuresSome].
    intros a. destruct (String.eqb (Str.lower a) "n"); [exact Logic.I | exact IH].
  - apply ensures_bind_r. intros _. exact Logic.I.
Qed.

Lemma then_run_done {A B : Type} (m : Run A) (f : A -> Run B) w s b s' :
  then_run m f w s = (Done b, s') ->
  exists a s1, m w s = (Done a, s1) /\ f a w s1 = (Done b, s').
Proof.
  unfold then_run. destruct (m w s) as [[a|h] s1]; [eauto | discriminate].
Qed.

Lemma succeeded_some_later (Q : string -> Prop) (t1 t2 : list Event) :
  succeeded_some Q t1 -> succeeded_some Q (t1 ++ t2).
Proof.
  intros (pid & c & r & Hin & HQ). exists pid, c, r.
  split; [apply in_or_app; left; exact Hin | exact HQ].
Qed.

Lemma succeeded_some_new (Q : string -> Prop) (t1 t2 : list Event) :
  succeeded_some Q t2 -> succeeded_some Q (t1 ++ t2).
Proof.
  intros (pid & c & r & Hin & HQ). exists pid, c, r.
  split; [apply in_or_app; right; exact Hin | exact HQ].
Qed.

Lemma succeeded_as_some c tr : succeeded_some (eq c) tr <-> succeeded c tr.
Proof.
  split.
  - intros (pid & c' & r & Hin & <- & Hr). exists pid, r. auto.
  - intros (pid & r & Hin & Hr). exists pid, c, r. auto.
Qed.

(** A step that returned has had its command succeed, in the trace it
    leaves. *)
Lemma step_done {A : Type} (Q : string -> Prop) (p : Prog A) w s a s' :
  EnsuresSome Q p -> run p w s = (Done a, s') ->
  succeeded_some Q (trace s') /\ exists evs, trace s' = trace s ++ evs.
Proof.
  intros He Hr. destruct (@run_ensures_some A Q p w s a s' He Hr) as (evs & E & Hs).
  rewrite E. split; [apply succeeded_some_new; exact Hs | eauto].
Qed.

Lemma enable_apis_done sched w s s' :
  enable_apis sched w s = (Done tt, s') ->
  (forall api, In api (tl APIS) -> succeeded (enable_command api) (trace s'))
  /\ exists evs, trace s' = trace s ++ evs.
Proof.
  intros Hrun.
  set (s1 := emit s [EvAct (Log INFO "Enabling APIs..." [])]).
  assert (H0 : GatherInv (fun _ => True) (map enable_command (tl APIS))
                         (trace s1) enable_api_calls s1).
  { apply enable_tasks_start; [reflexivity | auto]. }
  destruct (@gather_invariant w
              (GatherInv (fun _ => True) (map enable_command (tl APIS))
                         (trace s1))
              (fun tasks s i t => @GatherInv_step _ _ _ w tasks s i t)
              sched enable_api_calls s1 H0) as (tasks' & HI & Hfin).
  unfold enable_apis, then_run in Hrun.
  change (run (log INFO "Enabling APIs..." []) w s) with (Done tt, s1) in Hrun.
  cbv iota beta in Hrun.
  destruct (gather sched enable_api_calls w s1) as [[[]|h] s2];
    [|discriminate Hrun].
  simpl fst in Hfin. simpl snd in HI.
  destruct (GatherInv_finished HI (Hfin eq_refl))
    as (evs & Htr & _ & _ & Hsucc).
  assert (Es : s' = emit s2 [apis_enabled_log]).
  { simpl in Hrun. injection Hrun as <-. reflexivity. }
  subst s'. simpl trace. rewrite Htr. unfold s1. simpl trace. split.
  - intros api Hin. apply succeeded_as_some.
    apply succeeded_some_later. apply succeeded_some_new.
    apply succeeded_as_some. apply Hsucc. apply in_map. exact Hin.
  - rewrite <- !app_assoc. eauto.
Qed.

Lemma succeeded_some_ext (Q : string -> Prop) (s s' : State) :
  (exists evs, trace s' = trace s ++ evs) ->
  succeeded_some Q (trace s) -> succeeded_some Q (trace s').
Proof.
  intros [evs E] H. rewrite E. apply succeeded_some_later. exact H.
Qed.

Lemma run_done_extends {A : Type} (p : Prog A) w s a s' :
  run p w s = (Done a, s') -> exists evs, trace s' = trace s ++ evs.
Proof.
  intros E. destruct (run_trace_extends p w s) as [rest H].
  rewrite E in H. eauto.
Qed.

Lemma create_project_done w s s' :
  run create_project w s = (Done tt, s') ->
  succeeded_some (eq (create_project_command (clock_ms w) (clock_str w)))
                 (trace s')
  /\ exists evs, trace s' = trace s ++ evs.
Proof.
  intros E.
  assert (E0 : run create_project w s =
               run (retryable_command
                      (create_project_command (clock_ms w) (clock_str w))
                      default_policy ;;
                    log INFO ("%s successfully created " ++ Str.check)
                        [VStr (project_id_of (clock_ms w))])
                   w (emit s [EvAct (Log INFO "Creating project..." [])]))
    by reflexivity.
  rewrite E0 in E.
  destruct (@step_done _ (eq (create_project_command (clock_ms w)
                                                      (clock_str w)))
                       _ _ _ _ _
                       (@retryable_ensures _ _ _ _ eq_refl) E) as [H [evs Hx]].
  split; [exact H|]. rewrite Hx. simpl. rewrite <- app_assoc. eauto.
Qed.

Lemma verify_tos_accepted_ensures fuel :
  EnsuresSome (eq probe_command) (verify_tos_accepted fuel).
Proof.
  unfold verify_tos_accepted. apply ensures_bind_r. intros _.
  apply ensures_bind_l. apply tos_loop_ensures.
Qed.

Lemma create_service_account_ensures :
  EnsuresSome (eq create_service_account_command) create_service_account.
Proof.
  unfold create_service_account. apply ensures_bind_r. intros _.
  apply retryable_ensures. reflexivity.
Qed.

Lemma create_service_account_key_ensures KEY_FILE :
  EnsuresSome (fun c => exists email, c = create_key_command KEY_FILE email)
              (create_service_account_key KEY_FILE).
Proof.
  unfold create_service_account_key. apply ensures_bind_r. intros _.
  apply ensures_bind_r. intros email. apply retryable_ensures. eauto.
Qed.

Lemma delete_key_ensures KEY_FILE :
  EnsuresSome (eq (shred_command KEY_FILE)) (delete_key KEY_FILE).
Proof.
  unfold delete_key. apply retryable_ensures. reflexivity.
Qed.

(** When [main] returns, every step has had its command end with status
    zero: the project was created, each API of [APIS] was enabled (the first
    by the terms-of-service probe, the others by the gathered calls), the
    service account and a key for it were created, the sink answered the
    POST, the key file was shredded, and the last event is the final log
    line.  Nothing in [main] catches a failure, so this is the only way to
    reach line 349. *)
Theorem main_done_means_all_succeeded :
  forall KEY_FILE fuel sched w,
    fst (main KEY_FILE fuel sched w init) = Done tt ->
    let tr := trace (snd (main KEY_FILE fuel sched w init)) in
    succeeded (create_project_command (clock_ms w) (clock_str w)) tr
    /\ (forall api, In api APIS -> succeeded (enable_command api) tr)
    /\ succeeded create_service_account_command tr
    /\ (exists email, succeeded (create_key_command KEY_FILE email) tr)
    /\ (exists url data status, In (EvPost url data (inr status)) tr)
    /\ succeeded (shred_command KEY_FILE) tr
    /\ exists before,
         tr = before ++ [EvAct (Log INFO ("Done! " ++ Str.check) [])].
Proof.
  intros K fuel sched w Hdone.
  destruct (main K fuel sched w init) as [res sf] eqn:E.
  simpl in Hdone |- *. subst res. unfold main in E.
  apply then_run_done in E as ([] & s0 & _ & E).
  apply then_run_done in E as ([] & s1 & E1 & E).
  apply then_run_done in E as ([] & s2 & E2 & E).
  apply then_run_done in E as ([] & s3 & E3 & E).
  apply then_run_done in E as ([] & s4 & E4 & E).
  apply then_run_done in E as (a5 & s5 & E5 & E).
  apply then_run_done in E as ([] & s6 & E6 & E).
  apply then_run_done in E as (st & s7 & E7 & E).
  apply then_run_done in E as ([] & s8 & E8 & E).
  assert (Ef : trace sf
               = trace s8 ++ [EvAct (Log INFO ("Done! " ++ Str.check) [])]).
  { simpl in E. injection E as <-. reflexivity. }
  destruct (@create_project_done w s0 s1 E1) as [H1 _].
  destruct (@step_done _ _ _ _ _ _ _ (verify_tos_accepted_ensures fuel) E2)
    as [H2 X2].
  destruct (@enable_apis_done sched w s2 s3 E3) as [H3 X3].
  destruct (@step_done _ _ _ _ _ _ _ create_service_account_ensures E4)
    as [H4 X4].
  pose proof (@run_done_extends _ _ w s4 a5 s5 E5) as X5.
  destruct (@step_done _ _ _ _ _ _ _ (create_service_account_key_ensures K) E6)
    as [H6 X6].
  assert (H7 : (exists url data status,
                  In (EvPost url data (inr status)) (trace s7))
               /\ exists evs, trace s7 = trace s6 ++ evs).
  { destruct (download_run K w s6) as (pre & _ & H).
    rewrite E7 in H. simpl in H. destruct H as (u & d & H).
    rewrite H. split.
    - exists u, d, st. apply in_or_app. right. apply in_or_app. right.
      left. reflexivity.
    - eauto. }
  destruct H7 as [H7 X7].
  destruct (@step_done _ _ _ _ _ _ _ (delete_key_ensures K) E8) as [H8 X8].
  assert (X9 : exists evs, trace sf = trace s8 ++ evs) by eauto.
  assert (L8 : forall Q, succeeded_some Q (trace s8) ->
                         succeeded_some Q (trace sf))
    by (intros Q; apply succeeded_some_ext; exact X9).
  assert (L7 : forall Q, succeeded_some Q (trace s7) ->
                         succeeded_some Q (trace sf))
    by (intros Q H; apply L8; revert H; apply succeeded_some_ext; exact X8).
  assert (L6 : forall Q, succeeded_some Q (trace s6) ->
                         succeeded_some Q (trace sf))
    by (intros Q H; apply L7; revert H; apply succeeded_some_ext; exact X7).
  assert (L5 : forall Q, succeeded_some Q (trace s5) ->
                         succeeded_some Q (trace sf))
    by (intros Q H; apply L6; revert H; apply succeeded_some_ext; exact X6).
  assert (L4 : forall Q, succeeded_some Q (trace s4) ->
                         succeeded_some Q (trace sf))
    by (intros Q H; apply L5; revert H; apply succeeded_some_ext; exact X5).
  assert (L3 : forall Q, succeeded_some Q (trace s3) ->
                         succeeded_some Q (trace sf))
    by (intros Q H; apply L4; revert H; apply succeeded_some_ext; exact X4).
  assert (L2 : forall Q, succeeded_some Q (trace s2) ->
                         succeeded_some Q (trace sf))
    by (intros Q H; apply L3; revert H; apply succeeded_some_ext; exact X3).
  assert (L1 : forall Q, succeeded_some Q (trace s1) ->
                         succeeded_some Q (trace sf))
    by (intros Q H; apply L2; revert H; apply succeeded_some_ext; exact X2).
  repeat split.
  - apply succeeded_as_some, L1, H1.
  - intros api [<-|Hin].
    + apply succeeded_as_some, L2, H2.
    + apply succeeded_as_some, L3, succeeded_as_some, H3, Hin.
  - apply succeeded_as_some, L4, H4.
  - destruct (L6 _ H6) as (pid & c & r & Hin & [email ->] & Hr).
    exists email, pid, r. auto.
  - destruct H7 as (u & d & status & Hin). exists u, d, status.
    destruct X8 as [e8 X8]. rewrite Ef, X8.
    apply in_or_app; left. apply in_or_app; left. exact Hin.
  - apply succeeded_as_some, L8, H8.
  - exists (trace s8). exact Ef.
Qed.

Lemma main_done_means_all_succeeded_witness :
  fst (main Samples.sample_key_file 1 [] Samples.all_well init) = Done tt
  /\ succeeded (shred_command Samples.sample_key_file)
       (trace (snd (main Samples.sample_key_file 1 [] Samples.all_well init))).
Proof.
  assert (H : fst (main Samples.sample_key_file 1 [] Samples.all_well init)
              = Done tt) by (vm_compute; reflexivity).
  split; [exact H|].
  apply (main_done_means_all_succeeded Samples.sample_key_file 1 []
           Samples.all_well H).
Defined.

(** ** A run in which nothing goes wrong *)

Lemma returns_bind {A B : Type} ok (R : A -> Prop) (R' : B -> Prop)
      (p : Prog A) (f : A -> Prog B) :
  Returns ok R p -> (forall a, R a -> Returns ok R' (f a)) ->
  Returns ok R' (bind p f).
Proof.
  intros Hp Hf.
  induction p as [x|h|x k IH|c k IH|q k IH|k IH|k IH|path k IH|url payload k IH];
    simpl in *; auto; try contradiction.
Qed.

Lemma returns_weaken {A : Type} ok (R R' : A -> Prop) (p : Prog A) :
  (forall a, R a -> R' a) -> Returns ok R p -> Returns ok R' p.
Proof.
  intros HR.
  induction p as [x|h|x k IH|c k IH|q k IH|k IH|k IH|path k IH|url payload k IH];
    simpl; auto.
Qed.

Lemma returns_not_halted {A : Type} ok (R : A -> Prop) (p : Prog A) :
  Returns ok R p -> forall h, p <> Stop h.
Proof. intros H h ->. exact H. Qed.

Section Obliged.

Variable ok : string -> CommandResult -> Prop.
Variable w : World.
Hypothesis commands_ok : forall pid c, ok c (shell_out w pid c).
Hypothesis key_readable : forall path, exists d, key_file w path = inr d.
Hypothesis sink_answers :
  forall url payload, exists st, http_post w url payload = inr st.

Lemma run_returns {A : Type} (R : A -> Prop) (p : Prog A) : forall s,
  Returns ok R p -> exists a, fst (run p w s) = Done a /\ R a.
Proof.
  induction p as [x|h|x k IH|c k IH|q k IH|k IH|k IH|path k IH|url payload k IH];
    intros s H; simpl in *; eauto.
  - contradiction.
  - destruct (key_readable path) as [d E]. rewrite E. auto.
  - destruct (sink_answers url payload) as [st E]. rewrite E. auto.
Qed.

Lemma run_returns_unit (p : Prog unit) s :
  Returns ok (fun _ => True) p -> fst (run p w s) = Done tt.
Proof.
  intros H. destruct (@run_returns _ _ p s H) as ([] & E & _). exact E.
Qed.

Lemma step_task_returns t s :
  TaskReturns ok t ->
  TaskReturns ok (fst (step_task t w s))
  /\ halted (fst (step_task t w s)) = None.
Proof.
  destruct t as [p|pid c k]; simpl.
  - destruct p as [x|h|x k|c k|q k|k|k|path k|url payload k]; simpl; intros H;
      try contradiction; auto.
    + split; [exact H|]. destruct k; try reflexivity. contradiction.
    + split; [apply H|]. specialize (H (operator w (prompts s))).
      destruct (k (operator w (prompts s))); try reflexivity. contradiction.
    + split; [apply H|]. specialize (H (clock_ms w)).
      destruct (k (clock_ms w)); try reflexivity. contradiction.
    + split; [apply H|]. specialize (H (clock_str w)).
      destruct (k (clock_str w)); try reflexivity. contradiction.
    + destruct (key_readable path) as [d E]. rewrite E. simpl.
      split; [apply H|]. specialize (H d).
      destruct (k d); try reflexivity. contradiction.
    + destruct (sink_answers url payload) as [st E]. rewrite E. simpl.
      split; [apply H|]. specialize (H st).
      destruct (k st); try reflexivity. contradiction.
  - intros H. specialize (H _ (commands_ok pid c)). split; [exact H|].
    destruct (k (shell_out w pid c)); try reflexivity. contradiction.
Qed.

Lemma drain_returns tasks : forall s,
  Forall (TaskReturns ok) tasks -> fst (drain tasks w s) = Done tt.
Proof.
  induction tasks as [|t tasks IH]; intros s H; [reflexivity|].
  inversion H as [|? ? Ht Hrest]; subst. simpl.
  assert (E : fst (finish_task t w s) = Done tt).
  { destruct t as [p|pid c k]; simpl.
    - apply run_returns_unit. exact Ht.
    - apply run_returns_unit. apply Ht. apply commands_ok. }
  destruct (finish_task t w s) as [[[]|h] s1]; simpl in E; [|discriminate E].
  apply IH. exact Hrest.
Qed.

Lemma gather_returns sched : forall tasks s,
  Forall (TaskReturns ok) tasks -> fst (gather sched tasks w s) = Done tt.
Proof.
  induction sched as [|i sched IH]; intros tasks s H; simpl.
  - apply drain_returns. exact H.
  - destruct (nth_error tasks i) as [t|] eqn:E; [|apply IH; exact H].
    assert (Ht : TaskReturns ok t).
    { rewrite Forall_forall in H. apply H. eapply nth_error_In. exact E. }
    destruct (@step_task_returns t s Ht) as [Ht' Hh].
    destruct (step_task t w s) as [t' s1]. simpl in Ht', Hh. rewrite Hh.
    apply IH. apply Forall_replace_nth; assumption.
Qed.

Lemma then_run_returns {A B : Type} (m : Run A) (f : A -> Run B) :
  (forall s, exists a, fst (m w s) = Done a) ->
  (forall a s, exists b, fst (f a w s) = Done b) ->
  forall s, exists b, fst (then_run m f w s) = Done b.
Proof.
  intros Hm Hf s. unfold then_run. destruct (Hm s) as [a E].
  destruct (m w s) as [[a'|h] s1]; simpl in E; [|discriminate E].
  apply Hf.
Qed.

Lemma prog_returns {A : Type} (p : Prog A) :
  Returns ok (fun _ => True) p -> forall s, exists a, fst (run p w s) = Done a.
Proof.
  intros H s. destruct (@run_returns _ _ p s H) as (a & E & _). eauto.
Qed.

End Obliged.

Lemma unpacking_returns {A : Type} ok (R : A -> Prop) c pol
      (f : CommandResult -> Prog A) :
  1 <= max_num_retries pol ->
  (forall r, ok c r -> decodable r = true) ->
  (forall r, ok c r -> verdict pol 1 r = Success) ->
  (forall r, ok c r -> Returns ok R (f r)) ->
  Returns ok R (bind (unpacking_call c pol) f).
Proof.
  intros Hn Hd Hv Hf. unfold unpacking_call, retryable_command.
  destruct (Z.to_nat (max_num_retries pol)) as [|n] eqn:E; [lia|].
  simpl. destruct (Z.leb_spec 1 (max_num_retries pol)); [|lia].
  simpl. intros r Hr.
  destruct (@decodable_streams _ (Hd r Hr)) as [Ho He].
  rewrite !bind_decoded, (@decoded_valid _ _ _ Ho). simpl.
  rewrite !bind_decoded, (@decoded_valid _ _ _ He). simpl.
  rewrite (Hv r Hr). simpl. apply Hf. exact Hr.
Qed.

Lemma retryable_returns {A : Type} ok (R : A -> Prop) c pol
      (f : option CommandResult -> Prog A) :
  1 <= max_num_retries pol ->
  (forall r, ok c r -> decodable r = true) ->
  (forall r, ok c r -> verdict pol 1 r = Success) ->
  (forall r, Returns ok R (f (Some r))) ->
  Returns ok R (bind (retryable_command c pol) f).
Proof.
  intros Hn Hd Hv Hf. unfold retryable_command.
  destruct (Z.to_nat (max_num_retries pol)) as [|n] eqn:E; [lia|].
  simpl. destruct (Z.leb_spec 1 (max_num_retries pol)); [|lia].
  simpl. intros r Hr.
  destruct (@decodable_streams _ (Hd r Hr)) as [Ho He].
  rewrite !bind_decoded, (@decoded_valid _ _ _ Ho). simpl.
  rewrite !bind_decoded, (@decoded_valid _ _ _ He). simpl.
  rewrite (Hv r Hr). simpl. apply Hf.
Qed.

Lemma accepted_decodable c r : accepted c r -> decodable r = true.
Proof. intros [H _]. exact H. Qed.

Lemma accepted_default c r : accepted c r -> verdict default_policy 1 r = Success.
Proof. intros (_ & E & _). unfold verdict. rewrite E. reflexivity. Qed.

Lemma accepted_probe c r : accepted c r -> verdict probe_policy 1 r = Success.
Proof. intros (_ & E & _). unfold verdict. rewrite E. reflexivity. Qed.

Lemma accepted_output c r :
  In c (map snd getters) -> accepted c r -> verdict output_policy 1 r = Success.
Proof.
  intros Hin (_ & E & Hout & _). unfold verdict.
  rewrite E, (Hout Hin). reflexivity.
Qed.

Lemma default_step_returns c : Returns accepted (fun _ => True) (default_step c).
Proof.
  unfold default_step. apply retryable_returns;
    [simpl; lia | apply accepted_decodable | apply accepted_default
     | intros r; exact Logic.I].
Qed.

Lemma create_project_returns : Returns accepted (fun _ => True) create_project.
Proof.
  unfold create_project.
  apply (@returns_bind _ _ accepted (fun _ => True)); [exact Logic.I|].
  intros _ _ ms stamp. cbv zeta.
  apply retryable_returns;
    [simpl; lia | apply accepted_decodable | apply accepted_default
     | intros r; exact Logic.I].
Qed.

Lemma verify_tos_accepted_returns fuel :
  Returns accepted (fun _ => True) (verify_tos_accepted (S fuel)).
Proof.
  unfold verify_tos_accepted.
  apply (@returns_bind _ _ accepted (fun _ => True)); [exact Logic.I|].
  intros _ _.
  apply (@returns_bind _ _ accepted (fun _ => True)); [|intros; exact Logic.I].
  rewrite tos_loop_S. unfold tos_pass.
  apply unpacking_returns;
    [simpl; lia | apply accepted_decodable | apply accepted_probe |].
  intros r (_ & E & _). rewrite E. simpl negb. cbv iota.
  destruct fuel; exact Logic.I.
Qed.

Lemma create_service_account_returns :
  Returns accepted (fun _ => True) create_service_account.
Proof.
  unfold create_service_account.
  apply (@returns_bind _ _ accepted (fun _ => True)); [exact Logic.I|].
  intros _ _.
  apply retryable_returns;
    [simpl; lia | apply accepted_decodable | apply accepted_default
     | intros r; exact Logic.I].
Qed.

Lemma getter_returns p c :
  In (p, c) getters ->
  Returns accepted
          (fun out => exists r, accepted c r /\ out = Str.rstrip (stdout r)) p.
Proof.
  intros Hin.
  assert (Hc : In c (map snd getters)).
  { change c with (snd (p, c)). apply in_map. exact Hin. }
  assert (Hp : p = (t <- unpacking_call c output_policy ;;
                    decoded (stdout t) (fun text => Ret (Str.rstrip text)))).
  { simpl in Hin.
    destruct Hin as [E|[E|[E|[E|[]]]]]; injection E as <- <-; reflexivity. }
  rewrite Hp.
  apply unpacking_returns;
    [simpl; lia | apply accepted_decodable
     | intros r; apply accepted_output; exact Hc |].
  intros r Hr.
  apply Returns_decoded;
    [apply (@decodable_streams _ (accepted_decodable Hr))|].
  simpl. eauto.
Qed.

Lemma authorize_service_account_returns :
  Returns accepted (fun _ => True) authorize_service_account.
Proof.
  unfold authorize_service_account.
  eapply returns_bind.
  - apply (@getter_returns get_service_account_id). simpl. auto.
  - intros id _. simpl. intros a.
    destruct (String.eqb (Str.lower a) "n"); exact Logic.I.
Qed.

Lemma create_service_account_key_returns KEY_FILE :
  Returns accepted (fun _ => True) (create_service_account_key KEY_FILE).
Proof.
  unfold create_service_account_key.
  apply (@returns_bind _ _ accepted (fun _ => True)); [exact Logic.I|].
  intros _ _.
  eapply returns_bind.
  - apply (@getter_returns get_service_account_email). simpl. auto.
  - intros email _.
    apply retryable_returns;
      [simpl; lia | apply accepted_decodable | apply accepted_default
       | intros r; exact Logic.I].
Qed.

Lemma download_service_account_key_returns KEY_FILE :
  Returns accepted (fun _ => True) (download_service_account_key KEY_FILE).
Proof.
  unfold download_service_account_key.
  eapply returns_bind.
  - apply (@getter_returns get_admin_user_email). simpl. auto.
  - intros email (r & (_ & _ & _ & Hat) & ->).
    destruct (Hat eq_refl) as (name & domain & rest & E). rewrite E.
    simpl. intros d st. exact Logic.I.
Qed.

Lemma enable_apis_returns w sched :
  Obliging w -> forall s, exists a, fst (enable_apis sched w s) = Done a.
Proof.
  intros (Hc & Hk & Hp). unfold enable_apis.
  apply then_run_returns; [intros s; simpl; eauto|]. intros _.
  apply then_run_returns; [|intros _ s; simpl; eauto].
  intros s. exists tt.
  apply (@gather_returns accepted w Hc Hk Hp).
  unfold enable_api_calls. apply Forall_forall. intros t Hin.
  apply in_map_iff in Hin as (api & <- & _).
  exact (@default_step_returns (enable_command api)).
Qed.

(** In a world where nothing goes wrong -- what every command prints can
    be decoded, every command ends with status zero, the getters print
    something, the administrator's address has an at sign, the key file
    can be read and the sink answers -- [main]
    returns, for every schedule of the gathered calls and whatever the
    operator types.  In particular the answer [n] to the authorization
    prompt does not cancel anything: line 344 drops what
    [authorize_service_account] returns. *)
Theorem main_returns_when_nothing_fails :
  forall KEY_FILE fuel sched w s,
    Obliging w ->
    fst (main KEY_FILE (S fuel) sched w s) = Done tt.
Proof.
  intros K fuel sched w s Hw.
  assert (H : exists a, fst (main K (S fuel) sched w s) = Done a).
  { destruct Hw as (Hc & Hk & Hp).
    pose proof (@prog_returns accepted w Hc Hk Hp) as Hrun.
    unfold main. revert s.
    apply then_run_returns; [apply Hrun; exact Logic.I|]. intros _.
    apply then_run_returns; [apply Hrun, create_project_returns|]. intros _.
    apply then_run_returns;
      [apply Hrun, verify_tos_accepted_returns|]. intros _.
    apply then_run_returns;
      [apply enable_apis_returns; exact (conj Hc (conj Hk Hp))|]. intros _.
    apply then_run_returns;
      [apply Hrun, create_service_account_returns|]. intros _.
    apply then_run_returns;
      [apply Hrun, authorize_service_account_returns|]. intros _.
    apply then_run_returns;
      [apply Hrun, create_service_account_key_returns|]. intros _.
    apply then_run_returns;
      [apply Hrun, download_service_account_key_returns|]. intros _.
    apply then_run_returns;
      [apply Hrun, (@default_step_returns (shred_command K))|]. intros _.
    apply Hrun. exact Logic.I. }
  destruct H as [[] H]. exact H.
Qed.

Lemma main_returns_when_nothing_fails_witness :
  Obliging (Samples.world_of (fun _ _ => Samples.mail_result) (fun _ => "n"))
  /\ fst (main Samples.sample_key_file 1 [2; 0; 2; 1]%nat
               (Samples.world_of (fun _ _ => Samples.mail_result)
                                 (fun _ => "n")) init) = Done tt.
Proof.
  assert (H : Obliging (Samples.world_of (fun _ _ => Samples.mail_result)
                                         (fun _ => "n"))).
  { split; [|split].
    - intros pid c. split; [reflexivity|].
      split; [reflexivity|]. split; [reflexivity|].
      intros _. exists "admin", "example.com", []. reflexivity.
    - intros path. eexists. reflexivity.
    - intros url payload. eexists. reflexivity. }
  split; [exact H|].
  apply (main_returns_when_nothing_fails Samples.sample_key_file 0
           [2; 0; 2; 1]%nat init H).
Defined.

(** ** Creating a service account that is already there *)


Lemma create_project_not_account ms stamp :
  create_project_command ms stamp <> create_service_account_command.
Proof.
  unfold create_project_command, create_service_account_command.
  simpl. intros H. discriminate H.
Qed.



